(** * Karhunen-Loeve simulation of fractional Brownian motion

    A shallow embedding of [core.py]: [fbm_covariance_grid] and
    [fbm_kl_truncated].

    Numbers.  The program computes on [float64]; the development works in
    exact arithmetic and reads every float as a real number of [R].
    Rounding, infinities and NaN are outside the model, except in the
    short part on binary64 that shows where rounding makes the output
    differ from the exact value.  Python integers ([K], [n_steps], an
    integer seed) are [Z].  Memory is not modelled: an array of any size
    that numpy agrees to build is built.

    Arrays.  A numpy array whose number of axes is only known at run time
    (the argument [t]) is an [ndarray]: a shape and the row-major data.
    Once the code has checked the number of axes, one-axis arrays are
    [list R] and two-axis arrays are a [matrix].

    Errors.  [raise ValueError(msg)] is the [Raise] constructor of
    [result]; every numpy operation that can raise on a shape mismatch or
    on an index out of bounds returns a [result] as well.

    External collaborators.  [np.linalg.eigh], [np.argsort], the random
    generator and the size limit of arrays are not part of the
    repository: they are the fields of the class [Numpy], and a statement
    assumes of them only the part of their documented contract that it
    needs.  An instance of the class is the environment of one run.
    [simple_numpy] is an instance on which every such statement is
    applied.

    Layout.  The definitions come first: the program, then the notions
    the statements need (quadratic forms, eigendecompositions, the
    truncation error).  The lemmas follow: arrays and the covariance
    matrix, the sampler, two runs in two environments, then the proof
    that the covariance matrix is positive semidefinite (the Gaussian
    kernel, the binomial series of [(1 - y)^beta], Schoenberg's passage
    to [|d|^(2H)]) and what it gives for the sorted eigenpairs and for
    the path. *)

From Stdlib Require Import Floats.
From Stdlib Require Import String Ascii DecimalString.
From Stdlib Require Import Reals Lra Lia ZArith NArith List Bool Arith.
From Stdlib Require Import Permutation Sorted.
Import ListNotations.

Open Scope R_scope.

(** ** Exceptions and results *)

Inductive exn : Type :=
| ValueError (msg : string)
| IndexError (msg : string).

Inductive result (A : Type) : Type :=
| Ok (a : A)
| Raise (e : exn).

Arguments Ok {A} a.
Arguments Raise {A} e.

Definition bind {A B : Type} (m : result A) (k : A -> result B) : result B :=
  match m with
  | Ok a => k a
  | Raise e => Raise e
  end.

Notation "x <- m ;; k" := (bind m (fun x => k))
  (at level 61, m at next level, right associativity).

Definition raises {A : Type} (m : result A) : Prop :=
  exists e, m = Raise e.

Definition returns {A : Type} (m : result A) : Prop :=
  exists a, m = Ok a.


(** ** Comparisons of floats used as conditions *)

Definition Rltb (x y : R) : bool := if Rlt_dec x y then true else false.
Definition Rleb (x y : R) : bool := if Rle_dec x y then true else false.

(** The chained comparison [0.0 < H < 1.0]. *)
Definition in_unit_interval (H : R) : bool := Rltb 0 H && Rltb H 1.

(** ** Arrays *)

Record ndarray : Type := mk_ndarray {
  shape : list nat;
  data : list R
}.

Definition ndim (a : ndarray) : nat := length (shape a).

(** A one-axis array holding the entries of [l]. *)
Definition array1d (l : list R) : ndarray :=
  {| shape := [length l]; data := l |}.

Record matrix : Type := mk_matrix {
  nrows : nat;
  ncols : nat;
  mdata : list R
}.

(** [m[i, j]] on row-major data. *)
Definition mget (m : matrix) (i j : nat) : R :=
  nth (i * ncols m + j) (mdata m) 0.

(** The matrix with [r] rows and [c] columns whose entry [(i, j)] is
    [g i j]. *)
Definition tabulate (r c : nat) (g : nat -> nat -> R) : matrix :=
  {| nrows := r; ncols := c;
     mdata := flat_map (fun i => map (g i) (seq 0 c)) (seq 0 r) |}.

(** [t[:, None]] and [t[None, :]] of a one-axis array: the same data seen
    as a column and as a row. *)
Definition col_view (t : ndarray) : matrix :=
  {| nrows := nth 0 (shape t) 0%nat; ncols := 1; mdata := data t |}.

Definition row_view (t : ndarray) : matrix :=
  {| nrows := 1; ncols := nth 0 (shape t) 0%nat; mdata := data t |}.

(** *** Element-wise operations *)

Definition mmap (f : R -> R) (m : matrix) : matrix :=
  {| nrows := nrows m; ncols := ncols m; mdata := map f (mdata m) |}.

(** numpy's rule for one axis of two operands: equal lengths, or one of
    them is 1 and is stretched to the other. *)
Definition bdim (m n : nat) : option nat :=
  if (m =? n)%nat then Some m
  else if (m =? 1)%nat then Some n
  else if (n =? 1)%nat then Some m
  else None.

(** Reading a stretched operand: an axis of length 1 is read at index 0. *)
Definition bget (a : matrix) (i j : nat) : R :=
  mget a (if (nrows a =? 1)%nat then 0%nat else i)
         (if (ncols a =? 1)%nat then 0%nat else j).

(** A binary element-wise operation with broadcasting. *)
Definition bcast (f : R -> R -> R) (a b : matrix) : result matrix :=
  match bdim (nrows a) (nrows b), bdim (ncols a) (ncols b) with
  | Some r, Some c =>
      Ok (tabulate r c (fun i j => f (bget a i j) (bget b i j)))
  | _, _ => Raise (ValueError "operands could not be broadcast together")
  end.

(** *** [np.power] on reals

    For a positive base this is [exp (y * ln x)].  [np.power(0, y)] is 1
    at [y = 0] and 0 at [y > 0].  For a negative base numpy computes the
    signed integer power when [y] is integral.  The remaining cases give
    [inf] or [nan] in numpy, which [R] does not have; they are mapped to 0
    here and the program never evaluates them: every base it raises is an
    absolute value and the exponent is [2 * H] with [H > 0]. *)
Definition np_power (x y : R) : R :=
  if Rlt_dec 0 x then Rpower x y
  else if Req_dec_T x 0 then (if Req_dec_T y 0 then 1 else 0)
  else if Req_dec_T y (IZR (Int_part y)) then powerRZ x (Int_part y)
  else 0.

(** ** [fbm_covariance_grid] *)

Definition fbm_covariance_grid (t : ndarray) (H : R) : result matrix :=
  if negb (ndim t =? 1)%nat then
    Raise (ValueError "t must be a 1D array of time points.")
  else if negb (in_unit_interval H) then
    Raise (ValueError "H must be in (0, 1).")
  else
    let T_i := col_view t in
    let T_j := row_view t in
    a <- bcast Rplus (mmap (fun x => np_power x (2 * H)) (mmap Rabs T_i))
                     (mmap (fun x => np_power x (2 * H)) (mmap Rabs T_j)) ;;
    d <- bcast Rminus T_i T_j ;;
    s <- bcast Rminus a (mmap (fun x => np_power x (2 * H)) (mmap Rabs d)) ;;
    Ok (mmap (Rmult 0.5) s).

(** The kernel the docstring names:
    [R_H(s, t) = 0.5 (|s|^{2H} + |t|^{2H} - |t - s|^{2H})]. *)
Definition R_H (H s t : R) : R :=
  0.5 * (np_power (Rabs s) (2 * H) + np_power (Rabs t) (2 * H)
         - np_power (Rabs (s - t)) (2 * H)).

(** ** The kernel in binary64

    [float] is binary64, the [float64] of numpy.  At [H = 0.5] the
    exponent [2.0 * H] is exactly [1.0] and [np.power(x, 1.0)] is [x], so
    an entry of lines 34 to 38 is made of the three absolute values by
    one addition, one subtraction and one multiplication, each of them
    rounded. *)
Definition brownian_entry_b64 (s t : float) : float :=
  (0.5 * (abs s + abs t - abs (s - t)))%float.

(** The matrix of these entries for a one-axis grid, row by row. *)
Definition brownian_grid_b64 (t : list float) : list (list float) :=
  map (fun s => map (fun u => brownian_entry_b64 s u) t) t.

(** [min(s, t)] on binary64. *)
Definition min_b64 (s t : float) : float := if (t <? s)%float then t else s.

(** ** One-axis arrays *)

Definition Rsum (l : list R) : R := fold_right Rplus 0 l.

(** [np.linspace(start, stop, num)] with the default [endpoint=True], as
    numpy computes it: [arange(num) * step + start] with
    [step = (stop - start) / (num - 1)], then the last entry is overwritten
    by [stop].  (When the step is zero numpy divides first and multiplies
    afterwards; with no interval at all it multiplies by the whole span.) *)
Definition linspace (start stop : R) (num : nat) : list R :=
  let div := (num - 1)%nat in
  let delta := stop - start in
  let y := map INR (seq 0 num) in
  let y :=
    if (0 <? div)%nat then
      let step := delta / INR div in
      if Req_dec_T step 0 then map (fun x => x / INR div * delta) y
      else map (fun x => x * step) y
    else map (fun x => x * delta) y in
  let y := map (fun x => x + start) y in
  if (1 <? num)%nat then removelast y ++ [stop] else y.

(** [a[:k]] for a Python integer [k]: a negative [k] counts from the
    end. *)
Definition slice_to {A : Type} (k : Z) (a : list A) : list A :=
  if (k <? 0)%Z then firstn (length a - Z.to_nat (- k)) a
  else firstn (Z.to_nat k) a.

(** [a[idx]] for an array of indices: [IndexError] when an index is out of
    bounds. *)
Definition take (a : list R) (idx : list nat) : result (list R) :=
  if forallb (fun j => (j <? length a)%nat) idx then
    Ok (map (fun j => nth j a 0) idx)
  else Raise (IndexError "index out of bounds").

(** [V[:, idx]]: the columns of [V] named by [idx], in that order. *)
Definition take_cols (V : matrix) (idx : list nat) : result matrix :=
  if forallb (fun j => (j <? ncols V)%nat) idx then
    Ok (tabulate (nrows V) (length idx)
          (fun i k => mget V i (nth k idx 0%nat)))
  else Raise (IndexError "index out of bounds").

(** [V[:, :k]]. *)
Definition cols_to (k : Z) (V : matrix) : matrix :=
  let c := length (slice_to k (seq 0 (ncols V))) in
  tabulate (nrows V) c (fun i j => mget V i j).

(** [np.clip(w, lo, None)]. *)
Definition clip_lo (w : list R) (lo : R) : list R := map (fun x => Rmax x lo) w.

(** [a * b] on one-axis arrays, with broadcasting. *)
Definition vec_mul (a b : list R) : result (list R) :=
  match bdim (length a) (length b) with
  | Some n =>
      Ok (map (fun i =>
                 nth (if (length a =? 1)%nat then 0%nat else i) a 0
                 * nth (if (length b =? 1)%nat then 0%nat else i) b 0)
              (seq 0 n))
  | None => Raise (ValueError "operands could not be broadcast together")
  end.

(** [V @ x] for a matrix and a one-axis array. *)
Definition matvec (V : matrix) (x : list R) : result (list R) :=
  if (ncols V =? length x)%nat then
    Ok (map (fun i =>
               Rsum (map (fun k => mget V i k * nth k x 0) (seq 0 (ncols V))))
            (seq 0 (nrows V)))
  else Raise (ValueError "matmul: mismatch in the core dimension").

(** ** [fbm_kl_truncated] *)

(** The functions of numpy that the sampler calls and that are given by
    contract only. *)
Class Numpy : Type := {
  (** the state of a random generator, and one standard-normal draw *)
  bitgen : Type;
  standard_normal : bitgen -> R * bitgen;
  (** the generator that [np.random.default_rng] builds from a seed that
      it accepts, a non-negative integer *)
  seed_rng : N -> bitgen;
  (** [np.linalg.eigh]: the eigenvalues and the matrix whose columns are
      the eigenvectors *)
  eigh : matrix -> list R * matrix;
  (** [np.argsort]: indices that sort the array in ascending order *)
  argsort : list R -> list nat;
  (** the largest number of grid points that numpy agrees to build an
      array for; it depends on the platform *)
  max_size : Z
}.

Section Sampler.

Context {np : Numpy}.

(** The argument [random_state]: [None], a Python integer or a
    generator. *)
Inductive random_state_t : Type :=
| RandomNone
| RandomSeed (seed : Z)
| RandomGenerator (g : bitgen).

(** [np.random.default_rng(seed)]: with [None] the seed is fresh entropy
    from the operating system, here the value [os_entropy]; a negative
    integer is refused with [ValueError]. *)
Definition default_rng (seed : option Z) (os_entropy : N) : result bitgen :=
  match seed with
  | Some s =>
      if (s <? 0)%Z then Raise (ValueError "expected non-negative integer")
      else Ok (seed_rng (Z.to_N s))
  | None => Ok (seed_rng os_entropy)
  end.

(** Lines 104 to 107: a generator passed in is used as it is, anything
    else goes to [default_rng]. *)
Definition init_rng (random_state : random_state_t) (os_entropy : N)
    : result bitgen :=
  match random_state with
  | RandomGenerator g => Ok g
  | RandomSeed s => default_rng (Some s) os_entropy
  | RandomNone => default_rng None os_entropy
  end.

(** Line 92, [np.linspace(0.0, T, N)] for a Python integer [N]: beyond
    the size that numpy agrees to build it raises [ValueError]. *)
Definition np_linspace (start stop : R) (num : Z) : result (list R) :=
  if (max_size <? num)%Z then
    Raise (ValueError "Maximum allowed size exceeded")
  else Ok (linspace start stop (Z.to_nat num)).

(** [n] successive draws. *)
Fixpoint draws (n : nat) (g : bitgen) : list R * bitgen :=
  match n with
  | O => ([], g)
  | S n' =>
      let '(x, g1) := standard_normal g in
      let '(xs, g2) := draws n' g1 in
      (x :: xs, g2)
  end.

(** [rng.normal(size=k)]. *)
Definition normal (g : bitgen) (k : Z) : result (list R * bitgen) :=
  if (k <? 0)%Z then Raise (ValueError "negative dimensions are not allowed")
  else Ok (draws (Z.to_nat k) g).

(** The state of [g] after [n] draws. *)
Fixpoint advance (n : nat) (g : bitgen) : bitgen :=
  match n with
  | O => g
  | S n' => advance n' (snd (standard_normal g))
  end.

(** The [i]-th draw from [g], counting from 0. *)
Definition draw_at (g : bitgen) (i : nat) : R :=
  fst (standard_normal (advance i g)).

(** The message of the check on [K]. *)
Definition show_Z (z : Z) : string := NilZero.string_of_int (Z.to_int z).

Definition K_message (N K : Z) : string :=
  ("K must be in [1, " ++ show_Z N ++ "], got K=" ++ show_Z K ++ ".")%string.

(** Lines 96 to 102: the eigenpairs of [C], sorted by descending
    eigenvalue, the eigenvalues clipped at 0 afterwards. *)
Definition sorted_eigh (C : matrix) : result (list R * matrix) :=
  let '(w, V) := eigh C in
  let idx := rev (argsort w) in
  w <- take w idx ;;
  V <- take_cols V idx ;;
  let w := clip_lo w 0 in
  Ok (w, V).

(** What a call leaves behind: the returned pair [(t, path)] and the
    state of the generator it drew from. *)
Record outcome : Type := mk_outcome {
  out_t : list R;
  out_path : list R;
  out_rng : bitgen
}.

Definition fbm_kl_truncated (H T : R) (K n_steps : Z)
    (random_state : random_state_t) (os_entropy : N) : result outcome :=
  if negb (in_unit_interval H) then
    Raise (ValueError "H must be in (0, 1).")
  else if (n_steps <? 1)%Z then
    Raise (ValueError "n_steps must be at least 1.")
  else if Rleb T 0 then
    Raise (ValueError "T must be positive.")
  else
    let N := (n_steps + 1)%Z in
    if negb ((1 <=? K)%Z && (K <=? N)%Z) then
      Raise (ValueError (K_message N K))
    else
      t <- np_linspace 0 T N ;;
      C <- fbm_covariance_grid (array1d t) H ;;
      wV <- sorted_eigh C ;;
      let '(w, V) := wV in
      rng <- init_rng random_state os_entropy ;;
      zg <- normal rng K ;;
      let '(z, rng') := zg in
      coeffs <- vec_mul (map sqrt (slice_to K w)) z ;;
      path <- matvec (cols_to K V) coeffs ;;
      Ok {| out_t := t; out_path := path; out_rng := rng' |}.

(** What the caller gets: the pair [(t, path)] of line 114, or the
    exception. *)
Definition returned (r : result outcome) : result (list R * list R) :=
  o <- r ;; Ok (out_t o, out_path o).

End Sampler.

(** ** Concrete collaborators

    Simple stand-ins that meet the contracts assumed of the external
    functions; the general statements below are applied to them. *)

(** A stable argsort by insertion. *)
Fixpoint insert_by (w : list R) (i : nat) (l : list nat) : list nat :=
  match l with
  | [] => [i]
  | j :: l' =>
      if Rle_dec (nth i w 0) (nth j w 0) then i :: l
      else j :: insert_by w i l'
  end.

Definition insertion_argsort (w : list R) : list nat :=
  fold_right (insert_by w) [] (seq 0 (length w)).

(** A generator that counts: its [n]-th draw is [n]. *)
Definition counter_normal (n : nat) : R * nat := (INR n, S n).
Definition counter_seed (s : N) : nat := N.to_nat s.

(** The diagonal of [C] with the identity matrix: the eigenpairs of a
    diagonal matrix. *)
Definition eigh_diagonal (C : matrix) : list R * matrix :=
  (map (fun i => mget C i i) (seq 0 (nrows C)),
   tabulate (nrows C) (nrows C) (fun i j => if (i =? j)%nat then 1 else 0)).

Definition simple_numpy : Numpy := {|
  bitgen := nat;
  standard_normal := counter_normal;
  seed_rng := counter_seed;
  eigh := eigh_diagonal;
  argsort := insertion_argsort;
  max_size := 2 ^ 63 - 1
|}.

(** The same collaborators in another environment, where the counting
    generator keeps its count as a binary number. *)
Definition binary_normal (n : N) : R * N := (INR (N.to_nat n), N.succ n).

Definition binary_numpy : Numpy := {|
  bitgen := N;
  standard_normal := binary_normal;
  seed_rng := fun s => s;
  eigh := eigh_diagonal;
  argsort := insertion_argsort;
  max_size := 2 ^ 63 - 1
|}.

(** ** Finite sums and quadratic forms

    Used to state and prove that the covariance matrix is positive
    semidefinite, which is what makes clipping a no-op in exact
    arithmetic. *)

(** The sum of [f 0], ..., [f (n - 1)]. *)
Definition big_sum (n : nat) (f : nat -> R) : R := Rsum (map f (seq 0 n)).

(** The quadratic form of a kernel [k] with the coefficients [c]. *)
Definition quad_form (n : nat) (c : nat -> R) (k : nat -> nat -> R) : R :=
  big_sum n (fun i => big_sum n (fun j => c i * c j * k i j)).

(** The squared distance of two points of [t]. *)
Definition sqdist (t : nat -> R) (i j : nat) : R :=
  (t i - t j) * (t i - t j).

(** The partial sums of the exponential series. *)
Definition exp_partial (m : nat) (x : R) : R :=
  big_sum (S m) (fun k => / INR (fact k) * x ^ k).

(** The coefficients of the binomial series of [(1 - y)^beta]:
    [b 0 = 1] and [b (k + 1) = b k * (k - beta) / (k + 1)]. *)
Fixpoint binom_coef (beta : R) (k : nat) : R :=
  match k with
  | O => 1
  | S k' => binom_coef beta k' * (INR k' - beta) / INR (S k')
  end.

(** Their partial sums at [y = 1]: the products of the [1 - beta / k]. *)
Fixpoint binom_prod (beta : R) (n : nat) : R :=
  match n with
  | O => 1
  | S n' => binom_prod beta n' * (1 - beta / INR (S n'))
  end.

(** The partial sums of the series and their derivatives. *)
Definition binom_partial (beta : R) (n : nat) (y : R) : R :=
  big_sum (S n) (fun k => binom_coef beta k * y ^ k).

Definition binom_partial' (beta : R) (n : nat) (y : R) : R :=
  big_sum (S n) (fun k => binom_coef beta k * (INR k * y ^ pred k)).

(** ** Eigendecompositions and truncation *)

(** The columns of [V] have norm 1 and are orthogonal to each other. *)
Definition orthonormal_columns (V : matrix) : Prop :=
  forall k l, (k < ncols V)%nat -> (l < ncols V)%nat ->
    big_sum (nrows V) (fun i => mget V i k * mget V i l)
    = if (k =? l)%nat then 1 else 0.

(** [(w, V)] is an exact orthonormal eigendecomposition of the square
    matrix [C]: [C = V diag(w) V^T] with orthonormal columns. *)
Definition exact_eigh (C : matrix) (w : list R) (V : matrix) : Prop :=
  length w = nrows C /\ nrows V = nrows C /\ ncols V = nrows C
  /\ orthonormal_columns V
  /\ forall i j, (i < nrows C)%nat -> (j < nrows C)%nat ->
       mget C i j
       = big_sum (nrows C) (fun k => mget V i k * nth k w 0 * mget V j k).

(** [lam] is an eigenvalue of [C]: some vector that is not zero is
    mapped to [lam] times itself. *)
Definition is_eigenvalue (C : matrix) (lam : R) : Prop :=
  exists v : nat -> R,
    (exists i, (i < nrows C)%nat /\ v i <> 0)
    /\ forall i, (i < nrows C)%nat ->
         big_sum (ncols C) (fun j => mget C i j * v j) = lam * v i.

(** [V[:, :K] diag(w[:K]) V[:, :K]^T]. *)
Definition truncation (V : matrix) (w : list R) (K : Z) : matrix :=
  let VK := cols_to K V in
  let wK := slice_to K w in
  tabulate (nrows V) (nrows V)
    (fun i j => big_sum (ncols VK)
                  (fun k => mget VK i k * nth k wK 0 * mget VK j k)).

(** The Frobenius norm of [C - V[:, :K] diag(w[:K]) V[:, :K]^T]. *)
Definition truncation_error (C V : matrix) (w : list R) (K : Z) : R :=
  sqrt (big_sum (nrows C) (fun i => big_sum (ncols C) (fun j =>
          (mget C i j - mget (truncation V w K) i j)
          * (mget C i j - mget (truncation V w K) i j)))).

(** [eigh] returns as many eigenvalues as [C] has rows, and a square
    matrix of that size. *)
Definition eigh_well_shaped {np : Numpy} (C : matrix) : Prop :=
  length (fst (eigh C)) = nrows C
  /\ nrows (snd (eigh C)) = nrows C
  /\ ncols (snd (eigh C)) = nrows C.

(** The order in which the sampler takes the columns of [eigh C], and the
    eigenvalues in that order, before clipping. *)
Definition raw_order {np : Numpy} (C : matrix) : list nat :=
  rev (argsort (fst (eigh C))).

Definition raw_sorted {np : Numpy} (C : matrix) : list R :=
  map (fun j => nth j (fst (eigh C)) 0) (raw_order C).

(** The kernel that is 1 on the pairs of equal points of [t] and 0
    elsewhere. *)
Definition same_point (t : nat -> R) (i j : nat) : R :=
  if Req_dec_T (sqdist t i j) 0 then 1 else 0.

(** ** Facts about arrays *)

Lemma nth_tabulate_row (g : nat -> R) (c j : nat) (d : R) :
  (j < c)%nat -> nth j (map g (seq 0 c)) d = g j.
Proof.
  intros Hj.
  rewrite (nth_indep _ d (g 0%nat)) by now rewrite length_map, length_seq.
  rewrite (map_nth g (seq 0 c) 0%nat j), seq_nth; auto.
Qed.

Lemma nth_flat_rows (g : nat -> nat -> R) (c : nat) (rows : list nat) :
  forall i j d, (i < length rows)%nat -> (j < c)%nat ->
  nth (i * c + j) (flat_map (fun k => map (g k) (seq 0 c)) rows) d
  = g (nth i rows 0%nat) j.
Proof.
  induction rows as [|k rows IH]; intros i j d Hi Hj; simpl in *; [lia|].
  destruct i as [|i].
  - rewrite app_nth1 by (rewrite length_map, length_seq; lia).
    simpl. now apply nth_tabulate_row.
  - rewrite app_nth2 by (rewrite length_map, length_seq; simpl; lia).
    rewrite length_map, length_seq.
    replace (S i * c + j - c)%nat with (i * c + j)%nat by (simpl; lia).
    apply IH; lia.
Qed.

Lemma mget_tabulate (r c : nat) (g : nat -> nat -> R) (i j : nat) :
  (i < r)%nat -> (j < c)%nat -> mget (tabulate r c g) i j = g i j.
Proof.
  intros Hi Hj. unfold mget, tabulate; simpl.
  rewrite nth_flat_rows by (rewrite ?length_seq; lia).
  now rewrite seq_nth.
Qed.

Lemma length_flat_rows (g : nat -> nat -> R) (c : nat) (rows : list nat) :
  length (flat_map (fun k => map (g k) (seq 0 c)) rows) = (length rows * c)%nat.
Proof.
  induction rows as [|k rows IH]; simpl; auto.
  now rewrite length_app, length_map, length_seq, IH.
Qed.

Lemma mget_mmap (f : R -> R) (m : matrix) (i j : nat) :
  (i * ncols m + j < length (mdata m))%nat ->
  mget (mmap f m) i j = f (mget m i j).
Proof.
  intros Hlt. unfold mget, mmap; simpl.
  rewrite (nth_indep _ 0 (f 0)) by now rewrite length_map.
  apply map_nth.
Qed.

Lemma bdim_same (n : nat) : bdim n n = Some n.
Proof. unfold bdim. now rewrite Nat.eqb_refl. Qed.

Lemma bdim_1_r (n : nat) : bdim n 1 = Some n.
Proof.
  unfold bdim. destruct (Nat.eqb_spec n 1) as [->|]; auto.
Qed.

Lemma bdim_1_l (n : nat) : bdim 1 n = Some n.
Proof.
  unfold bdim. destruct (Nat.eqb_spec 1 n) as [<-|]; auto.
Qed.

Lemma bget_full (m : matrix) (i j : nat) :
  (i < nrows m)%nat -> (j < ncols m)%nat -> bget m i j = mget m i j.
Proof.
  intros Hi Hj. unfold bget.
  destruct (Nat.eqb_spec (nrows m) 1), (Nat.eqb_spec (ncols m) 1);
    repeat match goal with
           | H : (?k < ?n)%nat, E : ?n = 1%nat |- _ =>
               rewrite E in H; assert (k = 0%nat) by lia; subst k; clear H
           end; reflexivity.
Qed.

Lemma bget_col (m : matrix) (i j : nat) :
  ncols m = 1%nat -> (i < nrows m)%nat -> bget m i j = nth i (mdata m) 0.
Proof.
  intros Hc Hi. unfold bget, mget. rewrite Hc; simpl.
  destruct (Nat.eqb_spec (nrows m) 1) as [E|]; f_equal; lia.
Qed.

Lemma bget_row (m : matrix) (i j : nat) :
  nrows m = 1%nat -> (j < ncols m)%nat -> bget m i j = nth j (mdata m) 0.
Proof.
  intros Hr Hj. unfold bget, mget. rewrite Hr; simpl.
  destruct (Nat.eqb_spec (ncols m) 1) as [E|]; f_equal; lia.
Qed.

Lemma nth_map_R (f : R -> R) (l : list R) (i : nat) :
  (i < length l)%nat -> nth i (map f l) 0 = f (nth i l 0).
Proof.
  intros Hi. rewrite (nth_indep _ 0 (f 0)) by now rewrite length_map.
  apply map_nth.
Qed.

Lemma in_unit_interval_true (H : R) :
  in_unit_interval H = true <-> 0 < H < 1.
Proof.
  unfold in_unit_interval, Rltb.
  destruct (Rlt_dec 0 H), (Rlt_dec H 1); simpl; split; intros;
    try discriminate; try tauto; lra.
Qed.

Lemma in_unit_interval_false (H : R) :
  in_unit_interval H = false <-> ~ (0 < H < 1).
Proof.
  rewrite <- in_unit_interval_true. now destruct (in_unit_interval H).
Qed.

(** ** The covariance matrix on a one-axis grid *)

(** On a one-axis grid and with [H] in the open unit interval the
    computation goes through, and every entry is the kernel at the two
    grid points. *)
Lemma fbm_covariance_grid_entries (l : list R) (H : R) :
  0 < H < 1 ->
  exists C,
    fbm_covariance_grid (array1d l) H = Ok C
    /\ nrows C = length l /\ ncols C = length l
    /\ length (mdata C) = (length l * length l)%nat
    /\ forall i j, (i < length l)%nat -> (j < length l)%nat ->
         mget C i j = R_H H (nth i l 0) (nth j l 0).
Proof.
  intros HH. unfold fbm_covariance_grid.
  change (ndim (array1d l)) with 1%nat. simpl negb at 1. cbv iota.
  apply in_unit_interval_true in HH as ->. simpl negb. cbv iota zeta.
  set (N := length l).
  unfold bcast at 1. cbn [nrows ncols mmap col_view row_view array1d shape nth].
  fold N. rewrite bdim_1_r, bdim_1_l. cbn [bind].
  unfold bcast at 1. cbn [nrows ncols mmap col_view row_view array1d shape nth].
  fold N. rewrite bdim_1_r, bdim_1_l. cbn [bind].
  unfold bcast at 1. cbn [nrows ncols mmap tabulate].
  rewrite !bdim_same. cbn [bind].
  eexists; split; [reflexivity|].
  cbn [nrows ncols mmap tabulate mdata].
  repeat split; auto.
  - rewrite length_map, length_flat_rows, length_seq. reflexivity.
  - intros i j Hi Hj.
    rewrite mget_mmap
      by (cbn [ncols mdata tabulate];
          rewrite length_flat_rows, length_seq; nia).
    rewrite mget_tabulate by assumption.
    rewrite bget_full by assumption.
    rewrite mget_tabulate by assumption.
    rewrite bget_col by (auto; cbn; assumption).
    rewrite bget_row by (auto; cbn; assumption).
    rewrite bget_full
      by (cbn [nrows ncols mmap tabulate]; assumption).
    rewrite mget_mmap
      by (cbn [ncols mdata mmap tabulate];
          rewrite length_map, length_flat_rows, length_seq; nia).
    rewrite mget_mmap
      by (cbn [ncols mdata mmap tabulate];
          rewrite length_flat_rows, length_seq; nia).
    rewrite mget_tabulate by assumption.
    rewrite bget_col by (auto; cbn; assumption).
    rewrite bget_row by (auto; cbn; assumption).
    cbn [mdata mmap col_view row_view array1d data].
    rewrite !nth_map_R by (rewrite ?length_map; assumption).
    unfold R_H. reflexivity.
Qed.

(** The computation only fails on the two checks: any array with one axis
    goes through, whatever it holds. *)
Lemma fbm_covariance_grid_returns (t : ndarray) (H : R) :
  ndim t = 1%nat -> 0 < H < 1 -> returns (fbm_covariance_grid t H).
Proof.
  intros Hd HH. unfold fbm_covariance_grid.
  rewrite Hd. simpl negb at 1. cbv iota.
  apply in_unit_interval_true in HH as ->. simpl negb. cbv iota zeta.
  unfold bcast at 1. cbn [nrows ncols mmap col_view row_view].
  rewrite bdim_1_r, bdim_1_l. cbn [bind].
  unfold bcast at 1. cbn [nrows ncols mmap col_view row_view].
  rewrite bdim_1_r, bdim_1_l. cbn [bind].
  unfold bcast at 1. cbn [nrows ncols mmap tabulate].
  rewrite !bdim_same. cbn [bind].
  eexists; reflexivity.
Qed.

Lemma fbm_covariance_grid_raises (t : ndarray) (H : R) :
  raises (fbm_covariance_grid t H) <-> ndim t <> 1%nat \/ ~ (0 < H < 1).
Proof.
  split.
  - intros [e He].
    destruct (Nat.eq_dec (ndim t) 1) as [Hd|Hd]; [|now left].
    right; intros HH.
    destruct (fbm_covariance_grid_returns t H Hd HH) as [C HC].
    congruence.
  - intros Hbad. unfold fbm_covariance_grid.
    destruct (Nat.eqb_spec (ndim t) 1) as [Hd|Hd]; simpl.
    + destruct (in_unit_interval H) eqn:E; simpl.
      * apply in_unit_interval_true in E. tauto.
      * eexists; reflexivity.
    + eexists; reflexivity.
Qed.

(** ** [np.power] where the program uses it *)

Lemma np_power_pos (x y : R) : 0 < x -> np_power x y = Rpower x y.
Proof. intros Hx. unfold np_power. now destruct (Rlt_dec 0 x). Qed.

Lemma np_power_0 (y : R) : 0 < y -> np_power 0 y = 0.
Proof.
  intros Hy. unfold np_power.
  destruct (Rlt_dec 0 0); [lra|].
  destruct (Req_dec_T 0 0); [|lra].
  destruct (Req_dec_T y 0); [lra|reflexivity].
Qed.

Lemma np_power_1 (x : R) : 0 <= x -> np_power x 1 = x.
Proof.
  intros [Hx| <-].
  - rewrite np_power_pos by assumption. now apply Rpower_1.
  - apply np_power_0; lra.
Qed.

Lemma np_power_nonneg (x y : R) : 0 <= x -> 0 <= np_power x y.
Proof.
  intros Hx. unfold np_power.
  destruct (Rlt_dec 0 x).
  - unfold Rpower. left; apply exp_pos.
  - destruct (Req_dec_T x 0); [|lra].
    destruct (Req_dec_T y 0); lra.
Qed.

Lemma np_power_neg_1 (x : R) : x < 0 -> np_power x 1 = x.
Proof.
  intros Hx. unfold np_power.
  destruct (Rlt_dec 0 x); [lra|].
  destruct (Req_dec_T x 0); [lra|].
  assert (E : Int_part 1 = 1%Z) by exact (Int_part_INR 1).
  rewrite E.
  destruct (Req_dec_T 1 1) as [_|Hne]; [|lra].
  simpl. lra.
Qed.

Lemma R_H_sym (H s t : R) : R_H H s t = R_H H t s.
Proof.
  unfold R_H. rewrite (Rabs_minus_sym s t). lra.
Qed.

Lemma R_H_diag (H t : R) : 0 < H -> R_H H t t = np_power (Rabs t) (2 * H).
Proof.
  intros HH. unfold R_H.
  replace (t - t) with 0 by lra.
  rewrite Rabs_R0, np_power_0 by lra. lra.
Qed.

Lemma R_H_half (s t : R) : 0 <= s -> 0 <= t -> R_H (1 / 2) s t = Rmin s t.
Proof.
  intros Hs Ht. unfold R_H.
  replace (2 * (1 / 2)) with 1 by lra.
  rewrite !np_power_1 by apply Rabs_pos.
  rewrite (Rabs_pos_eq s), (Rabs_pos_eq t) by assumption.
  unfold Rmin, Rabs.
  destruct (Rle_dec s t), (Rcase_abs (s - t)); lra.
Qed.

(** ** Claims about [fbm_covariance_grid] *)

(** C1.  On a one-axis grid [t] of length [N] and with [0 < H < 1],
    [fbm_covariance_grid] returns an [N] by [N] matrix whose entry [(i, j)]
    is [0.5 * (|t_i|^{2H} + |t_j|^{2H} - |t_i - t_j|^{2H})]; the matrix is
    symmetric. *)
Theorem fbm_covariance_grid_kernel (t : list R) (H : R) :
  0 < H < 1 ->
  exists C,
    fbm_covariance_grid (array1d t) H = Ok C
    /\ nrows C = length t /\ ncols C = length t
    /\ length (mdata C) = (length t * length t)%nat
    /\ (forall i j, (i < length t)%nat -> (j < length t)%nat ->
          mget C i j
          = 0.5 * (np_power (Rabs (nth i t 0)) (2 * H)
                   + np_power (Rabs (nth j t 0)) (2 * H)
                   - np_power (Rabs (nth i t 0 - nth j t 0)) (2 * H)))
    /\ (forall i j, (i < length t)%nat -> (j < length t)%nat ->
          mget C i j = mget C j i).
Proof.
  intros HH.
  destruct (fbm_covariance_grid_entries t H HH)
    as (C & HC & Hr & Hc & Hlen & Hent).
  exists C. repeat split; auto.
  intros i j Hi Hj. rewrite !Hent by assumption. apply R_H_sym.
Qed.

Lemma fbm_covariance_grid_kernel_witness :
  exists C,
    fbm_covariance_grid (array1d [0; 1; 3]) (1 / 4) = Ok C
    /\ nrows C = 3%nat /\ ncols C = 3%nat.
Proof.
  destruct (fbm_covariance_grid_kernel [0; 1; 3] (1 / 4) ltac:(lra))
    as (C & HC & Hr & Hc & _).
  exists C. auto.
Defined.

(** C6, in exact arithmetic.  With [H = 0.5] and a grid without negative
    entries, every entry of the covariance matrix is [min(t_i, t_j)] when
    the operations are those of the real numbers. *)
Theorem fbm_covariance_grid_brownian (t : list R) :
  (forall x, In x t -> 0 <= x) ->
  exists C,
    fbm_covariance_grid (array1d t) (1 / 2) = Ok C
    /\ forall i j, (i < length t)%nat -> (j < length t)%nat ->
         mget C i j = Rmin (nth i t 0) (nth j t 0).
Proof.
  intros Hpos.
  destruct (fbm_covariance_grid_entries t (1 / 2) ltac:(lra))
    as (C & HC & _ & _ & _ & Hent).
  exists C. split; auto.
  intros i j Hi Hj. rewrite Hent by assumption.
  apply R_H_half; apply Hpos, nth_In; assumption.
Qed.

Lemma fbm_covariance_grid_brownian_witness :
  exists C,
    fbm_covariance_grid (array1d [0; 2; 5]) (1 / 2) = Ok C
    /\ mget C 1 2 = Rmin 2 5.
Proof.
  destruct (fbm_covariance_grid_brownian [0; 2; 5]) as (C & HC & Hent).
  - simpl. intros x [<-|[<-|[<-|[]]]]; lra.
  - exists C. split; auto. apply (Hent 1%nat 2%nat); simpl; lia.
Defined.

(** C6 as the specification words it, an equality of the entries that
    the program returns, fails in binary64: on the grid
    [[0.1, 0.2, 0.3]] (the binary64 values nearest to these) the entry
    [(0, 1)] is [0.10000000000000002], one unit in the last place above
    [min(0.1, 0.2) = 0.1], because [0.1 + 0.2] is rounded up; so is the
    entry [(0, 2)]. *)
Lemma fbm_covariance_grid_brownian_rounded :
  let t := [0x1.999999999999ap-4; 0x1.999999999999ap-3;
            0x1.3333333333333p-2]%float in
  (2 * 0.5 = 1)%float
  /\ brownian_grid_b64 t
     = [[0x1.999999999999ap-4; 0x1.999999999999bp-4; 0x1.999999999999bp-4];
        [0x1.999999999999bp-4; 0x1.999999999999ap-3; 0x1.999999999999ap-3];
        [0x1.999999999999bp-4; 0x1.999999999999ap-3;
         0x1.3333333333333p-2]]%float
  /\ brownian_entry_b64 0x1.999999999999ap-4 0x1.999999999999ap-3
     <> min_b64 0x1.999999999999ap-4 0x1.999999999999ap-3.
Proof.
  cbv zeta. split; [reflexivity|]. split; [vm_compute; reflexivity|].
  intros E.
  apply (f_equal (fun x =>
           PrimFloat.eqb x
             (min_b64 0x1.999999999999ap-4 0x1.999999999999ap-3))) in E.
  vm_compute in E. discriminate E.
Qed.

(** C9 as the specification words it, [C[i][i] = t_i^{2H}], fails on a
    negative grid point: at [t = [-1]] and [H = 0.5] the diagonal entry is
    [|-1|^1 = 1] while [(-1)^1 = -1]. *)
Lemma fbm_covariance_grid_diagonal_signed_fails :
  exists C,
    fbm_covariance_grid (array1d [-1]) (1 / 2) = Ok C
    /\ mget C 0 0 = 1
    /\ np_power (nth 0 [-1] 0) (2 * (1 / 2)) = -1
    /\ mget C 0 0 <> np_power (nth 0 [-1] 0) (2 * (1 / 2)).
Proof.
  destruct (fbm_covariance_grid_entries [-1] (1 / 2) ltac:(lra))
    as (C & HC & _ & _ & _ & Hent).
  exists C. split; auto.
  assert (E1 : mget C 0 0 = 1).
  { rewrite (Hent 0%nat 0%nat) by (simpl; lia). simpl nth.
    rewrite R_H_diag by lra.
    replace (2 * (1 / 2)) with 1 by lra.
    rewrite np_power_1 by apply Rabs_pos.
    rewrite Rabs_left; lra. }
  assert (E2 : np_power (nth 0 [-1] 0) (2 * (1 / 2)) = -1).
  { simpl nth. replace (2 * (1 / 2)) with 1 by lra.
    apply np_power_neg_1; lra. }
  repeat split; auto. rewrite E1, E2. lra.
Qed.

(** C9, amended.  The diagonal entry is [|t_i|^{2H}]; it is [t_i^{2H}]
    wherever [t_i] is not negative. *)
Theorem fbm_covariance_grid_diagonal (t : list R) (H : R) :
  0 < H < 1 ->
  exists C,
    fbm_covariance_grid (array1d t) H = Ok C
    /\ forall i, (i < length t)%nat ->
         mget C i i = np_power (Rabs (nth i t 0)) (2 * H)
         /\ (0 <= nth i t 0 -> mget C i i = np_power (nth i t 0) (2 * H)).
Proof.
  intros HH.
  destruct (fbm_covariance_grid_entries t H HH)
    as (C & HC & _ & _ & _ & Hent).
  exists C. split; auto.
  intros i Hi. rewrite Hent by assumption.
  rewrite R_H_diag by lra. split; auto.
  intros Hpos. now rewrite Rabs_pos_eq.
Qed.

Lemma fbm_covariance_grid_diagonal_witness :
  exists C,
    fbm_covariance_grid (array1d [-1; 2]) (1 / 4) = Ok C
    /\ mget C 0 0 = np_power (Rabs (-1)) (2 * (1 / 4)).
Proof.
  destruct (fbm_covariance_grid_diagonal [-1; 2] (1 / 4) ltac:(lra))
    as (C & HC & Hd).
  exists C. split; auto. apply (Hd 0%nat). simpl; lia.
Defined.

(** C10.  On the empty grid [fbm_covariance_grid] returns the matrix with
    no row and no column, and on every array with one axis it returns a
    matrix: with [H] in the open unit interval no [raise] is reached. *)
Theorem fbm_covariance_grid_empty (H : R) :
  0 < H < 1 ->
  fbm_covariance_grid (array1d []) H
  = Ok {| nrows := 0; ncols := 0; mdata := [] |}
  /\ forall t, ndim t = 1%nat ->
       returns (fbm_covariance_grid t H)
       /\ ~ raises (fbm_covariance_grid t H).
Proof.
  intros HH. split.
  - unfold fbm_covariance_grid.
    change (ndim (array1d [])) with 1%nat. simpl negb at 1. cbv iota.
    apply in_unit_interval_true in HH as ->. reflexivity.
  - intros t Hd. split.
    + now apply fbm_covariance_grid_returns.
    + rewrite fbm_covariance_grid_raises. tauto.
Qed.

Lemma fbm_covariance_grid_empty_witness :
  fbm_covariance_grid (array1d []) (1 / 2)
  = Ok {| nrows := 0; ncols := 0; mdata := [] |}.
Proof.
  apply (fbm_covariance_grid_empty (1 / 2)). lra.
Defined.

(** ** The grid *)

Lemma linspace_unfold (T : R) (n : nat) :
  (1 <= n)%nat ->
  linspace 0 T (S n) = map (fun i => INR i * T / INR n) (seq 0 n) ++ [T].
Proof.
  intros Hn. unfold linspace.
  replace (S n - 1)%nat with n by lia.
  destruct (Nat.ltb_spec 0 n) as [_|]; [|lia].
  destruct (Nat.ltb_spec 1 (S n)) as [_|]; [|lia].
  assert (Hn0 : INR n <> 0) by (apply not_0_INR; lia).
  rewrite seq_S. cbn [Nat.add].
  destruct (Req_dec_T ((T - 0) / INR n) 0);
    rewrite !map_app; cbn [map]; rewrite removelast_last;
    rewrite !map_map; f_equal; apply map_ext; intros i; field; assumption.
Qed.

Lemma linspace_length (T : R) (n : nat) :
  (1 <= n)%nat -> length (linspace 0 T (S n)) = S n.
Proof.
  intros Hn. rewrite linspace_unfold by assumption.
  rewrite length_app, length_map, length_seq. simpl. lia.
Qed.

Lemma linspace_nth (T : R) (n i : nat) :
  (1 <= n)%nat -> (i <= n)%nat ->
  nth i (linspace 0 T (S n)) 0 = INR i * T / INR n.
Proof.
  intros Hn Hi. rewrite linspace_unfold by assumption.
  assert (Hn0 : INR n <> 0) by (apply not_0_INR; lia).
  destruct (Nat.eq_dec i n) as [->|Hne].
  - rewrite app_nth2 by (rewrite length_map, length_seq; lia).
    rewrite length_map, length_seq, Nat.sub_diag. simpl. field. assumption.
  - rewrite app_nth1 by (rewrite length_map, length_seq; lia).
    rewrite nth_tabulate_row by lia. reflexivity.
Qed.

(** ** One-axis operations *)

Lemma slice_to_firstn {A : Type} (k : Z) (a : list A) :
  (0 <= k)%Z -> slice_to k a = firstn (Z.to_nat k) a.
Proof.
  intros Hk. unfold slice_to.
  destruct (Z.ltb_spec k 0); [lia|reflexivity].
Qed.

Lemma take_ok (a : list R) (idx : list nat) :
  (forall j, In j idx -> (j < length a)%nat) ->
  take a idx = Ok (map (fun j => nth j a 0) idx).
Proof.
  intros Hin. unfold take.
  replace (forallb _ idx) with true; auto.
  symmetry. apply forallb_forall. intros j Hj.
  apply Nat.ltb_lt. auto.
Qed.

Lemma take_cols_ok (V : matrix) (idx : list nat) :
  (forall j, In j idx -> (j < ncols V)%nat) ->
  take_cols V idx
  = Ok (tabulate (nrows V) (length idx)
          (fun i k => mget V i (nth k idx 0%nat))).
Proof.
  intros Hin. unfold take_cols.
  replace (forallb _ idx) with true; auto.
  symmetry. apply forallb_forall. intros j Hj.
  apply Nat.ltb_lt. auto.
Qed.

Lemma vec_mul_ok (a b : list R) :
  length a = length b ->
  vec_mul a b = Ok (map (fun i => nth i a 0 * nth i b 0) (seq 0 (length a))).
Proof.
  intros Hlen. unfold vec_mul. rewrite <- Hlen, bdim_same.
  f_equal. apply map_ext_in. intros i Hi. apply in_seq in Hi.
  destruct (Nat.eqb_spec (length a) 1) as [E|]; auto.
  replace i with 0%nat by lia. reflexivity.
Qed.

Lemma matvec_ok (V : matrix) (x : list R) :
  ncols V = length x ->
  matvec V x
  = Ok (map (fun i =>
               Rsum (map (fun k => mget V i k * nth k x 0)
                         (seq 0 (ncols V))))
            (seq 0 (nrows V))).
Proof.
  intros Hlen. unfold matvec. now rewrite Hlen, Nat.eqb_refl.
Qed.

Lemma cols_to_shape (k : Z) (V : matrix) :
  (0 <= k)%Z -> (Z.to_nat k <= ncols V)%nat ->
  nrows (cols_to k V) = nrows V /\ ncols (cols_to k V) = Z.to_nat k.
Proof.
  intros Hk Hle. unfold cols_to. cbn [nrows ncols tabulate].
  rewrite slice_to_firstn by assumption.
  rewrite length_firstn, length_seq. split; lia.
Qed.

Lemma mget_cols_to (k : Z) (V : matrix) (i j : nat) :
  (0 <= k)%Z -> (Z.to_nat k <= ncols V)%nat ->
  (i < nrows V)%nat -> (j < Z.to_nat k)%nat ->
  mget (cols_to k V) i j = mget V i j.
Proof.
  intros Hk Hle Hi Hj. unfold cols_to.
  rewrite mget_tabulate; auto.
  rewrite slice_to_firstn by assumption.
  rewrite length_firstn, length_seq. lia.
Qed.

(** ** The sampler *)

Section SamplerFacts.

Context {np : Numpy}.

(** What is assumed of [np.linalg.eigh]: on an [n] by [n] matrix it
    returns [n] eigenvalues and an [n] by [n] matrix. *)
Hypothesis eigh_shape :
  forall C, nrows C = ncols C ->
    length (fst (eigh C)) = nrows C
    /\ nrows (snd (eigh C)) = nrows C
    /\ ncols (snd (eigh C)) = nrows C.

(** What is assumed of [np.argsort]: the indices of the array, each
    once, in an order that makes the entries ascend. *)
Hypothesis argsort_perm :
  forall w, Permutation (argsort w) (seq 0 (length w)).
Hypothesis argsort_sorted :
  forall w, StronglySorted Rle (map (fun j => nth j w 0) (argsort w)).

(** *** The generator *)

Lemma draws_spec (n : nat) (g : bitgen) :
  draws n g = (map (draw_at g) (seq 0 n), advance n g).
Proof.
  revert g. induction n as [|n IH]; intros g; [reflexivity|].
  cbn [draws]. destruct (standard_normal g) as [x g1] eqn:E.
  rewrite IH. cbn [seq map advance].
  rewrite E. cbn [snd]. f_equal. f_equal.
  - unfold draw_at. cbn [advance]. now rewrite E.
  - rewrite <- seq_shift, map_map. apply map_ext. intros i.
    unfold draw_at. cbn [advance]. now rewrite E.
Qed.

Lemma normal_ok (g : bitgen) (k : Z) :
  (0 <= k)%Z ->
  normal g k
  = Ok (map (draw_at g) (seq 0 (Z.to_nat k)), advance (Z.to_nat k) g).
Proof.
  intros Hk. unfold normal.
  destruct (Z.ltb_spec k 0); [lia|]. now rewrite draws_spec.
Qed.

(** *** Sorting the eigenpairs *)

Lemma rev_argsort_in_range (w : list R) (j : nat) :
  In j (rev (argsort w)) -> (j < length w)%nat.
Proof.
  intros Hj. apply in_rev in Hj.
  apply (Permutation_in _ (argsort_perm w)) in Hj.
  apply in_seq in Hj. lia.
Qed.

Lemma sorted_eigh_ok (C : matrix) :
  nrows C = ncols C ->
  sorted_eigh C
  = Ok (clip_lo (map (fun j => nth j (fst (eigh C)) 0)
                     (rev (argsort (fst (eigh C))))) 0,
        tabulate (nrows C) (nrows C)
          (fun i k => mget (snd (eigh C)) i
                        (nth k (rev (argsort (fst (eigh C)))) 0%nat))).
Proof.
  intros Hsq. unfold sorted_eigh.
  destruct (eigh_shape C Hsq) as (Hw & Hr & Hc).
  destruct (eigh C) as [w0 V0]. cbn [fst snd] in *.
  rewrite take_ok by apply rev_argsort_in_range. cbn [bind].
  rewrite take_cols_ok
    by (intros j Hj; rewrite Hc, <- Hw; now apply rev_argsort_in_range).
  cbn [bind]. rewrite Hr, length_rev.
  rewrite (Permutation_length (argsort_perm w0)), length_seq, Hw.
  reflexivity.
Qed.

(** *** The generator that a call draws from *)

Lemma init_rng_cases (random_state : random_state_t) (os_entropy : N) :
  (exists rng, init_rng random_state os_entropy = Ok rng)
  \/ (exists s, random_state = RandomSeed s /\ (s < 0)%Z
                /\ init_rng random_state os_entropy
                   = Raise (ValueError "expected non-negative integer")).
Proof.
  destruct random_state as [|s|g]; cbn [init_rng default_rng].
  - left. eexists. reflexivity.
  - destruct (Z.ltb_spec s 0).
    + right. exists s. auto.
    + left. eexists. reflexivity.
  - left. eexists. reflexivity.
Qed.

(** The only [random_state] that numpy refuses is a negative integer. *)
Lemma init_rng_returns (random_state : random_state_t) (os_entropy : N) :
  returns (init_rng random_state os_entropy)
  <-> ~ (exists s, random_state = RandomSeed s /\ (s < 0)%Z).
Proof.
  split.
  - intros [rng Hrng] (s & -> & Hs). cbn [init_rng default_rng] in Hrng.
    destruct (Z.ltb_spec s 0); [discriminate|lia].
  - intros Hno.
    destruct (init_rng_cases random_state os_entropy)
      as [[rng Hrng]|(s & Hs & Hneg & _)].
    + now exists rng.
    + exfalso. apply Hno. now exists s.
Qed.

(** *** One run

    On valid arguments, a grid size and a [random_state] that numpy
    accepts, every step goes through; the result is written out in terms
    of the sorted eigenpairs and the draws. *)

Lemma fbm_kl_truncated_run (H T : R) (K n_steps : Z)
    (random_state : random_state_t) (os_entropy : N) (rng : bitgen) :
  0 < H < 1 -> (1 <= n_steps)%Z -> 0 < T -> (1 <= K <= n_steps + 1)%Z ->
  (n_steps + 1 <= max_size)%Z ->
  init_rng random_state os_entropy = Ok rng ->
  let t := linspace 0 T (Z.to_nat (n_steps + 1)) in
  exists C w V,
    fbm_covariance_grid (array1d t) H = Ok C
    /\ nrows C = length t /\ ncols C = length t
    /\ sorted_eigh C = Ok (w, V)
    /\ length w = length t /\ nrows V = length t /\ ncols V = length t
    /\ fbm_kl_truncated H T K n_steps random_state os_entropy
       = Ok {| out_t := t;
               out_path :=
                 map (fun i =>
                        Rsum (map (fun k =>
                                     mget V i k
                                     * (sqrt (nth k w 0) * draw_at rng k))
                                  (seq 0 (Z.to_nat K))))
                     (seq 0 (length t));
               out_rng := advance (Z.to_nat K) rng |}.
Proof.
  intros HH Hn HT HK Hsize Hrng t.
  destruct (fbm_covariance_grid_entries t H HH)
    as (C & HC & Hr & Hc & _ & _).
  assert (Hsq : nrows C = ncols C) by congruence.
  pose proof (sorted_eigh_ok C Hsq) as Hs.
  set (w := clip_lo _ 0) in Hs. set (V := tabulate _ _ _) in Hs.
  assert (Hlt : length t = Z.to_nat (n_steps + 1)).
  { unfold t. replace (Z.to_nat (n_steps + 1)) with (S (Z.to_nat n_steps))
      by lia. apply linspace_length. lia. }
  assert (Hw : length w = length t).
  { unfold w, clip_lo. rewrite !length_map, length_rev.
    rewrite (Permutation_length (argsort_perm _)), length_seq.
    destruct (eigh_shape C Hsq) as (-> & _). assumption. }
  exists C, w, V. repeat split; auto.
  unfold fbm_kl_truncated.
  apply in_unit_interval_true in HH as ->. simpl negb. cbv iota.
  destruct (Z.ltb_spec n_steps 1); [lia|].
  unfold Rleb. destruct (Rle_dec T 0); [lra|].
  cbv zeta.
  destruct (Z.leb_spec 1 K); [|lia].
  destruct (Z.leb_spec K (n_steps + 1)); [|lia].
  simpl negb. cbv iota.
  unfold np_linspace. destruct (Z.ltb_spec max_size (n_steps + 1)); [lia|].
  cbn [bind]. fold t. rewrite HC. cbn [bind]. rewrite Hs. cbn [bind].
  rewrite Hrng. cbn [bind].
  rewrite normal_ok by lia. cbn [bind].
  rewrite slice_to_firstn by lia.
  assert (HKw : (Z.to_nat K <= length w)%nat) by (rewrite Hw, Hlt; lia).
  rewrite vec_mul_ok
    by (rewrite !length_map, length_firstn, length_seq; lia).
  cbn [bind].
  rewrite length_map, length_firstn, Nat.min_l by assumption.
  assert (HKV : (Z.to_nat K <= ncols V)%nat)
    by (unfold V; cbn [ncols tabulate]; rewrite Hr, Hlt; lia).
  destruct (cols_to_shape K V ltac:(lia) HKV) as (Hcr & Hcc).
  rewrite matvec_ok by (rewrite length_map, length_seq; assumption).
  cbn [bind]. rewrite Hcr, Hcc.
  assert (HVr : nrows V = length t) by exact Hr.
  rewrite HVr.
  f_equal. f_equal.
  apply map_ext_in. intros i Hi. apply in_seq in Hi.
  f_equal. apply map_ext_in. intros k Hk. apply in_seq in Hk.
  rewrite mget_cols_to by (try lia; assumption).
  f_equal.
  rewrite nth_tabulate_row by lia.
  rewrite nth_map_R by (rewrite length_firstn; lia).
  rewrite nth_firstn.
  destruct (Nat.ltb_spec k (Z.to_nat K)); [|lia].
  f_equal.
  rewrite (nth_indep _ 0 (draw_at rng 0%nat))
    by (rewrite length_map, length_seq; lia).
  rewrite map_nth, seq_nth by lia. reflexivity.
Qed.

(** *** Which arguments are rejected *)




(** Whatever the collaborators do, a call that returns has passed the
    four checks, asked for a grid that numpy builds and for a generator
    that numpy gives, and returns the grid of [np.linspace]. *)
Lemma fbm_kl_truncated_out_t (H T : R) (K n_steps : Z)
    (random_state : random_state_t) (os_entropy : N) (o : outcome) :
  fbm_kl_truncated H T K n_steps random_state os_entropy = Ok o ->
  0 < H < 1 /\ (1 <= n_steps)%Z /\ 0 < T /\ (1 <= K <= n_steps + 1)%Z
  /\ (n_steps + 1 <= max_size)%Z
  /\ (exists rng, init_rng random_state os_entropy = Ok rng)
  /\ out_t o = linspace 0 T (Z.to_nat (n_steps + 1)).
Proof.
  clear eigh_shape argsort_perm argsort_sorted.
  unfold fbm_kl_truncated.
  destruct (in_unit_interval H) eqn:EH; cbn [negb]; [|discriminate].
  apply in_unit_interval_true in EH.
  destruct (Z.ltb_spec n_steps 1); [discriminate|].
  unfold Rleb. destruct (Rle_dec T 0); [discriminate|].
  cbv zeta.
  destruct (Z.leb_spec 1 K); cbn [andb negb]; [|discriminate].
  destruct (Z.leb_spec K (n_steps + 1)); cbn [andb negb]; [|discriminate].
  unfold np_linspace. destruct (Z.ltb_spec max_size (n_steps + 1));
    [discriminate|].
  cbn [bind].
  destruct (fbm_covariance_grid _ H) as [C|]; [|discriminate].
  cbn [bind]. destruct (sorted_eigh C) as [[w V]|]; [|discriminate].
  cbn [bind].
  destruct (init_rng random_state os_entropy) as [rng|]; [|discriminate].
  cbn [bind]. destruct (normal rng K) as [[z g]|]; [|discriminate].
  cbn [bind]. destruct (vec_mul _ z) as [coeffs|]; [|discriminate].
  cbn [bind]. destruct (matvec _ coeffs) as [path|]; [|discriminate].
  cbn [bind]. intros E. injection E as <-. cbn [out_t].
  repeat split; try lia; try lra. now exists rng.
Qed.


(** *** Claims about one call *)

(** C5.  With [T > 0] and [n_steps >= 1], whenever the call returns, the
    grid has [n_steps + 1] points [t_i = i * T / n_steps], from 0 to [T],
    and the path has as many entries; and the call does return once [H]
    and [K] are valid too and numpy accepts the size of the grid and the
    seed. *)
Theorem fbm_kl_truncated_grid (H T : R) (K n_steps : Z)
    (random_state : random_state_t) (os_entropy : N) :
  0 < T -> (1 <= n_steps)%Z ->
  (forall o,
     fbm_kl_truncated H T K n_steps random_state os_entropy = Ok o ->
     length (out_t o) = Z.to_nat (n_steps + 1)
     /\ (forall i, (0 <= i <= n_steps)%Z ->
           nth (Z.to_nat i) (out_t o) 0 = IZR i * T / IZR n_steps)
     /\ nth 0 (out_t o) 0 = 0
     /\ nth (Z.to_nat n_steps) (out_t o) 0 = T
     /\ length (out_path o) = length (out_t o))
  /\ (0 < H < 1 -> (1 <= K <= n_steps + 1)%Z ->
      (n_steps + 1 <= max_size)%Z ->
      returns (init_rng random_state os_entropy) ->
      returns (fbm_kl_truncated H T K n_steps random_state os_entropy)).
Proof.
  intros HT Hn. split.
  - intros o Ho.
    destruct (fbm_kl_truncated_out_t H T K n_steps random_state os_entropy
                o Ho) as (HH & _ & _ & HK & Hsize & (rng & Hrng) & _).
    destruct (fbm_kl_truncated_run H T K n_steps random_state os_entropy
                rng HH Hn HT HK Hsize Hrng)
      as (C & w & V & _ & _ & _ & _ & _ & _ & _ & Hrun).
    rewrite Hrun in Ho. injection Ho as <-. cbn [out_t out_path].
    replace (Z.to_nat (n_steps + 1)) with (S (Z.to_nat n_steps)) by lia.
    assert (Hn' : (1 <= Z.to_nat n_steps)%nat) by lia.
    assert (Hgrid : forall i, (0 <= i <= n_steps)%Z ->
              nth (Z.to_nat i) (linspace 0 T (S (Z.to_nat n_steps))) 0
              = IZR i * T / IZR n_steps).
    { intros i Hi. rewrite linspace_nth by lia.
      rewrite !INR_IZR_INZ, !Z2Nat.id by lia. reflexivity. }
    repeat split.
    + now apply linspace_length.
    + exact Hgrid.
    + pose proof (Hgrid 0%Z ltac:(lia)) as E. cbn [Z.to_nat] in E.
      rewrite E. unfold Rdiv. now rewrite !Rmult_0_l.
    + rewrite (Hgrid n_steps) by lia. field.
      apply not_0_IZR. lia.
    + now rewrite length_map, length_seq.
  - intros HH HK Hsize [rng Hrng].
    destruct (fbm_kl_truncated_run H T K n_steps random_state os_entropy
                rng HH Hn HT HK Hsize Hrng)
      as (C & w & V & _ & _ & _ & _ & _ & _ & _ & Hrun).
    eexists. exact Hrun.
Qed.


End SamplerFacts.

(** ** The concrete collaborators meet the contracts *)

Lemma eigh_diagonal_shape (C : matrix) :
  nrows C = ncols C ->
  length (fst (eigh_diagonal C)) = nrows C
  /\ nrows (snd (eigh_diagonal C)) = nrows C
  /\ ncols (snd (eigh_diagonal C)) = nrows C.
Proof.
  intros _. unfold eigh_diagonal. cbn [fst snd nrows ncols tabulate].
  now rewrite length_map, length_seq.
Qed.

Lemma insert_by_perm (w : list R) (i : nat) (l : list nat) :
  Permutation (insert_by w i l) (i :: l).
Proof.
  induction l as [|j l IH]; cbn [insert_by]; auto.
  destruct (Rle_dec (nth i w 0) (nth j w 0)); auto.
  rewrite IH. apply perm_swap.
Qed.

Lemma insertion_argsort_perm (w : list R) :
  Permutation (insertion_argsort w) (seq 0 (length w)).
Proof.
  unfold insertion_argsort.
  induction (seq 0 (length w)) as [|i l IH]; cbn [fold_right]; auto.
  rewrite insert_by_perm. now constructor.
Qed.

Lemma insert_by_sorted (w : list R) (i : nat) (l : list nat) :
  StronglySorted Rle (map (fun j => nth j w 0) l) ->
  StronglySorted Rle (map (fun j => nth j w 0) (insert_by w i l)).
Proof.
  induction l as [|j l IH]; cbn [insert_by map]; intros Hs.
  - repeat constructor.
  - inversion Hs as [|x xs Hs' Hall]; subst.
    destruct (Rle_dec (nth i w 0) (nth j w 0)) as [Hle|Hgt]; cbn [map].
    + constructor; [assumption|].
      constructor; [assumption|].
      eapply Forall_impl; [|exact Hall]. intros a Ha. cbv beta in *. lra.
    + constructor; [now apply IH|].
      rewrite Forall_forall. intros a Ha.
      apply in_map_iff in Ha as (k & <- & Hk).
      apply (Permutation_in _ (insert_by_perm w i l)) in Hk.
      destruct Hk as [<-|Hk]; [lra|].
      rewrite Forall_forall in Hall. apply Hall.
      apply in_map_iff. now exists k.
Qed.

Lemma insertion_argsort_sorted (w : list R) :
  StronglySorted Rle (map (fun j => nth j w 0) (insertion_argsort w)).
Proof.
  unfold insertion_argsort.
  induction (seq 0 (length w)) as [|i l IH]; cbn [fold_right map].
  - constructor.
  - now apply insert_by_sorted.
Qed.

(** ** Two runs

    Two calls are two runs of the program, each in an environment of its
    own: the instance of [Numpy] that a run uses stands for what numpy
    does during that run.  From one run to the next numpy promises that
    [eigh] and [argsort] are functions of their argument alone, that the
    size limit is that of the platform, and that generators seeded with
    the same integer give the same draws.  Nothing is promised of the
    entropy of the operating system, nor of the state in which a
    generator is kept. *)

Section TwoRuns.

Variables np1 np2 : Numpy.

Hypothesis same_eigh : forall C, @eigh np1 C = @eigh np2 C.
Hypothesis same_argsort : forall w, @argsort np1 w = @argsort np2 w.
Hypothesis same_max_size : @max_size np1 = @max_size np2.
Hypothesis same_stream :
  forall seed n,
    fst (@draws np1 n (@seed_rng np1 seed))
    = fst (@draws np2 n (@seed_rng np2 seed)).

Lemma sorted_eigh_same (C : matrix) :
  @sorted_eigh np1 C = @sorted_eigh np2 C.
Proof.
  unfold sorted_eigh. rewrite same_eigh.
  destruct (@eigh np2 C) as [w V]. now rewrite same_argsort.
Qed.

Lemma normal_same (seed : N) (k : Z) :
  match @normal np1 (@seed_rng np1 seed) k,
        @normal np2 (@seed_rng np2 seed) k with
  | Ok (z1, _), Ok (z2, _) => z1 = z2
  | Raise e1, Raise e2 => e1 = e2
  | _, _ => False
  end.
Proof.
  unfold normal. destruct (k <? 0)%Z; [reflexivity|].
  pose proof (same_stream seed (Z.to_nat k)) as E.
  destruct (@draws np1 _ _) as [z1 g1]. destruct (@draws np2 _ _) as [z2 g2].
  exact E.
Qed.

(** C8.  Two calls with the same arguments and the same integer seed,
    made in two runs, give the same result: the same grid and the same
    path when they return, the same exception when they raise, whatever
    entropy the operating system offers to each of them. *)
Theorem fbm_kl_truncated_seeded (H T : R) (K n_steps seed : Z)
    (entropy1 entropy2 : N) :
  returned (@fbm_kl_truncated np1 H T K n_steps (RandomSeed seed) entropy1)
  = returned (@fbm_kl_truncated np2 H T K n_steps (RandomSeed seed) entropy2)
  /\ forall o1 o2,
       @fbm_kl_truncated np1 H T K n_steps (RandomSeed seed) entropy1
       = Ok o1 ->
       @fbm_kl_truncated np2 H T K n_steps (RandomSeed seed) entropy2
       = Ok o2 ->
       out_t o1 = out_t o2 /\ out_path o1 = out_path o2.
Proof.
  assert (Hsame :
    returned (@fbm_kl_truncated np1 H T K n_steps (RandomSeed seed) entropy1)
    = returned (@fbm_kl_truncated np2 H T K n_steps (RandomSeed seed)
                  entropy2)).
  { unfold fbm_kl_truncated.
    destruct (negb (in_unit_interval H)); [reflexivity|].
    destruct (n_steps <? 1)%Z; [reflexivity|].
    destruct (Rleb T 0); [reflexivity|].
    cbv zeta.
    destruct (negb _); [reflexivity|].
    unfold np_linspace. rewrite same_max_size.
    destruct (@max_size np2 <? n_steps + 1)%Z; [reflexivity|].
    cbn [bind].
    destruct (fbm_covariance_grid _ H) as [C|e]; [|reflexivity].
    cbn [bind]. rewrite sorted_eigh_same.
    destruct (@sorted_eigh np2 C) as [[w V]|e]; [|reflexivity].
    cbn [bind init_rng default_rng].
    destruct (seed <? 0)%Z; [reflexivity|].
    cbn [bind].
    pose proof (normal_same (Z.to_N seed) K) as Hz.
    destruct (@normal np1 _ K) as [[z1 g1]|e1];
      destruct (@normal np2 _ K) as [[z2 g2]|e2];
      try contradiction; cbn [bind]; [|now subst].
    subst z2.
    destruct (vec_mul _ z1) as [coeffs|e]; [|reflexivity].
    cbn [bind].
    destruct (matvec _ coeffs) as [path|e]; reflexivity. }
  split; [exact Hsame|].
  intros o1 o2 H1 H2. rewrite H1, H2 in Hsame.
  cbn [returned bind] in Hsame. injection Hsame as Ht Hp. now split.
Qed.

End TwoRuns.

(** ** The claims on concrete arguments *)

Lemma fbm_kl_truncated_grid_witness :
  returns (@fbm_kl_truncated simple_numpy (7 / 10) 1 20 200 RandomNone 0)
  /\ forall o,
       @fbm_kl_truncated simple_numpy (7 / 10) 1 20 200 RandomNone 0 = Ok o ->
       length (out_t o) = 201%nat
       /\ nth 0 (out_t o) 0 = 0
       /\ nth 200 (out_t o) 0 = 1
       /\ length (out_path o) = 201%nat.
Proof.
  destruct (@fbm_kl_truncated_grid simple_numpy eigh_diagonal_shape
              insertion_argsort_perm (7 / 10) 1 20 200 RandomNone 0%N)
    as (Hshape & Hret); try lra; try lia.
  split.
  - apply Hret; [lra|lia|cbn; lia|eexists; reflexivity].
  - intros o Ho. destruct (Hshape o Ho) as (Hlen & _ & H0 & HT & Hp).
    change (Z.to_nat (200 + 1)) with 201%nat in Hlen.
    change (Z.to_nat 200) with 200%nat in HT.
    repeat split; auto. now rewrite Hp.
Defined.

(** The two counting generators give the same draws from the same
    seed. *)
Lemma draws_counter_binary (n : nat) (g : N) :
  fst (@draws simple_numpy n (N.to_nat g)) = fst (@draws binary_numpy n g).
Proof.
  revert g. induction n as [|n IH]; intros g; [reflexivity|].
  cbn [draws standard_normal simple_numpy binary_numpy counter_normal
       binary_normal].
  rewrite <- N2Nat.inj_succ. specialize (IH (N.succ g)).
  destruct (@draws simple_numpy n (N.to_nat (N.succ g))) as [xs1 g1].
  destruct (@draws binary_numpy n (N.succ g)) as [xs2 g2].
  cbn [fst] in *. now rewrite IH.
Qed.

Lemma fbm_kl_truncated_seeded_witness :
  returned (@fbm_kl_truncated simple_numpy (7 / 10) 1 10 50 (RandomSeed 42) 0)
  = returned (@fbm_kl_truncated binary_numpy (7 / 10) 1 10 50 (RandomSeed 42)
                1).
Proof.
  apply (fbm_kl_truncated_seeded simple_numpy binary_numpy);
    try reflexivity.
  intros seed n. apply draws_counter_binary.
Defined.



(** Without a seed the outcome does depend on the entropy: the draws of
    the counting generator start where the entropy says. *)
Lemma unseeded_runs_differ :
  @fbm_kl_truncated simple_numpy (1 / 2) 1 1 1 RandomNone 0
  <> @fbm_kl_truncated simple_numpy (1 / 2) 1 1 1 RandomNone 1.
Proof.
  destruct (@fbm_kl_truncated_run simple_numpy eigh_diagonal_shape
              insertion_argsort_perm (1 / 2) 1 1 1 RandomNone 0%N
              (counter_seed 0))
    as (C0 & w0 & V0 & _ & _ & _ & _ & _ & _ & _ & Hrun0);
    try lra; try lia; try reflexivity; [cbn; lia|].
  destruct (@fbm_kl_truncated_run simple_numpy eigh_diagonal_shape
              insertion_argsort_perm (1 / 2) 1 1 1 RandomNone 1%N
              (counter_seed 1))
    as (C1 & w1 & V1 & _ & _ & _ & _ & _ & _ & _ & Hrun1);
    try lra; try lia; try reflexivity; [cbn; lia|].
  rewrite Hrun0, Hrun1. intros E. injection E as _ Hrng.
  discriminate Hrng.
Qed.

(** ** Finite sums *)

Lemma Rsum_app (l1 l2 : list R) : Rsum (l1 ++ l2) = Rsum l1 + Rsum l2.
Proof.
  induction l1 as [|x l1 IH]; simpl; [lra|]. rewrite IH. lra.
Qed.

Lemma big_sum_0 (f : nat -> R) : big_sum 0 f = 0.
Proof. reflexivity. Qed.

Lemma big_sum_S (n : nat) (f : nat -> R) :
  big_sum (S n) f = big_sum n f + f n.
Proof.
  unfold big_sum. rewrite seq_S, map_app, Rsum_app. simpl. lra.
Qed.

Lemma big_sum_ext (n : nat) (f g : nat -> R) :
  (forall i, (i < n)%nat -> f i = g i) -> big_sum n f = big_sum n g.
Proof.
  induction n as [|n IH]; intros Hfg; [reflexivity|].
  rewrite !big_sum_S, IH, Hfg; auto.
Qed.

Lemma big_sum_le (n : nat) (f g : nat -> R) :
  (forall i, (i < n)%nat -> f i <= g i) -> big_sum n f <= big_sum n g.
Proof.
  induction n as [|n IH]; intros Hfg; [rewrite !big_sum_0; lra|].
  rewrite !big_sum_S.
  assert (f n <= g n) by auto.
  assert (big_sum n f <= big_sum n g) by auto. lra.
Qed.

Lemma big_sum_nonneg (n : nat) (f : nat -> R) :
  (forall i, (i < n)%nat -> 0 <= f i) -> 0 <= big_sum n f.
Proof.
  induction n as [|n IH]; intros Hf; [rewrite big_sum_0; lra|].
  rewrite big_sum_S.
  assert (0 <= f n) by auto. assert (0 <= big_sum n f) by auto. lra.
Qed.

Lemma big_sum_zero (n : nat) (f : nat -> R) :
  (forall i, (i < n)%nat -> f i = 0) -> big_sum n f = 0.
Proof.
  induction n as [|n IH]; intros Hf; [reflexivity|].
  rewrite big_sum_S, IH, Hf; auto. lra.
Qed.

Lemma big_sum_plus (n : nat) (f g : nat -> R) :
  big_sum n (fun i => f i + g i) = big_sum n f + big_sum n g.
Proof.
  induction n as [|n IH]; [rewrite !big_sum_0; lra|].
  rewrite !big_sum_S, IH. lra.
Qed.

Lemma big_sum_minus (n : nat) (f g : nat -> R) :
  big_sum n (fun i => f i - g i) = big_sum n f - big_sum n g.
Proof.
  induction n as [|n IH]; [rewrite !big_sum_0; lra|].
  rewrite !big_sum_S, IH. lra.
Qed.

Lemma big_sum_scal_l (n : nat) (a : R) (f : nat -> R) :
  big_sum n (fun i => a * f i) = a * big_sum n f.
Proof.
  induction n as [|n IH]; [rewrite !big_sum_0; lra|].
  rewrite !big_sum_S, IH. lra.
Qed.

Lemma big_sum_scal_r (n : nat) (a : R) (f : nat -> R) :
  big_sum n (fun i => f i * a) = big_sum n f * a.
Proof.
  induction n as [|n IH]; [rewrite !big_sum_0; lra|].
  rewrite !big_sum_S, IH. lra.
Qed.

Lemma big_sum_swap (n m : nat) (f : nat -> nat -> R) :
  big_sum n (fun i => big_sum m (fun j => f i j))
  = big_sum m (fun j => big_sum n (fun i => f i j)).
Proof.
  induction n as [|n IH].
  - rewrite big_sum_0. symmetry. now apply big_sum_zero.
  - rewrite big_sum_S, IH, <- big_sum_plus.
    apply big_sum_ext. intros j _. now rewrite big_sum_S.
Qed.

(** The square of a sum as a double sum. *)
Lemma big_sum_square (n : nat) (a : nat -> R) :
  big_sum n (fun i => big_sum n (fun j => a i * a j))
  = big_sum n a * big_sum n a.
Proof.
  rewrite <- big_sum_scal_r. apply big_sum_ext. intros i _.
  now rewrite big_sum_scal_l.
Qed.

Lemma big_sum_abs (n : nat) (f : nat -> R) :
  Rabs (big_sum n f) <= big_sum n (fun i => Rabs (f i)).
Proof.
  induction n as [|n IH]; [rewrite !big_sum_0, Rabs_R0; lra|].
  rewrite !big_sum_S.
  eapply Rle_trans; [apply Rabs_triang|]. lra.
Qed.

(** A single entry picked out of a sum. *)
Lemma big_sum_delta (n k : nat) (f : nat -> R) :
  (k < n)%nat ->
  big_sum n (fun i => if (i =? k)%nat then f i else 0) = f k.
Proof.
  induction n as [|n IH]; intros Hk; [lia|].
  rewrite big_sum_S.
  destruct (Nat.eqb_spec n k) as [->|Hne].
  - rewrite big_sum_zero; [lra|].
    intros i Hi. destruct (Nat.eqb_spec i k); [lia|reflexivity].
  - rewrite IH by lia. lra.
Qed.

(** Stdlib's partial sums are sums over one index more. *)
Lemma sum_f_R0_big_sum (f : nat -> R) (n : nat) :
  sum_f_R0 f n = big_sum (S n) f.
Proof.
  induction n as [|n IH]; simpl.
  - unfold big_sum; simpl; lra.
  - rewrite IH, (big_sum_S (S n)). reflexivity.
Qed.

(** A property that holds eventually for each of finitely many indices
    holds eventually for all of them at once. *)
Lemma eventually_all (n : nat) (P : nat -> nat -> Prop) :
  (forall i, (i < n)%nat -> exists M, forall m, (M <= m)%nat -> P i m) ->
  exists M, forall m, (M <= m)%nat -> forall i, (i < n)%nat -> P i m.
Proof.
  induction n as [|n IH]; intros HP.
  - exists 0%nat. intros m _ i Hi. lia.
  - destruct IH as [M1 HM1]; [intros i Hi; apply HP; lia|].
    destruct (HP n ltac:(lia)) as [M2 HM2].
    exists (Nat.max M1 M2). intros m Hm i Hi.
    destruct (Nat.eq_dec i n) as [->|Hne].
    + apply HM2. lia.
    + apply HM1; lia.
Qed.

(** ** Quadratic forms and the Gaussian kernel *)

(** If [a <= b + eps * D] for every positive [eps], then [a <= b]. *)
Lemma le_by_eps (a b D : R) :
  0 <= D -> (forall eps, 0 < eps -> a <= b + eps * D) -> a <= b.
Proof.
  intros HD Heps. destruct (Rle_dec a b) as [|Hn]; [assumption|exfalso].
  assert (Hpos : 0 < a - b) by lra.
  assert (HD1 : 0 < D + 1) by lra.
  specialize (Heps ((a - b) / (2 * (D + 1)))).
  assert (He : 0 < (a - b) / (2 * (D + 1))).
  { apply Rdiv_lt_0_compat; lra. }
  specialize (Heps He).
  assert (Hk : (a - b) / (2 * (D + 1)) * D <= (a - b) / 2).
  { unfold Rdiv. rewrite Rinv_mult.
    replace ((a - b) * (/ 2 * / (D + 1)) * D)
      with ((a - b) * / 2 * (D * / (D + 1))) by ring.
    assert (D * / (D + 1) <= 1).
    { apply (Rmult_le_reg_r (D + 1)); [lra|].
      rewrite Rmult_assoc, Rinv_l by lra. lra. }
    assert (0 <= D * / (D + 1)).
    { apply Rmult_le_pos; [lra|]. left. now apply Rinv_0_lt_compat. }
    nra. }
  lra.
Qed.

Lemma exp_partial_close (x eps : R) :
  0 < eps ->
  exists M, forall m, (M <= m)%nat -> Rabs (exp_partial m x - exp x) < eps.
Proof.
  intros He.
  destruct (proj2_sig (exist_exp x) eps He) as [M HM].
  exists M. intros m Hm. specialize (HM m Hm).
  unfold Rdist in HM. rewrite sum_f_R0_big_sum in HM. exact HM.
Qed.

Lemma quad_form_ext (n : nat) (c : nat -> R) (k1 k2 : nat -> nat -> R) :
  (forall i j, (i < n)%nat -> (j < n)%nat -> k1 i j = k2 i j) ->
  quad_form n c k1 = quad_form n c k2.
Proof.
  intros Hk. unfold quad_form. apply big_sum_ext. intros i Hi.
  apply big_sum_ext. intros j Hj. now rewrite Hk.
Qed.

(** Bounding a quadratic form entry by entry. *)
Lemma quad_form_close (n : nat) (c : nat -> R) (k1 k2 : nat -> nat -> R)
    (eps : R) :
  (forall i j, (i < n)%nat -> (j < n)%nat ->
     c i * c j * (k1 i j - k2 i j) <= Rabs (c i) * Rabs (c j) * eps) ->
  quad_form n c k1
  <= quad_form n c k2
     + eps * (big_sum n (fun i => Rabs (c i))
              * big_sum n (fun i => Rabs (c i))).
Proof.
  intros Hk. unfold quad_form.
  rewrite <- big_sum_square, <- big_sum_scal_l, <- big_sum_plus.
  apply big_sum_le. intros i Hi.
  rewrite <- big_sum_scal_l, <- big_sum_plus.
  apply big_sum_le. intros j Hj.
  specialize (Hk i j Hi Hj). lra.
Qed.

Lemma abs_sum_square_nonneg (n : nat) (c : nat -> R) :
  0 <= big_sum n (fun i => Rabs (c i)) * big_sum n (fun i => Rabs (c i)).
Proof. apply Rle_0_sqr. Qed.

(** A kernel [a i * a j] has a square as its quadratic form. *)
Lemma quad_form_rank_one (n : nat) (c a : nat -> R) :
  quad_form n c (fun i j => a i * a j)
  = big_sum n (fun i => c i * a i) * big_sum n (fun i => c i * a i).
Proof.
  rewrite <- big_sum_square. unfold quad_form.
  apply big_sum_ext. intros i _. apply big_sum_ext. intros j _. ring.
Qed.

Lemma quad_form_exp_partial (n : nat) (d a : nat -> R) (lam : R) (m : nat) :
  0 <= lam ->
  0 <= quad_form n d (fun i j => exp_partial m (lam * (a i * a j))).
Proof.
  intros Hlam.
  assert (E : quad_form n d (fun i j => exp_partial m (lam * (a i * a j)))
              = big_sum (S m) (fun k =>
                  / INR (fact k) * lam ^ k
                  * quad_form n d (fun i j => a i ^ k * a j ^ k))).
  { unfold quad_form, exp_partial.
    transitivity
      (big_sum n (fun i => big_sum (S m) (fun k => big_sum n (fun j =>
         / INR (fact k) * lam ^ k * (d i * d j * (a i ^ k * a j ^ k)))))).
    - apply big_sum_ext. intros i _.
      rewrite <- big_sum_swap. apply big_sum_ext. intros j _.
      rewrite <- big_sum_scal_l. apply big_sum_ext. intros k _.
      rewrite !Rpow_mult_distr. ring.
    - rewrite big_sum_swap. apply big_sum_ext. intros k _.
      rewrite <- big_sum_scal_l. apply big_sum_ext. intros i _.
      now rewrite <- big_sum_scal_l. }
  rewrite E. apply big_sum_nonneg. intros k _.
  rewrite (quad_form_rank_one n d (fun i => a i ^ k)).
  apply Rmult_le_pos; [|apply Rle_0_sqr].
  apply Rmult_le_pos; [|now apply pow_le].
  left. apply Rinv_0_lt_compat, INR_fact_lt_0.
Qed.

(** The kernel [exp (lam * a i * a j)] is positive semidefinite. *)
Lemma quad_form_exp (n : nat) (d a : nat -> R) (lam : R) :
  0 <= lam -> 0 <= quad_form n d (fun i j => exp (lam * (a i * a j))).
Proof.
  intros Hlam.
  apply (le_by_eps _ _ _ (abs_sum_square_nonneg n d)).
  intros eps He.
  destruct (eventually_all n
              (fun i m => forall j, (j < n)%nat ->
                 Rabs (exp_partial m (lam * (a i * a j))
                       - exp (lam * (a i * a j))) < eps))
    as [M HM].
  { intros i Hi.
    apply (eventually_all n
             (fun j m => Rabs (exp_partial m (lam * (a i * a j))
                               - exp (lam * (a i * a j))) < eps)).
    intros j Hj. now apply exp_partial_close. }
  apply Rle_trans
    with (quad_form n d (fun i j => exp_partial M (lam * (a i * a j)))).
  - now apply quad_form_exp_partial.
  - apply quad_form_close. intros i j Hi Hj.
    specialize (HM M (Nat.le_refl M) i Hi j Hj).
    set (e := exp_partial M _ - exp _) in *.
    assert (Hb : d i * d j * e <= Rabs (d i * d j * e)) by apply Rle_abs.
    rewrite !Rabs_mult in Hb.
    assert (0 <= Rabs (d i) * Rabs (d j))
      by (apply Rmult_le_pos; apply Rabs_pos).
    nra.
Qed.

(** The Gaussian kernel [exp (- u (t i - t j)^2)] is positive
    semidefinite. *)
Lemma quad_form_gaussian (n : nat) (c t : nat -> R) (u : R) :
  0 <= u ->
  0 <= quad_form n c (fun i j => exp (- (u * ((t i - t j) * (t i - t j))))).
Proof.
  intros Hu.
  assert (E : quad_form n c
                (fun i j => exp (- (u * ((t i - t j) * (t i - t j)))))
              = quad_form n (fun i => c i * exp (- (u * (t i * t i))))
                  (fun i j => exp (2 * u * (t i * t j)))).
  { unfold quad_form. apply big_sum_ext. intros i _.
    apply big_sum_ext. intros j _.
    replace (- (u * ((t i - t j) * (t i - t j))))
      with (- (u * (t i * t i)) + (- (u * (t j * t j)) + 2 * u * (t i * t j)))
      by ring.
    rewrite !exp_plus. ring. }
  rewrite E. apply quad_form_exp. lra.
Qed.

(** ** The binomial series of [(1 - y)^beta] *)

Section Binomial.

Variable beta : R.
Hypothesis beta_range : 0 < beta < 1.

Lemma INR_S_pos (n : nat) : 0 < INR (S n).
Proof. apply lt_0_INR. lia. Qed.

Lemma binom_factor_range (n : nat) : 0 < 1 - beta / INR (S n) <= 1.
Proof.
  pose proof (INR_S_pos n) as Hn.
  assert (H1 : 1 <= INR (S n)).
  { rewrite S_INR. pose proof (pos_INR n). lra. }
  assert (Hq : 0 < beta / INR (S n)) by (apply Rdiv_lt_0_compat; lra).
  assert (Hq1 : beta / INR (S n) < 1).
  { apply (Rmult_lt_reg_r (INR (S n))); [assumption|].
    unfold Rdiv. rewrite Rmult_assoc, Rinv_l by lra. lra. }
  lra.
Qed.

Lemma binom_prod_range (n : nat) : 0 < binom_prod beta n <= 1.
Proof.
  induction n as [|n IH]; cbn [binom_prod]; [lra|].
  pose proof (binom_factor_range n). nra.
Qed.

Lemma binom_coef_unfold (n : nat) :
  binom_coef beta (S n) = binom_coef beta n * (INR n - beta) / INR (S n).
Proof. reflexivity. Qed.

Lemma binom_prod_unfold (n : nat) :
  binom_prod beta (S n) = binom_prod beta n * (1 - beta / INR (S n)).
Proof. reflexivity. Qed.

Lemma binom_coef_S (n : nat) : binom_coef beta (S n) = - (beta / INR (S n)) * binom_prod beta n.
Proof.
  induction n as [|n IH].
  - cbn. field.
  - rewrite binom_coef_unfold, IH, binom_prod_unfold.
    pose proof (INR_S_pos n). pose proof (INR_S_pos (S n)).
    field. split; lra.
Qed.

Lemma binom_coef_S_nonpos (n : nat) : binom_coef beta (S n) <= 0.
Proof.
  rewrite binom_coef_S.
  pose proof (binom_prod_range n). pose proof (INR_S_pos n).
  assert (0 < beta / INR (S n)) by (apply Rdiv_lt_0_compat; lra).
  nra.
Qed.

Lemma binom_coef_step (n : nat) : binom_coef beta (S n) * INR (S n) = binom_coef beta n * (INR n - beta).
Proof.
  rewrite binom_coef_unfold. pose proof (INR_S_pos n). field. lra.
Qed.

(** The remainder coefficient [(beta - n) * binom_coef beta n] lies between 0 and
    [beta]. *)
Lemma binom_remainder_coef (n : nat) : 0 <= (beta - INR n) * binom_coef beta n <= beta.
Proof.
  destruct n as [|n].
  - cbn. lra.
  - rewrite binom_coef_S.
    pose proof (binom_prod_range (S n)) as HP.
    rewrite binom_prod_unfold in HP.
    pose proof (INR_S_pos n).
    replace ((beta - INR (S n)) * (- (beta / INR (S n)) * binom_prod beta n))
      with (beta * (binom_prod beta n * (1 - beta / INR (S n)))) by (field; lra).
    nra.
Qed.

Lemma binom_partial_S (n : nat) (y : R) :
  binom_partial beta (S n) y = binom_partial beta n y + binom_coef beta (S n) * y ^ S n.
Proof. unfold binom_partial. now rewrite (big_sum_S (S n)). Qed.

Lemma binom_partial'_S (n : nat) (y : R) :
  binom_partial' beta (S n) y = binom_partial' beta n y + binom_coef beta (S n) * (INR (S n) * y ^ n).
Proof. unfold binom_partial'. now rewrite (big_sum_S (S n)). Qed.

Lemma binom_partial_0 (y : R) : binom_partial beta 0 y = 1.
Proof. unfold binom_partial, big_sum. cbn. lra. Qed.

Lemma binom_partial'_0 (y : R) : binom_partial' beta 0 y = 0.
Proof. unfold binom_partial', big_sum. cbn. lra. Qed.

Lemma binom_partial_at_0 (n : nat) : binom_partial beta n 0 = 1.
Proof.
  induction n as [|n IH]; [apply binom_partial_0|].
  rewrite binom_partial_S, IH, pow_i by lia. lra.
Qed.

Lemma binom_partial_at_1 (n : nat) : binom_partial beta n 1 = binom_prod beta n.
Proof.
  induction n as [|n IH]; [apply binom_partial_0|].
  rewrite binom_partial_S, IH, binom_coef_S, pow1, binom_prod_unfold.
  pose proof (INR_S_pos n). field. lra.
Qed.

Lemma binom_partial_derivable (n : nat) (y : R) :
  derivable_pt_lim (binom_partial beta n) y (binom_partial' beta n y).
Proof.
  induction n as [|n IH].
  - apply (derivable_pt_lim_ext (fct_cte 1)).
    + intros z. now rewrite binom_partial_0.
    + rewrite binom_partial'_0. apply derivable_pt_lim_const.
  - apply (derivable_pt_lim_ext
             (binom_partial beta n + mult_real_fct (binom_coef beta (S n)) (fun z => z ^ S n))%F).
    + intros z. rewrite binom_partial_S. reflexivity.
    + rewrite binom_partial'_S.
      apply derivable_pt_lim_plus; [exact IH|].
      apply derivable_pt_lim_scal.
      apply (derivable_pt_lim_pow y (S n)).
Qed.

(** The differential equation of the partial sums. *)
Lemma binom_partial_ode (n : nat) (y : R) :
  (1 - y) * binom_partial' beta n y + beta * binom_partial beta n y = (beta - INR n) * binom_coef beta n * y ^ n.
Proof.
  induction n as [|n IH].
  - rewrite binom_partial_0, binom_partial'_0. cbn. lra.
  - rewrite binom_partial_S, binom_partial'_S.
    pose proof (binom_coef_step n) as Hs.
    replace ((1 - y) * (binom_partial' beta n y + binom_coef beta (S n) * (INR (S n) * y ^ n))
             + beta * (binom_partial beta n y + binom_coef beta (S n) * y ^ S n))
      with (((1 - y) * binom_partial' beta n y + beta * binom_partial beta n y)
            + (binom_coef beta (S n) * INR (S n)) * y ^ n
            - (binom_coef beta (S n) * INR (S n)) * y ^ S n
            + beta * binom_coef beta (S n) * y ^ S n)
      by (rewrite <- !tech_pow_Rmult;
          generalize (binom_coef beta (S n)) (INR (S n)) (binom_partial' beta n y) (binom_partial beta n y) (y ^ n);
          intros; ring).
    rewrite IH.
    replace (binom_coef beta (S n) * INR (S n) * y ^ n) with (binom_coef beta n * (INR n - beta) * y ^ n)
      by now rewrite <- Hs.
    rewrite <- !tech_pow_Rmult.
    generalize (binom_coef beta (S n)) (binom_coef beta n) (INR (S n)) (INR n) (y ^ n). intros; ring.
Qed.

(** The partial sums against the power, on the interval [[0, 1)]. *)
Lemma binom_partial_bound (n : nat) (y : R) :
  0 <= y < 1 ->
  0 <= binom_partial beta n y - Rpower (1 - y) beta <= beta * y ^ S n / (1 - y).
Proof.
  intros [[Hy0| <-] Hy1].
  2:{ rewrite binom_partial_at_0, Rminus_0_r.
      replace (Rpower 1 beta) with 1.
      - rewrite pow_i by lia. unfold Rdiv. rewrite Rmult_0_r, Rmult_0_l. lra.
      - unfold Rpower. now rewrite ln_1, Rmult_0_r, exp_0. }
  set (q := fun u => binom_partial beta n u * Rpower (1 - u) (- beta)).
  set (q' := fun u =>
               Rpower (1 - u) (- beta - 1)
               * ((beta - INR n) * binom_coef beta n * u ^ n)).
  assert (Hq : forall u, 0 <= u <= y -> derivable_pt_lim q u (q' u)).
  { intros u Hu. unfold q, q'.
    rewrite <- binom_partial_ode.
    assert (Hu1 : 0 < 1 - u) by lra.
    assert (Hd : derivable_pt_lim (fun u => Rpower (1 - u) (- beta)) u
                   (beta * Rpower (1 - u) (- beta - 1))).
    { replace (beta * Rpower (1 - u) (- beta - 1))
        with ((- beta * Rpower (1 - u) (- beta - 1)) * (0 - 1)) by ring.
      apply (derivable_pt_lim_comp (fun u => 1 - u)
               (fun x => Rpower x (- beta))).
      - apply (derivable_pt_lim_minus (fct_cte 1) id).
        + apply derivable_pt_lim_const.
        + apply derivable_pt_lim_id.
      - now apply derivable_pt_lim_power. }
    replace (Rpower (1 - u) (- beta - 1)
             * ((1 - u) * binom_partial' beta n u + beta * binom_partial beta n u))
      with (binom_partial' beta n u * Rpower (1 - u) (- beta)
            + binom_partial beta n u * (beta * Rpower (1 - u) (- beta - 1))).
    - apply (derivable_pt_lim_mult (binom_partial beta n) (fun u => Rpower (1 - u) (- beta))).
      + apply binom_partial_derivable.
      + exact Hd.
    - replace (- beta) with ((- beta - 1) + 1) at 1 by ring.
      rewrite Rpower_plus, Rpower_1 by assumption. ring. }
  destruct (MVT_cor2 q q' 0 y Hy0 Hq) as (xi & Hmvt & Hxi).
  assert (Hq0 : q 0 = 1).
  { unfold q. rewrite binom_partial_at_0, Rminus_0_r.
    unfold Rpower. rewrite ln_1, Rmult_0_r, exp_0. lra. }
  rewrite Hq0, Rminus_0_r in Hmvt.
  pose proof (binom_remainder_coef n) as Hcoef.
  assert (Hy1' : 0 < 1 - y) by lra.
  assert (Hxi1 : 0 < 1 - xi) by lra.
  assert (Hpw : 0 < Rpower (1 - xi) (- beta - 1)
                <= Rpower (1 - y) (- beta - 1)).
  { split; [unfold Rpower; apply exp_pos|].
    replace (- beta - 1) with (- (beta + 1)) by ring.
    rewrite !Rpower_Ropp.
    apply Rinv_le_contravar; [unfold Rpower; apply exp_pos|].
    apply Rle_Rpower_l; lra. }
  assert (Hxn : 0 <= xi ^ n <= y ^ n).
  { split; [apply pow_le; lra|]. apply pow_incr; lra. }
  assert (Hq'0 : 0 <= q' xi).
  { unfold q'. apply Rmult_le_pos; [lra|].
    apply Rmult_le_pos; lra. }
  assert (Hq'1 : q' xi <= Rpower (1 - y) (- beta - 1) * (beta * y ^ n)).
  { unfold q'.
    apply Rmult_le_compat; try lra.
    - apply Rmult_le_pos; lra.
    - apply Rmult_le_compat; lra. }
  assert (Hpb : 0 < Rpower (1 - y) beta) by (unfold Rpower; apply exp_pos).
  assert (HT : binom_partial beta n y = q y * Rpower (1 - y) beta).
  { unfold q. rewrite Rmult_assoc, Rpower_Ropp, Rinv_l; lra. }
  assert (Hinv : Rpower (1 - y) (- beta - 1) * Rpower (1 - y) beta
                 = / (1 - y)).
  { rewrite <- Rpower_plus.
    replace (- beta - 1 + beta) with (- (1)) by ring.
    now rewrite Rpower_Ropp, Rpower_1. }
  assert (Hdiff : binom_partial beta n y - Rpower (1 - y) beta
                  = q' xi * y * Rpower (1 - y) beta).
  { rewrite HT. nra. }
  rewrite Hdiff. split.
  - apply Rmult_le_pos; [apply Rmult_le_pos|]; lra.
  - replace (beta * y ^ S n / (1 - y))
      with (Rpower (1 - y) (- beta - 1) * (beta * y ^ n) * y
            * Rpower (1 - y) beta).
    + apply Rmult_le_compat_r; [lra|].
      apply Rmult_le_compat_r; lra.
    + cbn [pow]. unfold Rdiv. rewrite <- Hinv. ring.
Qed.

(** The partial sums converge to the power on [[0, 1)]. *)
Lemma binom_partial_close (y eps : R) :
  0 <= y < 1 -> 0 < eps ->
  exists M, forall m, (M <= m)%nat ->
    Rabs (binom_partial beta m y - Rpower (1 - y) beta) < eps.
Proof.
  intros Hy He.
  assert (Hy1 : 0 < 1 - y) by lra.
  destruct (pow_lt_1_zero y) with (y := eps * (1 - y)) as [M HM].
  - rewrite Rabs_pos_eq; lra.
  - apply Rmult_lt_0_compat; lra.
  - exists M. intros m Hm.
    destruct (binom_partial_bound m y Hy) as [Hlo Hhi].
    rewrite Rabs_pos_eq by assumption.
    eapply Rle_lt_trans; [exact Hhi|].
    specialize (HM (S m) ltac:(lia)).
    rewrite Rabs_pos_eq in HM by (apply pow_le; lra).
    apply (Rmult_lt_reg_r (1 - y)); [assumption|].
    unfold Rdiv. rewrite Rmult_assoc, Rinv_l, Rmult_1_r by lra.
    assert (0 <= y ^ S m) by (apply pow_le; lra).
    nra.
Qed.

End Binomial.

(** ** The power of the distance is conditionally negative definite *)

Lemma exp_pow (x : R) (k : nat) : exp x ^ k = exp (INR k * x).
Proof.
  induction k as [|k IH].
  - cbn. now rewrite Rmult_0_l, exp_0.
  - rewrite <- tech_pow_Rmult, IH, <- exp_plus, S_INR. f_equal. ring.
Qed.

Lemma big_sum_nonpos (n : nat) (f : nat -> R) :
  (forall i, (i < n)%nat -> f i <= 0) -> big_sum n f <= 0.
Proof.
  intros Hf. rewrite <- (big_sum_zero n (fun _ => 0)) by reflexivity.
  now apply big_sum_le.
Qed.

Lemma big_sum_term_le (n k : nat) (f : nat -> R) :
  (forall i, (i < n)%nat -> 0 <= f i) -> (k < n)%nat -> f k <= big_sum n f.
Proof.
  intros Hf Hk. rewrite <- (big_sum_delta n k f Hk).
  apply big_sum_le. intros i Hi.
  destruct (Nat.eqb_spec i k); [lra|auto].
Qed.

Lemma quad_form_big_sum (n m : nat) (c : nat -> R)
    (g : nat -> nat -> nat -> R) :
  quad_form n c (fun i j => big_sum m (fun k => g k i j))
  = big_sum m (fun k => quad_form n c (g k)).
Proof.
  unfold quad_form.
  transitivity
    (big_sum n (fun i => big_sum m (fun k => big_sum n (fun j =>
       c i * c j * g k i j)))).
  - apply big_sum_ext. intros i _.
    rewrite <- big_sum_swap. apply big_sum_ext. intros j _.
    now rewrite big_sum_scal_l.
  - now rewrite big_sum_swap.
Qed.

Lemma quad_form_scal (n : nat) (c : nat -> R) (a : R)
    (k : nat -> nat -> R) :
  quad_form n c (fun i j => a * k i j) = a * quad_form n c k.
Proof.
  unfold quad_form. rewrite <- big_sum_scal_l.
  apply big_sum_ext. intros i _. rewrite <- big_sum_scal_l.
  apply big_sum_ext. intros j _. ring.
Qed.

Lemma quad_form_const (n : nat) (c : nat -> R) :
  quad_form n c (fun _ _ => 1) = big_sum n c * big_sum n c.
Proof.
  rewrite <- big_sum_square. unfold quad_form.
  apply big_sum_ext. intros i _. apply big_sum_ext. intros j _. ring.
Qed.

(** A kernel that depends on one index only vanishes against
    coefficients that sum to zero. *)
Lemma quad_form_left (n : nat) (c f : nat -> R) :
  big_sum n c = 0 -> quad_form n c (fun i _ => f i) = 0.
Proof.
  intros Hc. unfold quad_form. apply big_sum_zero. intros i _.
  rewrite (big_sum_ext n _ (fun j => (c i * f i) * c j))
    by (intros; ring).
  rewrite big_sum_scal_l, Hc. ring.
Qed.

Lemma quad_form_right (n : nat) (c f : nat -> R) :
  big_sum n c = 0 -> quad_form n c (fun _ j => f j) = 0.
Proof.
  intros Hc. unfold quad_form. rewrite big_sum_swap.
  apply big_sum_zero. intros j _.
  rewrite (big_sum_ext n _ (fun i => (c j * f j) * c i))
    by (intros; ring).
  rewrite big_sum_scal_l, Hc. ring.
Qed.

Lemma quad_form_plus (n : nat) (c : nat -> R) (k1 k2 : nat -> nat -> R) :
  quad_form n c (fun i j => k1 i j + k2 i j)
  = quad_form n c k1 + quad_form n c k2.
Proof.
  unfold quad_form. rewrite <- big_sum_plus.
  apply big_sum_ext. intros i _. rewrite <- big_sum_plus.
  apply big_sum_ext. intros j _. ring.
Qed.

Section Schoenberg.

Variable beta : R.
Hypothesis beta_range : 0 < beta < 1.

Variable n : nat.
Variables t c : nat -> R.
Hypothesis t_distinct :
  forall i j, (i < n)%nat -> (j < n)%nat -> i <> j -> t i <> t j.
Hypothesis c_sum : big_sum n c = 0.

Lemma sqdist_nonneg (i j : nat) : 0 <= sqdist t i j.
Proof. unfold sqdist. apply Rle_0_sqr. Qed.

Lemma sqdist_pos (i j : nat) :
  (i < n)%nat -> (j < n)%nat -> i <> j -> 0 < sqdist t i j.
Proof.
  intros Hi Hj Hne. unfold sqdist.
  pose proof (t_distinct i j Hi Hj Hne).
  assert (t i - t j <> 0) by lra. nra.
Qed.

Lemma sqdist_diag (i : nat) : sqdist t i i = 0.
Proof. unfold sqdist. ring. Qed.

(** The partial sums of the binomial series, evaluated on the Gaussian
    kernel, have a quadratic form that is not positive. *)
Lemma quad_form_binom_partial (s : R) (m : nat) :
  0 < s ->
  quad_form n c
    (fun i j => binom_partial beta m (exp (- (s * sqdist t i j)))) <= 0.
Proof.
  intros Hs. unfold binom_partial.
  rewrite quad_form_big_sum. apply big_sum_nonpos. intros k _.
  rewrite quad_form_scal.
  destruct k as [|k].
  - rewrite (quad_form_ext n c _ (fun _ _ => 1))
      by (intros; apply pow_O).
    rewrite quad_form_const, c_sum. cbn. lra.
  - pose proof (binom_coef_S_nonpos beta beta_range k) as Hb.
    assert (Hq : 0 <= quad_form n c
                        (fun i j => exp (- (s * sqdist t i j)) ^ S k)).
    { rewrite (quad_form_ext n c _
                 (fun i j => exp (- (INR (S k) * s
                                     * ((t i - t j) * (t i - t j)))))).
      - apply quad_form_gaussian.
        apply Rmult_le_pos; [apply pos_INR|lra].
      - intros i j _ _. rewrite exp_pow. unfold sqdist. f_equal. ring. }
    nra.
Qed.

(** The kernel [(1 - exp (- s d^2))^beta] is conditionally negative
    definite. *)
Lemma quad_form_one_minus_exp (s : R) :
  0 < s ->
  quad_form n c
    (fun i j => np_power (1 - exp (- (s * sqdist t i j))) beta) <= 0.
Proof.
  intros Hs.
  apply (le_by_eps _ _ _ (abs_sum_square_nonneg n c)).
  intros eps He.
  destruct (eventually_all n
              (fun i m => forall j, (j < n)%nat -> i <> j ->
                 Rabs (binom_partial beta m (exp (- (s * sqdist t i j)))
                       - Rpower (1 - exp (- (s * sqdist t i j))) beta) < eps))
    as [M HM].
  { intros i Hi.
    destruct (eventually_all n
                (fun j m => i <> j ->
                   Rabs (binom_partial beta m (exp (- (s * sqdist t i j)))
                         - Rpower (1 - exp (- (s * sqdist t i j))) beta) < eps))
      as [M HM].
    - intros j Hj.
      destruct (Nat.eq_dec i j) as [E|Hne].
      + exists 0%nat. intros m _ Hne. contradiction.
      + destruct (binom_partial_close beta beta_range
                    (exp (- (s * sqdist t i j))) eps) as [M HM]; auto.
        * split; [left; apply exp_pos|].
          rewrite <- exp_0. apply exp_increasing.
          pose proof (sqdist_pos i j Hi Hj Hne). nra.
        * exists M. intros m Hm _. now apply HM.
    - exists M. intros m Hm j Hj Hne. now apply HM. }
  apply Rle_trans
    with (quad_form n c
            (fun i j => binom_partial beta M (exp (- (s * sqdist t i j))))
          + eps * (big_sum n (fun i => Rabs (c i))
                   * big_sum n (fun i => Rabs (c i)))).
  - apply quad_form_close. intros i j Hi Hj.
    assert (Hcc : 0 <= Rabs (c i) * Rabs (c j))
      by (apply Rmult_le_pos; apply Rabs_pos).
    destruct (Nat.eq_dec i j) as [<-|Hne].
    + rewrite sqdist_diag, Rmult_0_r, Ropp_0, exp_0, Rminus_diag.
      rewrite np_power_0 by lra.
      rewrite binom_partial_at_1 by assumption.
      pose proof (binom_prod_range beta beta_range M).
      assert (0 <= c i * c i) by apply Rle_0_sqr. nra.
    + specialize (HM M (Nat.le_refl M) i Hi j Hj Hne).
      rewrite np_power_pos.
      2:{ assert (exp (- (s * sqdist t i j)) < exp 0).
          { apply exp_increasing.
            pose proof (sqdist_pos i j Hi Hj Hne). nra. }
          rewrite exp_0 in *. lra. }
      set (e := binom_partial _ _ _ - Rpower _ _) in HM.
      replace (Rpower _ beta - binom_partial _ _ _) with (- e)
        by (unfold e; ring).
      assert (Hb : c i * c j * - e <= Rabs (c i * c j * - e))
        by apply Rle_abs.
      rewrite !Rabs_mult, Rabs_Ropp in Hb. nra.
  - pose proof (quad_form_binom_partial s M Hs). lra.
Qed.

(** Between [x^beta / (1 + s x)] and [x^beta]: the kernel above, scaled by
    [s^(-beta)]. *)
Lemma one_minus_exp_squeeze (s x : R) :
  0 < s -> 0 <= x ->
  np_power x beta * / (1 + s * x)
  <= Rpower s (- beta) * np_power (1 - exp (- (s * x))) beta
  <= np_power x beta.
Proof.
  intros Hs [Hx| <-].
  2:{ rewrite Rmult_0_r, Ropp_0, exp_0, Rminus_diag.
      rewrite np_power_0 by lra. lra. }
  set (z := s * x). assert (Hz : 0 < z) by (unfold z; nra).
  set (e := 1 - exp (- z)).
  assert (He_hi : e <= z).
  { unfold e. pose proof (exp_ineq1_le (- z)). lra. }
  assert (He_lo : z / (1 + z) <= e).
  { unfold e. rewrite exp_Ropp.
    pose proof (exp_ineq1_le z) as H1.
    assert (/ exp z <= / (1 + z)) by (apply Rinv_le_contravar; lra).
    replace (z / (1 + z)) with (1 - / (1 + z)) by (field; lra). lra. }
  assert (Hzz : 0 < z / (1 + z)) by (apply Rdiv_lt_0_compat; lra).
  assert (He : 0 < e) by lra.
  rewrite (np_power_pos e) by assumption.
  rewrite (np_power_pos x) by assumption.
  set (w := e / s).
  assert (Hw : 0 < w) by (apply Rdiv_lt_0_compat; lra).
  assert (Hsw : Rpower s (- beta) * Rpower e beta = Rpower w beta).
  { replace e with (w * s) at 1 by (unfold w; field; lra).
    rewrite <- Rpower_mult_distr by assumption.
    rewrite Rpower_Ropp.
    assert (0 < Rpower s beta) by (unfold Rpower; apply exp_pos).
    field. lra. }
  rewrite Hsw.
  assert (Hw_hi : w <= x).
  { unfold w. apply (Rmult_le_reg_r s); [assumption|].
    unfold Rdiv. rewrite Rmult_assoc, Rinv_l, Rmult_1_r by lra.
    unfold z in He_hi. lra. }
  assert (Hw_lo : x / (1 + z) <= w).
  { unfold w. apply (Rmult_le_reg_r s); [assumption|].
    unfold Rdiv at 2. rewrite Rmult_assoc, Rinv_l, Rmult_1_r by lra.
    assert (Hne : 1 + s * x <> 0) by (fold z; lra).
    replace (x / (1 + z) * s) with (z / (1 + z))
      by (unfold z; field; exact Hne).
    assumption. }
  assert (Hxz : 0 < x / (1 + z)) by (apply Rdiv_lt_0_compat; lra).
  split.
  - apply Rle_trans with (Rpower (x / (1 + z)) beta).
    + unfold Rdiv. rewrite <- Rpower_mult_distr
        by (try assumption; apply Rinv_0_lt_compat; lra).
      apply Rmult_le_compat_l; [left; unfold Rpower; apply exp_pos|].
      assert (Hu : 0 < / (1 + z)) by (apply Rinv_0_lt_compat; lra).
      assert (Hu1 : / (1 + z) <= 1).
      { rewrite <- Rinv_1. apply Rinv_le_contravar; lra. }
      rewrite <- (exp_ln (/ (1 + z))) at 1 by assumption.
      unfold Rpower.
      assert (Hln : ln (/ (1 + z)) <= 0).
      { rewrite <- ln_1. destruct Hu1 as [Hlt|E].
        - left. now apply ln_increasing.
        - rewrite E. lra. }
      destruct (Rle_lt_or_eq_dec _ _ Hln) as [Hlt|E].
      * left. apply exp_increasing. nra.
      * rewrite E, Rmult_0_r. lra.
    + apply Rle_Rpower_l; lra.
  - apply Rle_Rpower_l; lra.
Qed.

(** The kernel [(d^2)^beta], that is [|d|^(2 beta)], is conditionally
    negative definite. *)
Lemma quad_form_power_distance :
  quad_form n c (fun i j => np_power (sqdist t i j) beta) <= 0.
Proof.
  set (B := big_sum n (fun i => big_sum n (fun j =>
              np_power (sqdist t i j) beta * sqdist t i j))).
  assert (HB : 0 <= B).
  { apply big_sum_nonneg. intros i _. apply big_sum_nonneg. intros j _.
    apply Rmult_le_pos; [apply np_power_nonneg|]; apply sqdist_nonneg. }
  set (D := big_sum n (fun i => Rabs (c i))
            * big_sum n (fun i => Rabs (c i))).
  apply (le_by_eps _ _ (B * D)).
  { apply Rmult_le_pos; [assumption|apply abs_sum_square_nonneg]. }
  intros s Hs.
  apply Rle_trans
    with (quad_form n c
            (fun i j => Rpower s (- beta)
                        * np_power (1 - exp (- (s * sqdist t i j))) beta)
          + (s * B) * D).
  2:{ rewrite quad_form_scal.
      pose proof (quad_form_one_minus_exp s Hs).
      assert (0 < Rpower s (- beta)) by (unfold Rpower; apply exp_pos).
      nra. }
  apply quad_form_close. intros i j Hi Hj.
  pose proof (sqdist_nonneg i j) as Hd.
  destruct (one_minus_exp_squeeze s (sqdist t i j) Hs Hd) as [Hlo Hhi].
  set (p := np_power (sqdist t i j) beta) in *.
  set (q := Rpower s (- beta) * _) in *.
  assert (Hp : 0 <= p) by (apply np_power_nonneg; assumption).
  assert (Hterm : p * sqdist t i j <= B).
  { unfold B.
    apply Rle_trans
      with (big_sum n (fun j' => np_power (sqdist t i j') beta * sqdist t i j')).
    - apply (big_sum_term_le n j
               (fun j' => np_power (sqdist t i j') beta * sqdist t i j')); auto.
      intros j' _. apply Rmult_le_pos;
        [apply np_power_nonneg|]; apply sqdist_nonneg.
    - apply (big_sum_term_le n i
               (fun i' => big_sum n (fun j' =>
                  np_power (sqdist t i' j') beta * sqdist t i' j'))); auto.
      intros i' _. apply big_sum_nonneg. intros j' _.
      apply Rmult_le_pos; [apply np_power_nonneg|]; apply sqdist_nonneg. }
  assert (Hgap : 0 <= p - q <= s * B).
  { split; [lra|].
    assert (H1 : 0 < 1 + s * sqdist t i j) by nra.
    assert (Hpq : p - q <= p - p * / (1 + s * sqdist t i j)) by lra.
    assert (Hfrac : p - p * / (1 + s * sqdist t i j)
                    = s * (p * sqdist t i j) * / (1 + s * sqdist t i j))
      by (field; lra).
    assert (Hinv : / (1 + s * sqdist t i j) <= 1).
    { rewrite <- Rinv_1. apply Rinv_le_contravar; nra. }
    assert (Hinv0 : 0 < / (1 + s * sqdist t i j))
      by now apply Rinv_0_lt_compat.
    assert (0 <= s * (p * sqdist t i j)).
    { apply Rmult_le_pos; [lra|]. now apply Rmult_le_pos. }
    nra. }
  assert (Hb : c i * c j * (p - q) <= Rabs (c i * c j * (p - q)))
    by apply Rle_abs.
  rewrite !Rabs_mult in Hb.
  rewrite (Rabs_pos_eq (p - q)) in Hb by lra.
  assert (0 <= Rabs (c i) * Rabs (c j))
    by (apply Rmult_le_pos; apply Rabs_pos).
  nra.
Qed.

End Schoenberg.

(** ** The covariance kernel is positive semidefinite *)

(** [|d|^(2H)] is [(d^2)^H]. *)
Lemma np_power_abs_sq (H d : R) :
  0 < H -> np_power (Rabs d) (2 * H) = np_power (d * d) H.
Proof.
  intros HH. destruct (Req_dec d 0) as [->|Hd].
  - rewrite Rabs_R0, Rmult_0_r, !np_power_0; lra.
  - assert (Ha : 0 < Rabs d) by now apply Rabs_pos_lt.
    assert (Hsq : d * d = Rabs d * Rabs d).
    { unfold Rabs. destruct (Rcase_abs d); ring. }
    rewrite Hsq, !np_power_pos by nra.
    unfold Rpower. rewrite ln_mult by assumption. f_equal. ring.
Qed.

Section Covariance.

Variable H : R.
Hypothesis H_range : 0 < H < 1.

Variable n : nat.
Variable t : nat -> R.
Hypothesis t_origin : t 0%nat = 0.
Hypothesis t_distinct :
  forall i j, (i < n)%nat -> (j < n)%nat -> i <> j -> t i <> t j.

Lemma R_H_origin_l (s : R) : R_H H 0 s = 0.
Proof.
  unfold R_H. rewrite Rabs_R0, np_power_0 by lra.
  replace (0 - s) with (- s) by ring. rewrite Rabs_Ropp. lra.
Qed.

Lemma R_H_origin_r (s : R) : R_H H s 0 = 0.
Proof.
  unfold R_H. rewrite Rabs_R0, np_power_0, Rminus_0_r by lra. lra.
Qed.

(** The covariance kernel of fractional Brownian motion is positive
    semidefinite on a grid of distinct points that starts at 0. *)
Lemma quad_form_R_H_nonneg (x : nat -> R) :
  0 <= quad_form n x (fun i j => R_H H (t i) (t j)).
Proof.
  destruct n as [|n'] eqn:En.
  { unfold quad_form. rewrite big_sum_0. lra. }
  rewrite <- En in *.
  assert (Hn : (0 < n)%nat) by lia. clear En.
  set (c := fun i => x i - (if (i =? 0)%nat then big_sum n x else 0)).
  assert (Hc : big_sum n c = 0).
  { unfold c. rewrite big_sum_minus.
    rewrite (big_sum_delta n 0 (fun _ => big_sum n x)) by assumption. lra. }
  assert (Hsame : quad_form n x (fun i j => R_H H (t i) (t j))
                  = quad_form n c (fun i j => R_H H (t i) (t j))).
  { unfold quad_form. apply big_sum_ext. intros i _.
    apply big_sum_ext. intros j _. unfold c.
    destruct (Nat.eqb_spec i 0) as [->|Hi].
    - rewrite t_origin, R_H_origin_l. ring.
    - destruct (Nat.eqb_spec j 0) as [->|Hj].
      + rewrite t_origin, R_H_origin_r. ring.
      + ring. }
  rewrite Hsame.
  pose proof (quad_form_power_distance H H_range n t c t_distinct Hc) as Hcnd.
  assert (Hsplit :
    quad_form n c (fun i j => np_power (sqdist t i j) H)
    = quad_form n c (fun i _ => np_power (Rabs (t i)) (2 * H))
      + (quad_form n c (fun _ j => np_power (Rabs (t j)) (2 * H))
         + (-2) * quad_form n c (fun i j => R_H H (t i) (t j)))).
  { rewrite <- quad_form_scal, <- !quad_form_plus.
    apply quad_form_ext. intros i j _ _.
    unfold sqdist, R_H.
    rewrite <- (np_power_abs_sq H (t i - t j)) by lra. lra. }
  rewrite quad_form_left, quad_form_right in Hsplit by assumption.
  lra.
Qed.

End Covariance.

(** ** Sums over a permutation of the indices *)

Lemma Rsum_perm (l1 l2 : list R) : Permutation l1 l2 -> Rsum l1 = Rsum l2.
Proof.
  induction 1; simpl; lra.
Qed.

Lemma map_nth_seq {A : Type} (d : A) (l : list A) :
  map (fun k => nth k l d) (seq 0 (length l)) = l.
Proof.
  apply (nth_ext _ _ d d).
  - now rewrite length_map, length_seq.
  - intros k Hk. rewrite length_map, length_seq in Hk.
    rewrite (nth_indep _ d ((fun k => nth k l d) 0%nat))
      by now rewrite length_map, length_seq.
    rewrite (map_nth (fun k => nth k l d)), seq_nth by assumption.
    reflexivity.
Qed.

Lemma big_sum_reindex (n : nat) (idx : list nat) (f : nat -> R) :
  Permutation idx (seq 0 n) ->
  big_sum n (fun k => f (nth k idx 0%nat)) = big_sum n f.
Proof.
  intros Hp. unfold big_sum.
  assert (Hlen : length idx = n)
    by now rewrite (Permutation_length Hp), length_seq.
  rewrite <- (map_map (fun k => nth k idx 0%nat) f).
  rewrite <- Hlen at 1. rewrite map_nth_seq.
  apply Rsum_perm. now apply Permutation_map.
Qed.

Lemma perm_nth_lt (n : nat) (idx : list nat) (k : nat) :
  Permutation idx (seq 0 n) -> (k < n)%nat -> (nth k idx 0 < n)%nat.
Proof.
  intros Hp Hk.
  assert (Hlen : length idx = n)
    by now rewrite (Permutation_length Hp), length_seq.
  assert (Hin : In (nth k idx 0%nat) idx) by (apply nth_In; lia).
  apply (Permutation_in _ Hp) in Hin. apply in_seq in Hin. lia.
Qed.

Lemma perm_nth_inj (n : nat) (idx : list nat) (k l : nat) :
  Permutation idx (seq 0 n) -> (k < n)%nat -> (l < n)%nat ->
  nth k idx 0%nat = nth l idx 0%nat -> k = l.
Proof.
  intros Hp Hk Hl E.
  assert (Hlen : length idx = n)
    by now rewrite (Permutation_length Hp), length_seq.
  assert (Hnd : NoDup idx).
  { apply (Permutation_NoDup (Permutation_sym Hp)), seq_NoDup. }
  apply (proj1 (NoDup_nth idx 0%nat) Hnd); lia.
Qed.

(** ** An orthonormal family and the matrix it diagonalises *)

Section Spectral.

Variable N : nat.

(** [u i k] is entry [i] of the vector number [k]. *)
Variable u : nat -> nat -> R.
Hypothesis u_orthonormal :
  forall k l, (k < N)%nat -> (l < N)%nat ->
    big_sum N (fun i => u i k * u i l) = if (k =? l)%nat then 1 else 0.

Lemma big_sum_product (n m : nat) (x y : nat -> R) :
  big_sum n x * big_sum m y
  = big_sum n (fun k => big_sum m (fun l => x k * y l)).
Proof.
  rewrite <- big_sum_scal_r. apply big_sum_ext. intros k _.
  now rewrite big_sum_scal_l.
Qed.

(** Contracting two combinations of the vectors over the index of the
    entries. *)
Lemma gram_contract (a b : nat -> R) :
  big_sum N (fun j => big_sum N (fun k => a k * u j k)
                      * big_sum N (fun l => b l * u j l))
  = big_sum N (fun k => a k * b k).
Proof.
  transitivity
    (big_sum N (fun k => big_sum N (fun l =>
       a k * b l * big_sum N (fun j => u j k * u j l)))).
  - rewrite (big_sum_ext N _
               (fun j => big_sum N (fun k => big_sum N (fun l =>
                  a k * b l * (u j k * u j l))))).
    + rewrite big_sum_swap. apply big_sum_ext. intros k _.
      rewrite big_sum_swap. apply big_sum_ext. intros l _.
      now rewrite big_sum_scal_l.
    + intros j _. rewrite big_sum_product.
      apply big_sum_ext. intros k _. apply big_sum_ext. intros l _. ring.
  - apply big_sum_ext. intros k Hk.
    rewrite <- (big_sum_delta N k (fun l => a k * b l) Hk).
    apply big_sum_ext. intros l Hl.
    rewrite u_orthonormal by assumption.
    rewrite (Nat.eqb_sym l k).
    destruct (k =? l)%nat; ring.
Qed.

(** The squared Frobenius norm of [sum_k d k * u_k u_k^T] is the sum of
    the [d k] squared. *)
Lemma frobenius_diagonal (d : nat -> R) :
  big_sum N (fun i => big_sum N (fun j =>
    big_sum N (fun k => u i k * d k * u j k)
    * big_sum N (fun k => u i k * d k * u j k)))
  = big_sum N (fun k => d k * d k).
Proof.
  rewrite (big_sum_ext N _
             (fun i => big_sum N (fun k => (u i k * d k) * (u i k * d k)))).
  - rewrite big_sum_swap. apply big_sum_ext. intros k Hk.
    rewrite (big_sum_ext N _ (fun i => (d k * d k) * (u i k * u i k)))
      by (intros; ring).
    rewrite big_sum_scal_l, u_orthonormal, Nat.eqb_refl by assumption.
    ring.
  - intros i _.
    apply (gram_contract (fun k => u i k * d k) (fun k => u i k * d k)).
Qed.

Variable lam : nat -> R.
Variable C : nat -> nat -> R.
Hypothesis C_decomposed :
  forall i j, (i < N)%nat -> (j < N)%nat ->
    C i j = big_sum N (fun k => u i k * lam k * u j k).

(** Each vector is an eigenvector of [C] for its [lam]. *)
Lemma eigen_equation (i l : nat) :
  (i < N)%nat -> (l < N)%nat ->
  big_sum N (fun j => C i j * u j l) = lam l * u i l.
Proof.
  intros Hi Hl.
  rewrite (big_sum_ext N _
             (fun j => big_sum N (fun k => (u i k * lam k) * u j k)
                       * big_sum N (fun k =>
                           (if (k =? l)%nat then 1 else 0) * u j k))).
  - rewrite (gram_contract (fun k => u i k * lam k)
               (fun k => if (k =? l)%nat then 1 else 0)).
    rewrite (big_sum_ext N _
               (fun k => if (k =? l)%nat then lam k * u i k else 0))
      by (intros k _; destruct (k =? l)%nat; ring).
    now rewrite (big_sum_delta N l (fun k => lam k * u i k) Hl).
  - intros j Hj. rewrite C_decomposed by assumption.
    rewrite (big_sum_ext N
               (fun k => (if (k =? l)%nat then 1 else 0) * u j k)
               (fun k => if (k =? l)%nat then u j k else 0))
      by (intros k _; destruct (k =? l)%nat; ring).
    now rewrite (big_sum_delta N l (fun k => u j k) Hl).
Qed.

(** Each [lam k] is the quadratic form of [C] at the vector number [k]. *)
Lemma rayleigh (l : nat) :
  (l < N)%nat -> quad_form N (fun i => u i l) C = lam l.
Proof.
  intros Hl. unfold quad_form.
  rewrite (big_sum_ext N _ (fun i => lam l * (u i l * u i l))).
  - rewrite big_sum_scal_l, u_orthonormal, Nat.eqb_refl by assumption.
    ring.
  - intros i Hi.
    rewrite (big_sum_ext N _ (fun j => u i l * (C i j * u j l)))
      by (intros; ring).
    rewrite big_sum_scal_l, eigen_equation by assumption. ring.
Qed.

(** What is left of [C] once the first [K] terms are taken away with the
    weights [lam]. *)
Lemma truncation_residual (K : nat) :
  (K <= N)%nat ->
  big_sum N (fun i => big_sum N (fun j =>
    (C i j - big_sum K (fun k => u i k * lam k * u j k))
    * (C i j - big_sum K (fun k => u i k * lam k * u j k))))
  = big_sum N (fun k => if (k <? K)%nat then 0 else lam k * lam k).
Proof.
  intros HK.
  set (d := fun k => if (k <? K)%nat then 0 else lam k).
  assert (Hres : forall i j, (i < N)%nat -> (j < N)%nat ->
            C i j - big_sum K (fun k => u i k * lam k * u j k)
            = big_sum N (fun k => u i k * d k * u j k)).
  { intros i j Hi Hj. rewrite C_decomposed by assumption.
    assert (Hhead : big_sum K (fun k => u i k * lam k * u j k)
                    = big_sum N (fun k =>
                        if (k <? K)%nat then u i k * lam k * u j k else 0)).
    { clear -HK. induction N as [|n IH].
      - replace K with 0%nat by lia. reflexivity.
      - destruct (Nat.eq_dec K (S n)) as [->|Hne].
        + apply big_sum_ext. intros k Hk.
          destruct (Nat.ltb_spec k (S n)); [reflexivity|lia].
        + rewrite big_sum_S, <- IH by lia.
          destruct (Nat.ltb_spec n K); [lia|lra]. }
    rewrite Hhead, <- big_sum_minus.
    apply big_sum_ext. intros k _. unfold d.
    destruct (k <? K)%nat; ring. }
  rewrite (big_sum_ext N _
             (fun i => big_sum N (fun j =>
                big_sum N (fun k => u i k * d k * u j k)
                * big_sum N (fun k => u i k * d k * u j k)))).
  - rewrite frobenius_diagonal. apply big_sum_ext. intros k _.
    unfold d. destruct (k <? K)%nat; ring.
  - intros i Hi. apply big_sum_ext. intros j Hj.
    now rewrite Hres.
Qed.

End Spectral.

(** ** Sorted lists *)

Lemma StronglySorted_snoc_ge (r : list R) (x : R) :
  StronglySorted Rge r -> (forall z, In z r -> x <= z) ->
  StronglySorted Rge (r ++ [x]).
Proof.
  intros Hs. induction Hs as [|y r Hs IH Hall]; intros Hin; cbn.
  - repeat constructor.
  - constructor.
    + apply IH. intros z Hz. apply Hin. now right.
    + apply Forall_app. split; [assumption|].
      constructor; [|constructor].
      apply Rle_ge, Hin. now left.
Qed.

Lemma StronglySorted_rev_ge (l : list R) :
  StronglySorted Rle l -> StronglySorted Rge (rev l).
Proof.
  induction 1 as [|x l Hs IH Hall]; cbn [rev]; [constructor|].
  apply StronglySorted_snoc_ge; [assumption|].
  intros z Hz. apply in_rev in Hz.
  rewrite Forall_forall in Hall. auto.
Qed.

Lemma in_firstn {A : Type} (k : nat) (l : list A) (x : A) :
  In x (firstn k l) -> In x l.
Proof.
  intros Hx. rewrite <- (firstn_skipn k l). apply in_or_app. now left.
Qed.

Lemma in_skipn {A : Type} (k : nat) (l : list A) (x : A) :
  In x (skipn k l) -> In x l.
Proof.
  intros Hx. rewrite <- (firstn_skipn k l). apply in_or_app. now right.
Qed.

Lemma StronglySorted_firstn {A : Type} (R : A -> A -> Prop) (k : nat)
    (l : list A) :
  StronglySorted R l -> StronglySorted R (firstn k l).
Proof.
  intros Hs. revert k. induction Hs as [|x l Hs IH Hall]; intros k.
  - rewrite firstn_nil. constructor.
  - destruct k as [|k]; cbn [firstn]; constructor; auto.
    rewrite Forall_forall in *. intros y Hy. apply Hall.
    now apply (in_firstn k).
Qed.

Lemma StronglySorted_split (k : nat) (l : list R) :
  StronglySorted Rge l ->
  forall x y, In x (firstn k l) -> In y (skipn k l) -> y <= x.
Proof.
  intros Hs. revert k. induction Hs as [|a l Hs IH Hall]; intros k x y Hx Hy.
  - rewrite firstn_nil in Hx. contradiction.
  - destruct k as [|k]; cbn [firstn skipn] in *; [contradiction|].
    destruct Hx as [<-|Hx].
    + rewrite Forall_forall in Hall. apply Rge_le, Hall.
      now apply (in_skipn k).
    + eapply IH; eauto.
Qed.

Lemma clip_lo_nonneg (w : list R) :
  (forall x, In x w -> 0 <= x) -> clip_lo w 0 = w.
Proof.
  intros Hw. unfold clip_lo. rewrite <- (map_id w) at 2.
  apply map_ext_in. intros x Hx. apply Rmax_left. auto.
Qed.

Lemma clip_lo_result_nonneg (w : list R) (x : R) :
  In x (clip_lo w 0) -> 0 <= x.
Proof.
  unfold clip_lo. intros Hx. apply in_map_iff in Hx as (y & <- & _).
  apply Rmax_r.
Qed.

Lemma clip_lo_descending (w : list R) :
  StronglySorted Rge w -> StronglySorted Rge (clip_lo w 0).
Proof.
  unfold clip_lo. induction 1 as [|x l Hs IH Hall]; cbn [map]; constructor.
  - exact IH.
  - rewrite Forall_forall in *. intros y Hy.
    apply in_map_iff in Hy as (z & <- & Hz).
    specialize (Hall z Hz). apply Rle_ge, Rle_max_compat_r. lra.
Qed.

Lemma clip_lo_keeps_positive (w : list R) (k : nat) :
  0 < nth k w 0 -> nth k (clip_lo w 0) 0 = nth k w 0.
Proof.
  intros Hpos. destruct (Nat.lt_ge_cases k (length w)) as [Hk|Hk].
  - unfold clip_lo. rewrite nth_map_R by assumption.
    apply Rmax_left. lra.
  - rewrite nth_overflow in Hpos by assumption. lra.
Qed.

Lemma exact_eigh_well_shaped {np : Numpy} (C : matrix) :
  exact_eigh C (fst (eigh C)) (snd (eigh C)) -> eigh_well_shaped C.
Proof.
  intros (Hw & Hr & Hc & _). repeat split; assumption.
Qed.

(** ** The grid of the sampler *)

Lemma linspace_origin (T : R) (n : nat) :
  (1 <= n)%nat -> nth 0 (linspace 0 T (S n)) 0 = 0.
Proof.
  intros Hn. rewrite linspace_nth by lia. cbn [INR]. unfold Rdiv.
  now rewrite !Rmult_0_l.
Qed.

Lemma linspace_distinct (T : R) (n i j : nat) :
  0 < T -> (1 <= n)%nat -> (i <= n)%nat -> (j <= n)%nat -> i <> j ->
  nth i (linspace 0 T (S n)) 0 <> nth j (linspace 0 T (S n)) 0.
Proof.
  intros HT Hn Hi Hj Hne E. rewrite !linspace_nth in E by assumption.
  apply Hne, INR_eq.
  assert (Hn0 : 0 < INR n) by (apply lt_0_INR; lia).
  assert (Hq : 0 < T / INR n) by now apply Rdiv_lt_0_compat.
  unfold Rdiv in E. rewrite !Rmult_assoc in E.
  apply Rmult_eq_reg_r in E; [assumption|]. fold (T / INR n). lra.
Qed.

(** The covariance matrix on the grid of the sampler is positive
    semidefinite. *)
Lemma covariance_psd (H T : R) (n : nat) (C : matrix) (x : nat -> R) :
  0 < H < 1 -> 0 < T -> (1 <= n)%nat ->
  fbm_covariance_grid (array1d (linspace 0 T (S n))) H = Ok C ->
  0 <= quad_form (S n) x (mget C).
Proof.
  intros HH HT Hn HC.
  set (t := linspace 0 T (S n)) in *.
  destruct (fbm_covariance_grid_entries t H HH)
    as (C' & HC' & _ & _ & _ & Hent).
  rewrite HC in HC'. injection HC' as <-.
  assert (Hlen : length t = S n) by now apply linspace_length.
  rewrite Hlen in Hent.
  rewrite (quad_form_ext (S n) x (mget C)
             (fun i j => R_H H (nth i t 0) (nth j t 0)))
    by (intros i j Hi Hj; now apply Hent).
  apply (quad_form_R_H_nonneg H HH (S n) (fun i => nth i t 0)).
  - now apply linspace_origin.
  - intros i j Hi Hj Hne. apply linspace_distinct; auto; lia.
Qed.

Lemma big_sum_nonzero_term (n : nat) (f : nat -> R) :
  big_sum n f <> 0 -> exists i, (i < n)%nat /\ f i <> 0.
Proof.
  induction n as [|n IH]; intros Hne.
  - now rewrite big_sum_0 in Hne.
  - rewrite big_sum_S in Hne.
    destruct (Req_dec (f n) 0) as [E|Hn].
    + destruct IH as (i & Hi & Hfi); [lra|].
      exists i. split; [lia|assumption].
    + exists n. split; [lia|assumption].
Qed.

Lemma nth_map_idx (f : nat -> R) (idx : list nat) (k : nat) :
  (k < length idx)%nat ->
  nth k (map f idx) 0 = f (nth k idx 0%nat).
Proof.
  intros Hk. rewrite (nth_indep _ 0 (f 0%nat)) by now rewrite length_map.
  apply map_nth.
Qed.

(** ** The sorted eigenpairs of an exactly diagonalised matrix *)

Section SortedEigenpairs.

Context {np : Numpy}.

Hypothesis argsort_perm :
  forall w, Permutation (argsort w) (seq 0 (length w)).
Hypothesis argsort_sorted :
  forall w, StronglySorted Rle (map (fun j => nth j w 0) (argsort w)).

Variable C : matrix.
Hypothesis C_square : ncols C = nrows C.
Hypothesis C_shape : eigh_well_shaped C.
Hypothesis C_exact : exact_eigh C (fst (eigh C)) (snd (eigh C)).
Hypothesis C_psd : forall x, 0 <= quad_form (nrows C) x (mget C).

Lemma raw_order_perm : Permutation (raw_order C) (seq 0 (nrows C)).
Proof.
  unfold raw_order. destruct C_shape as (Hw & _).
  rewrite <- Hw, <- Permutation_rev. apply argsort_perm.
Qed.

Lemma raw_order_length : length (raw_order C) = nrows C.
Proof.
  now rewrite (Permutation_length raw_order_perm), length_seq.
Qed.

Lemma raw_sorted_length : length (raw_sorted C) = nrows C.
Proof.
  unfold raw_sorted. rewrite length_map. apply raw_order_length.
Qed.

Lemma raw_sorted_perm : Permutation (raw_sorted C) (fst (eigh C)).
Proof.
  unfold raw_sorted. destruct C_shape as (Hw & _).
  rewrite raw_order_perm, <- Hw.
  now rewrite (map_nth_seq 0 (fst (eigh C))).
Qed.

Lemma raw_sorted_descending : StronglySorted Rge (raw_sorted C).
Proof.
  unfold raw_sorted, raw_order. rewrite map_rev.
  apply StronglySorted_rev_ge, argsort_sorted.
Qed.

Lemma raw_sorted_nth (k : nat) :
  (k < nrows C)%nat ->
  nth k (raw_sorted C) 0 = nth (nth k (raw_order C) 0%nat) (fst (eigh C)) 0.
Proof.
  intros Hk. unfold raw_sorted.
  apply (nth_map_idx (fun j => nth j (fst (eigh C)) 0)).
  now rewrite raw_order_length.
Qed.

(** Sorting goes through whatever values [eigh] returns; clipping comes
    after it and keeps the order. *)
Lemma sorted_eigh_clipped :
  sorted_eigh C
  = Ok (clip_lo (raw_sorted C) 0,
        tabulate (nrows C) (nrows C)
          (fun i k => mget (snd (eigh C)) i (nth k (raw_order C) 0%nat))).
Proof.
  clear C_exact C_psd C_square.
  unfold sorted_eigh.
  destruct C_shape as (Hw & Hr & Hc).
  pose proof raw_order_perm as Hp. pose proof raw_order_length as Hlen.
  unfold raw_sorted, raw_order in *.
  destruct (eigh C) as [w0 V0]. cbn [fst snd] in *.
  rewrite take_ok.
  2:{ intros j Hj. apply (Permutation_in _ Hp) in Hj.
      apply in_seq in Hj. lia. }
  cbn [bind]. rewrite take_cols_ok.
  2:{ intros j Hj. apply (Permutation_in _ Hp) in Hj.
      apply in_seq in Hj. lia. }
  cbn [bind]. now rewrite Hr, Hlen.
Qed.

Lemma eigh_orthonormal (k l : nat) :
  (k < nrows C)%nat -> (l < nrows C)%nat ->
  big_sum (nrows C) (fun i => mget (snd (eigh C)) i k * mget (snd (eigh C)) i l)
  = if (k =? l)%nat then 1 else 0.
Proof.
  intros Hk Hl. destruct C_exact as (_ & Hr & Hc & Horth & _).
  rewrite <- Hr. apply Horth; now rewrite Hc.
Qed.

Lemma eigh_decomposed (i j : nat) :
  (i < nrows C)%nat -> (j < nrows C)%nat ->
  mget C i j
  = big_sum (nrows C)
      (fun k => mget (snd (eigh C)) i k * nth k (fst (eigh C)) 0
                * mget (snd (eigh C)) j k).
Proof.
  intros Hi Hj. destruct C_exact as (_ & _ & _ & _ & Hdec). now apply Hdec.
Qed.

(** Every value that [eigh] returns is an eigenvalue of [C]. *)
Lemma eigh_values_are_eigenvalues (l : nat) :
  (l < nrows C)%nat -> is_eigenvalue C (nth l (fst (eigh C)) 0).
Proof.
  intros Hl. exists (fun i => mget (snd (eigh C)) i l). split.
  - destruct (big_sum_nonzero_term (nrows C)
                 (fun i => mget (snd (eigh C)) i l * mget (snd (eigh C)) i l))
      as (i & Hi & Hne).
    + rewrite eigh_orthonormal, Nat.eqb_refl by assumption. lra.
    + exists i. split; [assumption|]. intros E. apply Hne.
      rewrite E. ring.
  - intros i Hi. rewrite C_square.
    apply (eigen_equation (nrows C) (mget (snd (eigh C))) eigh_orthonormal
             (fun k => nth k (fst (eigh C)) 0) (mget C) eigh_decomposed);
      assumption.
Qed.

(** A positive semidefinite matrix has no negative eigenvalue. *)
Lemma eigh_values_nonneg (l : nat) :
  (l < nrows C)%nat -> 0 <= nth l (fst (eigh C)) 0.
Proof.
  intros Hl.
  rewrite <- (rayleigh (nrows C) (mget (snd (eigh C))) eigh_orthonormal
                (fun k => nth k (fst (eigh C)) 0) (mget C) eigh_decomposed
                l Hl).
  apply C_psd.
Qed.

Lemma raw_sorted_nonneg (x : R) : In x (raw_sorted C) -> 0 <= x.
Proof.
  intros Hx. apply (Permutation_in _ raw_sorted_perm) in Hx.
  apply (In_nth _ _ 0) in Hx as (l & Hl & <-).
  apply eigh_values_nonneg. destruct C_shape as (Hw & _). lia.
Qed.

(** Sorting goes through, and clipping changes nothing. *)
Lemma sorted_eigh_exact :
  sorted_eigh C
  = Ok (raw_sorted C,
        tabulate (nrows C) (nrows C)
          (fun i k => mget (snd (eigh C)) i (nth k (raw_order C) 0%nat))).
Proof.
  rewrite sorted_eigh_clipped, clip_lo_nonneg; [reflexivity|].
  exact raw_sorted_nonneg.
Qed.

(** The sorted columns are orthonormal and still diagonalise [C]. *)
Lemma sorted_orthonormal (k l : nat) :
  (k < nrows C)%nat -> (l < nrows C)%nat ->
  big_sum (nrows C)
    (fun i => mget (snd (eigh C)) i (nth k (raw_order C) 0%nat)
              * mget (snd (eigh C)) i (nth l (raw_order C) 0%nat))
  = if (k =? l)%nat then 1 else 0.
Proof.
  intros Hk Hl.
  rewrite eigh_orthonormal by (apply perm_nth_lt; auto using raw_order_perm).
  destruct (Nat.eqb_spec k l) as [->|Hne].
  - now rewrite Nat.eqb_refl.
  - destruct (Nat.eqb_spec (nth k (raw_order C) 0%nat)
                (nth l (raw_order C) 0%nat)) as [E|]; [|reflexivity].
    exfalso. apply Hne.
    now apply (perm_nth_inj (nrows C) (raw_order C) k l raw_order_perm).
Qed.

Lemma sorted_decomposed (i j : nat) :
  (i < nrows C)%nat -> (j < nrows C)%nat ->
  mget C i j
  = big_sum (nrows C)
      (fun k => mget (snd (eigh C)) i (nth k (raw_order C) 0%nat)
                * nth (nth k (raw_order C) 0%nat) (fst (eigh C)) 0
                * mget (snd (eigh C)) j (nth k (raw_order C) 0%nat)).
Proof.
  intros Hi Hj. rewrite eigh_decomposed by assumption.
  symmetry.
  apply (big_sum_reindex (nrows C) (raw_order C)
           (fun l => mget (snd (eigh C)) i l * nth l (fst (eigh C)) 0
                     * mget (snd (eigh C)) j l)).
  apply raw_order_perm.
Qed.

(** The entries of the rank-[K] truncation. *)
Lemma truncation_entry (w : list R) (V : matrix) (K : Z) (i j : nat) :
  sorted_eigh C = Ok (w, V) ->
  (0 <= K <= Z.of_nat (nrows C))%Z ->
  (i < nrows C)%nat -> (j < nrows C)%nat ->
  mget (truncation V w K) i j
  = big_sum (Z.to_nat K)
      (fun k => mget (snd (eigh C)) i (nth k (raw_order C) 0%nat)
                * nth (nth k (raw_order C) 0%nat) (fst (eigh C)) 0
                * mget (snd (eigh C)) j (nth k (raw_order C) 0%nat)).
Proof.
  intros Hs HK Hi Hj. rewrite sorted_eigh_exact in Hs.
  injection Hs as <- <-.
  set (V := tabulate _ _ _).
  assert (HVr : nrows V = nrows C) by reflexivity.
  assert (HVc : ncols V = nrows C) by reflexivity.
  assert (HKV : (Z.to_nat K <= ncols V)%nat) by (rewrite HVc; lia).
  destruct (cols_to_shape K V ltac:(lia) HKV) as (Hcr & Hcc).
  unfold truncation. rewrite HVr, mget_tabulate by assumption.
  rewrite Hcc. apply big_sum_ext. intros k Hk.
  rewrite !mget_cols_to by (try lia; try assumption; now rewrite HVr).
  unfold V. rewrite !mget_tabulate by lia.
  rewrite slice_to_firstn, nth_firstn by lia.
  destruct (Nat.ltb_spec k (Z.to_nat K)); [|lia].
  rewrite raw_sorted_nth by lia. reflexivity.
Qed.

(** The truncation error is the root of the sum of the squares of the
    eigenvalues that are left out. *)
Lemma truncation_error_formula (w : list R) (V : matrix) (K : Z) :
  sorted_eigh C = Ok (w, V) ->
  (0 <= K <= Z.of_nat (nrows C))%Z ->
  truncation_error C V w K
  = sqrt (big_sum (nrows C)
            (fun k => if (k <? Z.to_nat K)%nat then 0
                      else nth k (raw_sorted C) 0 * nth k (raw_sorted C) 0)).
Proof.
  intros Hs HK. unfold truncation_error. f_equal. rewrite C_square.
  rewrite (big_sum_ext (nrows C) _
             (fun i => big_sum (nrows C) (fun j =>
                (mget C i j
                 - big_sum (Z.to_nat K)
                     (fun k =>
                        mget (snd (eigh C)) i (nth k (raw_order C) 0%nat)
                        * nth (nth k (raw_order C) 0%nat) (fst (eigh C)) 0
                        * mget (snd (eigh C)) j (nth k (raw_order C) 0%nat)))
                * (mget C i j
                   - big_sum (Z.to_nat K)
                       (fun k =>
                          mget (snd (eigh C)) i (nth k (raw_order C) 0%nat)
                          * nth (nth k (raw_order C) 0%nat) (fst (eigh C)) 0
                          * mget (snd (eigh C)) j
                              (nth k (raw_order C) 0%nat)))))).
  - rewrite (truncation_residual (nrows C)
               (fun i k => mget (snd (eigh C)) i (nth k (raw_order C) 0%nat))
               sorted_orthonormal
               (fun k => nth (nth k (raw_order C) 0%nat) (fst (eigh C)) 0)
               (mget C) sorted_decomposed (Z.to_nat K)) by lia.
    apply big_sum_ext. intros k Hk.
    now rewrite raw_sorted_nth by assumption.
  - intros i Hi. apply big_sum_ext. intros j Hj.
    now rewrite (truncation_entry w V K i j Hs HK Hi Hj).
Qed.

Lemma truncation_error_decreasing (w : list R) (V : matrix) (K1 K2 : Z) :
  sorted_eigh C = Ok (w, V) ->
  (0 <= K1 <= K2)%Z -> (K2 <= Z.of_nat (nrows C))%Z ->
  truncation_error C V w K2 <= truncation_error C V w K1.
Proof.
  intros Hs HK1 HK2.
  rewrite !(truncation_error_formula w V) by (try assumption; lia).
  apply sqrt_le_1_alt, big_sum_le. intros k Hk.
  destruct (Nat.ltb_spec k (Z.to_nat K2)), (Nat.ltb_spec k (Z.to_nat K1));
    try lra; try lia.
  apply Rle_0_sqr.
Qed.

Lemma truncation_error_full (w : list R) (V : matrix) :
  sorted_eigh C = Ok (w, V) ->
  truncation_error C V w (Z.of_nat (nrows C)) = 0.
Proof.
  intros Hs. rewrite (truncation_error_formula w V) by (try assumption; lia).
  rewrite big_sum_zero; [apply sqrt_0|].
  intros k Hk. destruct (Nat.ltb_spec k (Z.to_nat (Z.of_nat (nrows C))));
    [reflexivity|lia].
Qed.

End SortedEigenpairs.

(** ** Claims about the sorted eigenpairs *)

Section SpectralClaims.

Context {np : Numpy}.

Hypothesis argsort_perm :
  forall w, Permutation (argsort w) (seq 0 (length w)).
Hypothesis argsort_sorted :
  forall w, StronglySorted Rle (map (fun j => nth j w 0) (argsort w)).

(** The covariance matrix that [fbm_kl_truncated] builds: square, of the
    size of the grid, positive semidefinite. *)
Lemma sampler_covariance (H T : R) (n_steps : Z) :
  0 < H < 1 -> 0 < T -> (1 <= n_steps)%Z ->
  exists C,
    fbm_covariance_grid
      (array1d (linspace 0 T (Z.to_nat (n_steps + 1)))) H = Ok C
    /\ nrows C = Z.to_nat (n_steps + 1)
    /\ ncols C = nrows C
    /\ forall x, 0 <= quad_form (nrows C) x (mget C).
Proof.
  intros HH HT Hn.
  replace (Z.to_nat (n_steps + 1)) with (S (Z.to_nat n_steps)) by lia.
  destruct (fbm_covariance_grid_entries
              (linspace 0 T (S (Z.to_nat n_steps))) H HH)
    as (C & HC & Hr & Hc & _ & _).
  rewrite linspace_length in Hr, Hc by lia.
  exists C. repeat split; try congruence.
  intros x. rewrite Hr.
  apply (covariance_psd H T (Z.to_nat n_steps) C x); auto. lia.
Qed.

(** C3.  The eigenpairs are put in descending order of the eigenvalues
    as [eigh] returns them, and clipped afterwards: whatever [eigh]
    returns, no entry of [w] is negative, [w] does not increase, and an
    eigenvalue that is positive is kept as it is, so the positive ones
    stay ordered by value.  With an exact eigendecomposition, on every
    valid input, the retained [w[:K]] are the [K] largest eigenvalues of
    [C], in non-increasing order. *)
Theorem sorted_then_clipped (H T : R) (K n_steps : Z) :
  0 < H < 1 -> 0 < T -> (1 <= n_steps)%Z -> (1 <= K <= n_steps + 1)%Z ->
  exists C,
    fbm_covariance_grid
      (array1d (linspace 0 T (Z.to_nat (n_steps + 1)))) H = Ok C
    /\ (eigh_well_shaped C ->
        exists w V,
          sorted_eigh C = Ok (w, V)
          /\ Permutation (raw_order C) (seq 0 (nrows C))
          /\ Permutation (raw_sorted C) (fst (eigh C))
          /\ StronglySorted Rge (raw_sorted C)
          /\ w = clip_lo (raw_sorted C) 0
          /\ (forall i k, (i < nrows C)%nat -> (k < nrows C)%nat ->
                mget V i k
                = mget (snd (eigh C)) i (nth k (raw_order C) 0%nat))
          /\ (forall x, In x w -> 0 <= x)
          /\ StronglySorted Rge w
          /\ (forall k, 0 < nth k (raw_sorted C) 0 ->
                nth k w 0 = nth k (raw_sorted C) 0))
    /\ (exact_eigh C (fst (eigh C)) (snd (eigh C)) ->
        exists w V,
          sorted_eigh C = Ok (w, V)
          /\ (forall x, In x (fst (eigh C)) -> is_eigenvalue C x)
          /\ slice_to K w = firstn (Z.to_nat K) (raw_sorted C)
          /\ (forall x y,
                In x (slice_to K w) ->
                In y (skipn (Z.to_nat K) (raw_sorted C)) -> y <= x)
          /\ StronglySorted Rge (slice_to K w)
          /\ (forall x, In x w -> 0 <= x)).
Proof.
  intros HH HT Hn HK.
  destruct (sampler_covariance H T n_steps HH HT Hn)
    as (C & HC & Hr & Hsq & Hpsd).
  exists C. split; [exact HC|]. split.
  - intros Hshape.
    assert (Hdesc : StronglySorted Rge (raw_sorted C))
      by (apply raw_sorted_descending; assumption).
    eexists _, _. split; [apply sorted_eigh_clipped; assumption|].
    repeat split.
    + now apply raw_order_perm.
    + now apply raw_sorted_perm.
    + exact Hdesc.
    + intros i k Hi Hk. now rewrite mget_tabulate.
    + apply clip_lo_result_nonneg.
    + now apply clip_lo_descending.
    + apply clip_lo_keeps_positive.
  - intros Hex.
    pose proof (exact_eigh_well_shaped C Hex) as Hshape.
    assert (Hpos : forall x, In x (raw_sorted C) -> 0 <= x)
      by (intros x; apply raw_sorted_nonneg; assumption).
    assert (Hdesc : StronglySorted Rge (raw_sorted C))
      by (apply raw_sorted_descending; assumption).
    eexists _, _. split; [apply sorted_eigh_exact; assumption|].
    rewrite slice_to_firstn by lia.
    repeat split.
    + intros x Hx. apply (In_nth _ _ 0) in Hx as (l & Hl & <-).
      apply eigh_values_are_eigenvalues; auto.
      destruct Hshape as (Hw & _). lia.
    + intros x y Hx Hy.
      now apply (StronglySorted_split (Z.to_nat K) _ Hdesc).
    + now apply StronglySorted_firstn.
    + exact Hpos.
Qed.

(** C7.  With an exact orthonormal eigendecomposition, the Frobenius norm
    of [C - V[:, :K] diag(w[:K]) V[:, :K]^T] does not increase as [K]
    goes from 1 to [N], and it is 0 at [K = N]. *)
Theorem truncation_error_monotone (H T : R) (n_steps : Z) :
  0 < H < 1 -> 0 < T -> (1 <= n_steps)%Z ->
  exists C,
    fbm_covariance_grid
      (array1d (linspace 0 T (Z.to_nat (n_steps + 1)))) H = Ok C
    /\ (exact_eigh C (fst (eigh C)) (snd (eigh C)) ->
        exists w V,
          sorted_eigh C = Ok (w, V)
          /\ (forall K1 K2, (1 <= K1 <= K2)%Z -> (K2 <= n_steps + 1)%Z ->
                truncation_error C V w K2 <= truncation_error C V w K1)
          /\ truncation_error C V w (n_steps + 1) = 0).
Proof.
  intros HH HT Hn.
  destruct (sampler_covariance H T n_steps HH HT Hn)
    as (C & HC & Hr & Hsq & Hpsd).
  exists C. split; [exact HC|]. intros Hex.
  pose proof (exact_eigh_well_shaped C Hex) as Hshape.
  assert (Hs : sorted_eigh C = Ok (_, _))
    by (apply sorted_eigh_exact; assumption).
  eexists _, _. split; [exact Hs|]. split.
  - intros K1 K2 HK1 HK2.
    apply truncation_error_decreasing; try assumption; lia.
  - replace (n_steps + 1)%Z with (Z.of_nat (nrows C)) by lia.
    apply truncation_error_full; assumption.
Qed.

End SpectralClaims.

(** ** The diagonal stand-in for [eigh] is exact on diagonal matrices *)

Lemma eigh_diagonal_exact (C : matrix) :
  ncols C = nrows C ->
  (forall i j, (i < nrows C)%nat -> (j < nrows C)%nat -> i <> j ->
     mget C i j = 0) ->
  exact_eigh C (fst (eigh_diagonal C)) (snd (eigh_diagonal C)).
Proof.
  intros Hsq Hoff. unfold eigh_diagonal. cbn [fst snd].
  repeat split.
  - now rewrite length_map, length_seq.
  - intros k l Hk Hl. cbn [nrows ncols tabulate] in *.
    rewrite (big_sum_ext (nrows C) _
               (fun i => if (i =? k)%nat
                         then (if (i =? l)%nat then 1 else 0) else 0)).
    + now rewrite (big_sum_delta (nrows C) k
                     (fun i => if (i =? l)%nat then 1 else 0) Hk).
    + intros i Hi. rewrite !mget_tabulate by assumption.
      destruct (i =? k)%nat, (i =? l)%nat; ring.
  - intros i j Hi Hj.
    rewrite (big_sum_ext (nrows C) _
               (fun k => if (k =? i)%nat
                         then mget C k k * (if (j =? k)%nat then 1 else 0)
                         else 0)).
    + rewrite (big_sum_delta (nrows C) i
                 (fun k => mget C k k * (if (j =? k)%nat then 1 else 0)) Hi).
      destruct (Nat.eqb_spec j i) as [->|Hne]; [ring|].
      rewrite Hoff by auto. ring.
    + intros k Hk. rewrite !mget_tabulate by assumption.
      rewrite nth_tabulate_row by assumption.
      rewrite (Nat.eqb_sym i k).
      destruct (k =? i)%nat; ring.
Qed.

(** On the grid [0, 1] with one step the covariance matrix is diagonal,
    so the stand-in is exact there. *)
Lemma one_step_covariance_exact (C : matrix) :
  fbm_covariance_grid (array1d (linspace 0 1 2)) (1 / 2) = Ok C ->
  @exact_eigh C (fst (@eigh simple_numpy C)) (snd (@eigh simple_numpy C)).
Proof.
  intros HC.
  destruct (fbm_covariance_grid_entries (linspace 0 1 2) (1 / 2)
              ltac:(lra)) as (C' & HC' & Hr & Hc & _ & Hent).
  rewrite HC in HC'. injection HC' as <-.
  rewrite (linspace_length 1 1) in Hr, Hc, Hent by lia.
  apply eigh_diagonal_exact; [congruence|].
  rewrite Hr. intros i j Hi Hj Hne. rewrite Hent by assumption.
  assert (H0 : nth 0 (linspace 0 1 2) 0 = 0) by (apply linspace_origin; lia).
  destruct i as [|i].
  - rewrite H0. apply R_H_origin_l. lra.
  - destruct j as [|j]; [|lia].
    rewrite H0. apply R_H_origin_r. lra.
Qed.

Lemma sorted_then_clipped_witness :
  exists C w V,
    fbm_covariance_grid (array1d (linspace 0 1 2)) (1 / 2) = Ok C
    /\ @sorted_eigh simple_numpy C = Ok (w, V)
    /\ slice_to 1 w = firstn 1 (@raw_sorted simple_numpy C)
    /\ forall x, In x w -> 0 <= x.
Proof.
  destruct (@sorted_then_clipped simple_numpy insertion_argsort_perm
              insertion_argsort_sorted (1 / 2) 1 1 1)
    as (C & HC & Hex); try lra; try lia.
  destruct Hex as (Hshape & Hex).
  destruct (Hshape (exact_eigh_well_shaped C (one_step_covariance_exact C HC)))
    as (w' & V' & Hs' & _).
  destruct (Hex (one_step_covariance_exact C HC))
    as (w & V & Hs & _ & Hk & _ & _ & Hpos).
  exists C, w, V. auto.
Defined.

Lemma truncation_error_monotone_witness :
  exists C w V,
    fbm_covariance_grid (array1d (linspace 0 1 2)) (1 / 2) = Ok C
    /\ @sorted_eigh simple_numpy C = Ok (w, V)
    /\ truncation_error C V w 2 <= truncation_error C V w 1
    /\ truncation_error C V w 2 = 0.
Proof.
  destruct (@truncation_error_monotone simple_numpy insertion_argsort_perm
              (1 / 2) 1 1)
    as (C & HC & Hex); try lra; try lia.
  destruct (Hex (one_step_covariance_exact C HC))
    as (w & V & Hs & Hmono & Hfull).
  exists C, w, V. repeat split; auto.
  apply Hmono; lia.
Defined.

(** ** Grids with repeated points *)

Section RepeatedPoints.

Variable beta : R.
Hypothesis beta_range : 0 < beta < 1.

Variable n : nat.
Variables t c : nat -> R.
Hypothesis c_sum : big_sum n c = 0.

(** It is positive semidefinite: a Gaussian kernel that is narrow enough
    is as close to it as wanted. *)
Lemma quad_form_same_point : 0 <= quad_form n c (same_point t).
Proof.
  apply (le_by_eps _ _ _ (abs_sum_square_nonneg n c)).
  intros eps He.
  destruct (eventually_all n
              (fun i m => forall j, (j < n)%nat -> sqdist t i j <> 0 ->
                 exp (- (INR m * sqdist t i j)) < eps))
    as [M HM].
  { intros i Hi.
    apply (eventually_all n
             (fun j m => sqdist t i j <> 0 ->
                exp (- (INR m * sqdist t i j)) < eps)).
    intros j Hj.
    destruct (Req_dec_T (sqdist t i j) 0) as [E|Hne].
    - exists 0%nat. intros m _ Hd. contradiction.
    - assert (Hd : 0 < sqdist t i j)
        by (pose proof (sqdist_nonneg t i j); lra).
      destruct (pow_lt_1_zero (exp (- sqdist t i j))) with (y := eps)
        as [M HM]; [|assumption|].
      + rewrite Rabs_pos_eq by (left; apply exp_pos).
        rewrite <- exp_0. apply exp_increasing. lra.
      + exists M. intros m Hm _.
        specialize (HM m Hm).
        rewrite Rabs_pos_eq in HM by (apply pow_le; left; apply exp_pos).
        rewrite exp_pow in HM.
        now replace (- (INR m * sqdist t i j))
          with (INR m * - sqdist t i j) by ring. }
  apply Rle_trans
    with (quad_form n c
            (fun i j => exp (- (INR M * ((t i - t j) * (t i - t j)))))).
  - apply quad_form_gaussian, pos_INR.
  - apply quad_form_close. intros i j Hi Hj.
    assert (Hcc : 0 <= Rabs (c i) * Rabs (c j))
      by (apply Rmult_le_pos; apply Rabs_pos).
    fold (sqdist t i j). unfold same_point.
    destruct (Req_dec_T (sqdist t i j) 0) as [E|Hne].
    + rewrite E, Rmult_0_r, Ropp_0, exp_0, Rminus_diag, Rmult_0_r. nra.
    + specialize (HM M (Nat.le_refl M) i Hi j Hj Hne).
      rewrite Rminus_0_r.
      set (e := exp _) in *.
      assert (0 < e) by apply exp_pos.
      assert (Hb : c i * c j * e <= Rabs (c i * c j * e)) by apply Rle_abs.
      rewrite !Rabs_mult, (Rabs_pos_eq e) in Hb by lra. nra.
Qed.

(** The kernel [(1 - exp (- s d^2))^beta] is conditionally negative
    definite, whether or not points coincide. *)
Lemma quad_form_one_minus_exp_any (s : R) :
  0 < s ->
  quad_form n c
    (fun i j => np_power (1 - exp (- (s * sqdist t i j))) beta) <= 0.
Proof.
  intros Hs.
  apply (le_by_eps _ _ _ (abs_sum_square_nonneg n c)).
  intros eps He.
  destruct (eventually_all n
              (fun i m => forall j, (j < n)%nat -> sqdist t i j <> 0 ->
                 Rabs (binom_partial beta m (exp (- (s * sqdist t i j)))
                       - Rpower (1 - exp (- (s * sqdist t i j))) beta) < eps))
    as [M HM].
  { intros i Hi.
    apply (eventually_all n
             (fun j m => sqdist t i j <> 0 ->
                Rabs (binom_partial beta m (exp (- (s * sqdist t i j)))
                      - Rpower (1 - exp (- (s * sqdist t i j))) beta) < eps)).
    intros j Hj.
    destruct (Req_dec_T (sqdist t i j) 0) as [E|Hne].
    - exists 0%nat. intros m _ Hd. contradiction.
    - assert (Hd : 0 < sqdist t i j)
        by (pose proof (sqdist_nonneg t i j); lra).
      destruct (binom_partial_close beta beta_range
                  (exp (- (s * sqdist t i j))) eps) as [M HM]; auto.
      + split; [left; apply exp_pos|].
        rewrite <- exp_0. apply exp_increasing. nra.
      + exists M. intros m Hm _. now apply HM. }
  pose proof (binom_prod_range beta beta_range M) as HP.
  apply Rle_trans
    with (quad_form n c
            (fun i j => binom_partial beta M (exp (- (s * sqdist t i j)))
                        + - binom_prod beta M * same_point t i j)
          + eps * (big_sum n (fun i => Rabs (c i))
                   * big_sum n (fun i => Rabs (c i)))).
  - apply quad_form_close. intros i j Hi Hj.
    assert (Hcc : 0 <= Rabs (c i) * Rabs (c j))
      by (apply Rmult_le_pos; apply Rabs_pos).
    unfold same_point.
    destruct (Req_dec_T (sqdist t i j) 0) as [E|Hne].
    + rewrite E, Rmult_0_r, Ropp_0, exp_0, Rminus_diag.
      rewrite np_power_0 by lra.
      rewrite binom_partial_at_1 by assumption.
      replace (0 - (binom_prod beta M + - binom_prod beta M * 1)) with 0
        by ring.
      rewrite Rmult_0_r. nra.
    + assert (Hd : 0 < sqdist t i j)
        by (pose proof (sqdist_nonneg t i j); lra).
      specialize (HM M (Nat.le_refl M) i Hi j Hj Hne).
      rewrite np_power_pos.
      2:{ assert (exp (- (s * sqdist t i j)) < exp 0)
            by (apply exp_increasing; nra).
          rewrite exp_0 in *. lra. }
      set (e := binom_partial _ _ _ - Rpower _ _) in HM.
      replace (Rpower _ beta - (binom_partial _ _ _ + _)) with (- e)
        by (unfold e; ring).
      assert (Hb : c i * c j * - e <= Rabs (c i * c j * - e))
        by apply Rle_abs.
      rewrite !Rabs_mult, Rabs_Ropp in Hb. nra.
  - rewrite quad_form_plus, quad_form_scal.
    pose proof (quad_form_binom_partial beta beta_range n t c c_sum s M Hs).
    pose proof quad_form_same_point. nra.
Qed.

(** The kernel [(d^2)^beta] is conditionally negative definite, whether
    or not points coincide. *)
Lemma quad_form_power_distance_any :
  quad_form n c (fun i j => np_power (sqdist t i j) beta) <= 0.
Proof.
  set (B := big_sum n (fun i => big_sum n (fun j =>
              np_power (sqdist t i j) beta * sqdist t i j))).
  assert (HB : 0 <= B).
  { apply big_sum_nonneg. intros i _. apply big_sum_nonneg. intros j _.
    apply Rmult_le_pos; [apply np_power_nonneg|]; apply sqdist_nonneg. }
  set (D := big_sum n (fun i => Rabs (c i))
            * big_sum n (fun i => Rabs (c i))).
  apply (le_by_eps _ _ (B * D)).
  { apply Rmult_le_pos; [assumption|apply abs_sum_square_nonneg]. }
  intros s Hs.
  apply Rle_trans
    with (quad_form n c
            (fun i j => Rpower s (- beta)
                        * np_power (1 - exp (- (s * sqdist t i j))) beta)
          + (s * B) * D).
  2:{ rewrite quad_form_scal.
      pose proof (quad_form_one_minus_exp_any s Hs).
      assert (0 < Rpower s (- beta)) by (unfold Rpower; apply exp_pos).
      nra. }
  apply quad_form_close. intros i j Hi Hj.
  pose proof (sqdist_nonneg t i j) as Hd.
  destruct (one_minus_exp_squeeze beta beta_range s (sqdist t i j) Hs Hd)
    as [Hlo Hhi].
  set (p := np_power (sqdist t i j) beta) in *.
  set (q := Rpower s (- beta) * _) in *.
  assert (Hp : 0 <= p) by (apply np_power_nonneg; assumption).
  assert (Hterm : p * sqdist t i j <= B).
  { unfold B.
    apply Rle_trans
      with (big_sum n (fun j' =>
              np_power (sqdist t i j') beta * sqdist t i j')).
    - apply (big_sum_term_le n j
               (fun j' => np_power (sqdist t i j') beta * sqdist t i j'));
        auto.
      intros j' _. apply Rmult_le_pos;
        [apply np_power_nonneg|]; apply sqdist_nonneg.
    - apply (big_sum_term_le n i
               (fun i' => big_sum n (fun j' =>
                  np_power (sqdist t i' j') beta * sqdist t i' j'))); auto.
      intros i' _. apply big_sum_nonneg. intros j' _.
      apply Rmult_le_pos; [apply np_power_nonneg|]; apply sqdist_nonneg. }
  assert (Hgap : 0 <= p - q <= s * B).
  { split; [lra|].
    assert (H1 : 0 < 1 + s * sqdist t i j) by nra.
    assert (Hpq : p - q <= p - p * / (1 + s * sqdist t i j)) by lra.
    assert (Hfrac : p - p * / (1 + s * sqdist t i j)
                    = s * (p * sqdist t i j) * / (1 + s * sqdist t i j))
      by (field; lra).
    assert (Hinv : / (1 + s * sqdist t i j) <= 1).
    { rewrite <- Rinv_1. apply Rinv_le_contravar; nra. }
    assert (Hinv0 : 0 < / (1 + s * sqdist t i j))
      by now apply Rinv_0_lt_compat.
    assert (0 <= s * (p * sqdist t i j)).
    { apply Rmult_le_pos; [lra|]. now apply Rmult_le_pos. }
    nra. }
  assert (Hb : c i * c j * (p - q) <= Rabs (c i * c j * (p - q)))
    by apply Rle_abs.
  rewrite !Rabs_mult in Hb.
  rewrite (Rabs_pos_eq (p - q)) in Hb by lra.
  assert (0 <= Rabs (c i) * Rabs (c j))
    by (apply Rmult_le_pos; apply Rabs_pos).
  nra.
Qed.

End RepeatedPoints.

Lemma big_sum_shift (n : nat) (f : nat -> R) :
  big_sum (S n) f = f 0%nat + big_sum n (fun i => f (S i)).
Proof.
  induction n as [|n IH].
  - rewrite big_sum_S, !big_sum_0. lra.
  - rewrite big_sum_S, IH, (big_sum_S n). lra.
Qed.

(** The covariance kernel is positive semidefinite on every family of
    points that starts at 0. *)
Lemma quad_form_R_H_from_origin (H : R) (n : nat) (t x : nat -> R) :
  0 < H < 1 -> t 0%nat = 0 ->
  0 <= quad_form n x (fun i j => R_H H (t i) (t j)).
Proof.
  intros HH Ht0.
  destruct n as [|n'] eqn:En.
  { unfold quad_form. rewrite big_sum_0. lra. }
  rewrite <- En in *.
  assert (Hn : (0 < n)%nat) by lia. clear En.
  set (c := fun i => x i - (if (i =? 0)%nat then big_sum n x else 0)).
  assert (Hc : big_sum n c = 0).
  { unfold c. rewrite big_sum_minus.
    rewrite (big_sum_delta n 0 (fun _ => big_sum n x)) by assumption. lra. }
  assert (Hsame : quad_form n x (fun i j => R_H H (t i) (t j))
                  = quad_form n c (fun i j => R_H H (t i) (t j))).
  { unfold quad_form. apply big_sum_ext. intros i _.
    apply big_sum_ext. intros j _. unfold c.
    destruct (Nat.eqb_spec i 0) as [->|Hi].
    - rewrite Ht0, R_H_origin_l by assumption. ring.
    - destruct (Nat.eqb_spec j 0) as [->|Hj].
      + rewrite Ht0, R_H_origin_r by assumption. ring.
      + ring. }
  rewrite Hsame.
  pose proof (quad_form_power_distance_any H HH n t c Hc) as Hcnd.
  assert (Hsplit :
    quad_form n c (fun i j => np_power (sqdist t i j) H)
    = quad_form n c (fun i _ => np_power (Rabs (t i)) (2 * H))
      + (quad_form n c (fun _ j => np_power (Rabs (t j)) (2 * H))
         + (-2) * quad_form n c (fun i j => R_H H (t i) (t j)))).
  { rewrite <- quad_form_scal, <- !quad_form_plus.
    apply quad_form_ext. intros i j _ _.
    unfold sqdist, R_H.
    rewrite <- (np_power_abs_sq H (t i - t j)) by lra. lra. }
  rewrite quad_form_left, quad_form_right in Hsplit by assumption.
  lra.
Qed.

(** The covariance kernel is positive semidefinite on every family of
    points. *)
Lemma quad_form_R_H_any (H : R) (n : nat) (t x : nat -> R) :
  0 < H < 1 -> 0 <= quad_form n x (fun i j => R_H H (t i) (t j)).
Proof.
  intros HH.
  set (t' := fun i => match i with O => 0 | S k => t k end).
  set (x' := fun i => match i with O => 0 | S k => x k end).
  assert (E : quad_form (S n) x' (fun i j => R_H H (t' i) (t' j))
              = quad_form n x (fun i j => R_H H (t i) (t j))).
  { unfold quad_form. rewrite big_sum_shift.
    rewrite big_sum_zero by (intros j _; cbn; ring).
    rewrite Rplus_0_l. apply big_sum_ext. intros i _.
    rewrite big_sum_shift. cbn [x' t']. ring_simplify.
    apply big_sum_ext. intros j _. ring. }
  rewrite <- E. now apply quad_form_R_H_from_origin.
Qed.

(** The Cauchy-Schwarz inequality of the kernel. *)
Lemma R_H_cauchy_schwarz (H s t : R) :
  0 < H < 1 -> R_H H s t * R_H H s t <= R_H H s s * R_H H t t.
Proof.
  intros HH.
  assert (Hq : forall a b,
            0 <= a * a * R_H H s s + 2 * (a * b) * R_H H s t
                 + b * b * R_H H t t).
  { intros a b.
    pose proof (quad_form_R_H_any H 2
                  (fun i => match i with O => s | _ => t end)
                  (fun i => match i with O => a | _ => b end) HH) as Hp.
    unfold quad_form, big_sum in Hp. cbn in Hp.
    rewrite (R_H_sym H t s) in Hp. lra. }
  assert (Htt : 0 <= R_H H t t).
  { rewrite R_H_diag by lra. apply np_power_nonneg, Rabs_pos. }
  destruct Htt as [Hpos|Hzero].
  - pose proof (Hq (R_H H t t) (- R_H H s t)) as Hd.
    assert (Hd' : 0 <= R_H H t t
                       * (R_H H s s * R_H H t t - R_H H s t * R_H H s t))
      by lra.
    apply Rnot_lt_le. intros Hlt.
    assert (R_H H t t
            * (R_H H s s * R_H H t t - R_H H s t * R_H H s t) < 0)
      by (apply Ropp_lt_cancel; rewrite Ropp_0; nra).
    lra.
  - rewrite <- Hzero, Rmult_0_r.
    destruct (Req_dec (R_H H s t) 0) as [E|Hne]; [rewrite E; lra|].
    exfalso.
    pose proof (Hq 1 (- (R_H H s s + 1) / (2 * R_H H s t))) as Hd.
    rewrite <- Hzero in Hd.
    replace (1 * 1 * R_H H s s
             + 2 * (1 * (- (R_H H s s + 1) / (2 * R_H H s t))) * R_H H s t
             + - (R_H H s s + 1) / (2 * R_H H s t)
               * (- (R_H H s s + 1) / (2 * R_H H s t)) * 0)
      with (-1) in Hd by (field; assumption).
    lra.
Qed.

(** ** More about the covariance matrix *)

Lemma np_power_monotone (x y a : R) :
  0 < a -> 0 <= x <= y -> np_power x a <= np_power y a.
Proof.
  intros Ha [[Hx| <-] Hxy].
  - rewrite !np_power_pos by lra. apply Rle_Rpower_l; lra.
  - rewrite np_power_0 by assumption. now apply np_power_nonneg.
Qed.

Lemma np_power_scale (a x p : R) :
  0 < a -> 0 <= x -> 0 < p ->
  np_power (a * x) p = Rpower a p * np_power x p.
Proof.
  intros Ha [Hx| <-] Hp.
  - rewrite !np_power_pos by nra. now rewrite Rpower_mult_distr.
  - rewrite Rmult_0_r, np_power_0 by assumption. ring.
Qed.

Lemma R_H_scale (H a s t : R) :
  0 < H -> 0 < a ->
  R_H H (a * s) (a * t) = Rpower a (2 * H) * R_H H s t.
Proof.
  intros HH Ha. unfold R_H.
  replace (a * s - a * t) with (a * (s - t)) by ring.
  rewrite !Rabs_mult, (Rabs_pos_eq a) by lra.
  rewrite !np_power_scale by (try apply Rabs_pos; lra). ring.
Qed.

Lemma R_H_increment (H s t : R) :
  0 < H ->
  R_H H s s + R_H H t t - 2 * R_H H s t = np_power (Rabs (s - t)) (2 * H).
Proof.
  intros HH. rewrite !R_H_diag by assumption. unfold R_H. lra.
Qed.

Lemma R_H_nonneg (H s t : R) :
  0 < H -> 0 <= s -> 0 <= t -> 0 <= R_H H s t.
Proof.
  intros HH Hs Ht. unfold R_H.
  rewrite (Rabs_pos_eq s), (Rabs_pos_eq t) by assumption.
  assert (Hp : 0 < 2 * H) by lra.
  pose proof (np_power_nonneg s (2 * H) Hs).
  pose proof (np_power_nonneg t (2 * H) Ht).
  destruct (Rle_dec t s) as [Hle|Hgt].
  - rewrite (Rabs_pos_eq (s - t)) by lra.
    pose proof (np_power_monotone (s - t) s (2 * H) Hp ltac:(lra)). lra.
  - rewrite Rabs_minus_sym, (Rabs_pos_eq (t - s)) by lra.
    pose proof (np_power_monotone (t - s) t (2 * H) Hp ltac:(lra)). lra.
Qed.

Lemma R_H_reflect (H s t : R) : R_H H (- s) (- t) = R_H H s t.
Proof.
  unfold R_H. rewrite !Rabs_Ropp.
  replace (- s - - t) with (- (s - t)) by ring.
  now rewrite Rabs_Ropp.
Qed.

(** ** Further properties of [fbm_covariance_grid]

    All of them in exact arithmetic, as the rest of the development: the
    inequalities and identities below are those of the matrix over the
    real numbers, which the binary64 output approaches up to rounding. *)

(** A grid point at time 0 gives a row and a column of zeros. *)
Theorem covariance_zero_time (t : list R) (H : R) (i : nat) :
  0 < H < 1 -> (i < length t)%nat -> nth i t 0 = 0 ->
  exists C,
    fbm_covariance_grid (array1d t) H = Ok C
    /\ forall j, (j < length t)%nat -> mget C i j = 0 /\ mget C j i = 0.
Proof.
  intros HH Hi Hz.
  destruct (fbm_covariance_grid_entries t H HH)
    as (C & HC & _ & _ & _ & Hent).
  exists C. split; [exact HC|]. intros j Hj.
  rewrite !Hent, Hz by assumption.
  split; [apply R_H_origin_l|apply R_H_origin_r]; lra.
Qed.

Lemma covariance_zero_time_witness :
  exists C,
    fbm_covariance_grid (array1d [2; 0; 5]) (1 / 3) = Ok C
    /\ mget C 1 2 = 0 /\ mget C 0 1 = 0.
Proof.
  destruct (covariance_zero_time [2; 0; 5] (1 / 3) 1)
    as (C & HC & Hz); [lra|simpl; lia|reflexivity|].
  exists C. split; [exact HC|].
  split; [apply (Hz 2%nat)|apply (Hz 0%nat)]; simpl; lia.
Defined.

(** On every grid, sorted or not, with or without repeated or negative
    points, the matrix is positive semidefinite. *)
Theorem covariance_positive_semidefinite (t : list R) (H : R) :
  0 < H < 1 ->
  exists C,
    fbm_covariance_grid (array1d t) H = Ok C
    /\ forall x : nat -> R, 0 <= quad_form (length t) x (mget C).
Proof.
  intros HH.
  destruct (fbm_covariance_grid_entries t H HH)
    as (C & HC & _ & _ & _ & Hent).
  exists C. split; [exact HC|]. intros x.
  rewrite (quad_form_ext (length t) x (mget C)
             (fun i j => R_H H (nth i t 0) (nth j t 0)))
    by (intros i j Hi Hj; now apply Hent).
  now apply quad_form_R_H_any.
Qed.

Lemma covariance_positive_semidefinite_witness :
  exists C,
    fbm_covariance_grid (array1d [3; -1; 3; 0]) (3 / 4) = Ok C
    /\ 0 <= quad_form 4 (fun i => INR i - 2) (mget C).
Proof.
  destruct (covariance_positive_semidefinite [3; -1; 3; 0] (3 / 4))
    as (C & HC & Hpsd); [lra|].
  exists C. split; [exact HC|]. apply Hpsd.
Defined.

(** In exact arithmetic, no covariance exceeds the geometric mean of the
    two variances. *)
Theorem covariance_cauchy_schwarz (t : list R) (H : R) :
  0 < H < 1 ->
  exists C,
    fbm_covariance_grid (array1d t) H = Ok C
    /\ forall i j, (i < length t)%nat -> (j < length t)%nat ->
         mget C i j * mget C i j <= mget C i i * mget C j j.
Proof.
  intros HH.
  destruct (fbm_covariance_grid_entries t H HH)
    as (C & HC & _ & _ & _ & Hent).
  exists C. split; [exact HC|]. intros i j Hi Hj.
  rewrite !Hent by assumption. now apply R_H_cauchy_schwarz.
Qed.

Lemma covariance_cauchy_schwarz_witness :
  exists C,
    fbm_covariance_grid (array1d [1; 4]) (1 / 4) = Ok C
    /\ mget C 0 1 * mget C 0 1 <= mget C 0 0 * mget C 1 1.
Proof.
  destruct (covariance_cauchy_schwarz [1; 4] (1 / 4))
    as (C & HC & Hcs); [lra|].
  exists C. split; [exact HC|]. apply Hcs; simpl; lia.
Defined.

(** Self-similarity, in exact arithmetic: stretching the grid by [a > 0]
    multiplies the matrix by [a^(2H)]. *)
Theorem covariance_self_similar (t : list R) (H a : R) :
  0 < H < 1 -> 0 < a ->
  exists C Ca,
    fbm_covariance_grid (array1d t) H = Ok C
    /\ fbm_covariance_grid (array1d (map (Rmult a) t)) H = Ok Ca
    /\ nrows Ca = nrows C /\ ncols Ca = ncols C
    /\ forall i j, (i < length t)%nat -> (j < length t)%nat ->
         mget Ca i j = Rpower a (2 * H) * mget C i j.
Proof.
  intros HH Ha.
  destruct (fbm_covariance_grid_entries t H HH)
    as (C & HC & Hr & Hc & _ & Hent).
  destruct (fbm_covariance_grid_entries (map (Rmult a) t) H HH)
    as (Ca & HCa & Hra & Hca & _ & Henta).
  rewrite length_map in Hra, Hca, Henta.
  exists C, Ca. repeat split; try assumption; try congruence.
  intros i j Hi Hj. rewrite Hent, Henta by assumption.
  rewrite !nth_map_R by assumption. apply R_H_scale; lra.
Qed.

Lemma covariance_self_similar_witness :
  exists C Ca,
    fbm_covariance_grid (array1d [0; 1; 2]) (1 / 2) = Ok C
    /\ fbm_covariance_grid (array1d (map (Rmult 3) [0; 1; 2])) (1 / 2) = Ok Ca
    /\ mget Ca 1 2 = Rpower 3 (2 * (1 / 2)) * mget C 1 2.
Proof.
  destruct (covariance_self_similar [0; 1; 2] (1 / 2) 3)
    as (C & Ca & HC & HCa & _ & _ & Hs); [lra|lra|].
  exists C, Ca. repeat split; try assumption. apply Hs; simpl; lia.
Defined.

(** In exact arithmetic, the variance of an increment that the matrix
    implies depends on the time difference only:
    [C_ii + C_jj - 2 C_ij = |t_i - t_j|^(2H)]. *)
Theorem covariance_increment (t : list R) (H : R) :
  0 < H < 1 ->
  exists C,
    fbm_covariance_grid (array1d t) H = Ok C
    /\ forall i j, (i < length t)%nat -> (j < length t)%nat ->
         mget C i i + mget C j j - 2 * mget C i j
         = np_power (Rabs (nth i t 0 - nth j t 0)) (2 * H).
Proof.
  intros HH.
  destruct (fbm_covariance_grid_entries t H HH)
    as (C & HC & _ & _ & _ & Hent).
  exists C. split; [exact HC|]. intros i j Hi Hj.
  rewrite !Hent by assumption. apply R_H_increment. lra.
Qed.

Lemma covariance_increment_witness :
  exists C,
    fbm_covariance_grid (array1d [1; 3]) (1 / 2) = Ok C
    /\ mget C 0 0 + mget C 1 1 - 2 * mget C 0 1
       = np_power (Rabs (1 - 3)) (2 * (1 / 2)).
Proof.
  destruct (covariance_increment [1; 3] (1 / 2)) as (C & HC & Hi); [lra|].
  exists C. split; [exact HC|]. apply (Hi 0%nat 1%nat); simpl; lia.
Defined.

(** On a grid without negative points no covariance is negative. *)
Theorem covariance_nonnegative (t : list R) (H : R) :
  0 < H < 1 -> (forall x, In x t -> 0 <= x) ->
  exists C,
    fbm_covariance_grid (array1d t) H = Ok C
    /\ forall i j, (i < length t)%nat -> (j < length t)%nat ->
         0 <= mget C i j.
Proof.
  intros HH Hpos.
  destruct (fbm_covariance_grid_entries t H HH)
    as (C & HC & _ & _ & _ & Hent).
  exists C. split; [exact HC|]. intros i j Hi Hj.
  rewrite Hent by assumption.
  apply R_H_nonneg; try lra; apply Hpos, nth_In; assumption.
Qed.

Lemma covariance_nonnegative_witness :
  exists C,
    fbm_covariance_grid (array1d [0; 1; 2]) (1 / 5) = Ok C
    /\ 0 <= mget C 1 2.
Proof.
  destruct (covariance_nonnegative [0; 1; 2] (1 / 5)) as (C & HC & Hn).
  - lra.
  - simpl. intros x [<-|[<-|[<-|[]]]]; lra.
  - exists C. split; [exact HC|]. apply Hn; simpl; lia.
Defined.

(** Reordering or sub-sampling the grid reorders or sub-samples the
    matrix: the matrix of the points [t[idx]] holds the entries
    [(idx_i, idx_j)] of the matrix of [t]. *)
Theorem covariance_reindexed (t : list R) (H : R) (idx : list nat) :
  0 < H < 1 -> (forall k, In k idx -> (k < length t)%nat) ->
  exists C C',
    fbm_covariance_grid (array1d t) H = Ok C
    /\ fbm_covariance_grid (array1d (map (fun k => nth k t 0) idx)) H = Ok C'
    /\ nrows C' = length idx /\ ncols C' = length idx
    /\ forall i j, (i < length idx)%nat -> (j < length idx)%nat ->
         mget C' i j = mget C (nth i idx 0%nat) (nth j idx 0%nat).
Proof.
  intros HH Hidx.
  destruct (fbm_covariance_grid_entries t H HH)
    as (C & HC & _ & _ & _ & Hent).
  destruct (fbm_covariance_grid_entries (map (fun k => nth k t 0) idx) H HH)
    as (C' & HC' & Hr' & Hc' & _ & Hent').
  rewrite length_map in Hr', Hc', Hent'.
  exists C, C'. repeat split; try assumption.
  intros i j Hi Hj. rewrite Hent' by assumption.
  rewrite Hent by (apply Hidx, nth_In; assumption).
  f_equal; apply (nth_map_idx (fun k => nth k t 0)); assumption.
Qed.

Lemma covariance_reindexed_witness :
  exists C C',
    fbm_covariance_grid (array1d [0; 1; 2]) (1 / 2) = Ok C
    /\ fbm_covariance_grid
         (array1d (map (fun k => nth k [0; 1; 2] 0) [2; 0]%nat)) (1 / 2)
       = Ok C'
    /\ mget C' 0 1 = mget C 2 0.
Proof.
  destruct (covariance_reindexed [0; 1; 2] (1 / 2) [2; 0]%nat)
    as (C & C' & HC & HC' & _ & _ & Hre).
  - lra.
  - simpl. intros k [<-|[<-|[]]]; lia.
  - exists C, C'. repeat split; try assumption.
    apply (Hre 0%nat 1%nat); simpl; lia.
Defined.

(** ** Further properties of [fbm_kl_truncated] *)

Section SamplerExtras.

Context {np : Numpy}.

(** One run, given what the sorting step returned. *)
Lemma fbm_kl_truncated_run_at (H T : R) (K n_steps : Z)
    (random_state : random_state_t) (os_entropy : N) (rng : bitgen)
    (C : matrix) (w : list R) (V : matrix) :
  0 < H < 1 -> (1 <= n_steps)%Z -> 0 < T -> (1 <= K <= n_steps + 1)%Z ->
  (n_steps + 1 <= max_size)%Z ->
  init_rng random_state os_entropy = Ok rng ->
  let t := linspace 0 T (Z.to_nat (n_steps + 1)) in
  fbm_covariance_grid (array1d t) H = Ok C ->
  sorted_eigh C = Ok (w, V) ->
  length w = length t -> nrows V = length t -> ncols V = length t ->
  fbm_kl_truncated H T K n_steps random_state os_entropy
  = Ok {| out_t := t;
          out_path :=
            map (fun i =>
                   Rsum (map (fun k =>
                                mget V i k
                                * (sqrt (nth k w 0) * draw_at rng k))
                             (seq 0 (Z.to_nat K))))
                (seq 0 (length t));
          out_rng := advance (Z.to_nat K) rng |}.
Proof.
  intros HH Hn HT HK Hsize Hrng t HC Hs Hw HVr HVc.
  assert (Hlt : length t = Z.to_nat (n_steps + 1)).
  { unfold t. replace (Z.to_nat (n_steps + 1)) with (S (Z.to_nat n_steps))
      by lia. apply linspace_length. lia. }
  unfold fbm_kl_truncated.
  apply in_unit_interval_true in HH as ->. simpl negb. cbv iota.
  destruct (Z.ltb_spec n_steps 1); [lia|].
  unfold Rleb. destruct (Rle_dec T 0); [lra|].
  cbv zeta.
  destruct (Z.leb_spec 1 K); [|lia].
  destruct (Z.leb_spec K (n_steps + 1)); [|lia].
  simpl negb. cbv iota.
  unfold np_linspace. destruct (Z.ltb_spec max_size (n_steps + 1)); [lia|].
  cbn [bind]. fold t. rewrite HC. cbn [bind]. rewrite Hs. cbn [bind].
  rewrite Hrng. cbn [bind]. unfold normal.
  destruct (Z.ltb_spec K 0); [lia|].
  rewrite draws_spec. cbn [bind].
  rewrite slice_to_firstn by lia.
  assert (HKw : (Z.to_nat K <= length w)%nat) by (rewrite Hw, Hlt; lia).
  rewrite vec_mul_ok
    by (rewrite !length_map, length_firstn, length_seq; lia).
  cbn [bind].
  rewrite length_map, length_firstn, Nat.min_l by assumption.
  assert (HKV : (Z.to_nat K <= ncols V)%nat) by (rewrite HVc, Hlt; lia).
  destruct (cols_to_shape K V ltac:(lia) HKV) as (Hcr & Hcc).
  rewrite matvec_ok by (rewrite length_map, length_seq; assumption).
  cbn [bind]. rewrite Hcr, Hcc, HVr.
  f_equal. f_equal.
  apply map_ext_in. intros i Hi. apply in_seq in Hi.
  f_equal. apply map_ext_in. intros k Hk. apply in_seq in Hk.
  rewrite mget_cols_to by (try lia; try assumption; now rewrite HVr).
  f_equal.
  rewrite nth_tabulate_row by lia.
  rewrite nth_map_R by (rewrite length_firstn; lia).
  rewrite nth_firstn.
  destruct (Nat.ltb_spec k (Z.to_nat K)); [|lia].
  f_equal.
  rewrite (nth_indep _ 0 (draw_at rng 0%nat))
    by (rewrite length_map, length_seq; lia).
  rewrite map_nth, seq_nth by lia. reflexivity.
Qed.


(** The checks are made in a fixed order, so the first one that fails
    decides the message: the number of axes before [H] in
    [fbm_covariance_grid]; [H], then [n_steps], then [T] (then [K]) in
    [fbm_kl_truncated]. *)
Theorem validation_order :
  (forall t H, ndim t <> 1%nat ->
     fbm_covariance_grid t H
     = Raise (ValueError "t must be a 1D array of time points."))
  /\ (forall t H, ndim t = 1%nat -> ~ (0 < H < 1) ->
        fbm_covariance_grid t H = Raise (ValueError "H must be in (0, 1)."))
  /\ (forall H T K n_steps random_state os_entropy,
        ~ (0 < H < 1) ->
        fbm_kl_truncated H T K n_steps random_state os_entropy
        = Raise (ValueError "H must be in (0, 1)."))
  /\ (forall H T K n_steps random_state os_entropy,
        0 < H < 1 -> (n_steps < 1)%Z ->
        fbm_kl_truncated H T K n_steps random_state os_entropy
        = Raise (ValueError "n_steps must be at least 1."))
  /\ (forall H T K n_steps random_state os_entropy,
        0 < H < 1 -> (1 <= n_steps)%Z -> T <= 0 ->
        fbm_kl_truncated H T K n_steps random_state os_entropy
        = Raise (ValueError "T must be positive.")).
Proof.
  repeat split.
  - intros t H Hd. unfold fbm_covariance_grid.
    destruct (Nat.eqb_spec (ndim t) 1); [contradiction|reflexivity].
  - intros t H Hd HH. unfold fbm_covariance_grid.
    rewrite Hd. apply in_unit_interval_false in HH. now rewrite HH.
  - intros H T K n_steps random_state os_entropy HH.
    unfold fbm_kl_truncated.
    apply in_unit_interval_false in HH. now rewrite HH.
  - intros H T K n_steps random_state os_entropy HH Hn.
    unfold fbm_kl_truncated.
    apply in_unit_interval_true in HH. rewrite HH. cbn [negb].
    destruct (Z.ltb_spec n_steps 1); [reflexivity|lia].
  - intros H T K n_steps random_state os_entropy HH Hn HT.
    unfold fbm_kl_truncated.
    apply in_unit_interval_true in HH. rewrite HH. cbn [negb].
    destruct (Z.ltb_spec n_steps 1); [lia|].
    unfold Rleb. destruct (Rle_dec T 0); [reflexivity|contradiction].
Qed.

(** *** The generator across calls *)

Lemma advance_add (a b : nat) (g : bitgen) :
  advance (a + b) g = advance b (advance a g).
Proof.
  revert g. induction a as [|a IH]; intros g; [reflexivity|].
  cbn [Nat.add advance]. apply IH.
Qed.

Lemma draw_at_advance (a k : nat) (g : bitgen) :
  draw_at (advance a g) k = draw_at g (a + k).
Proof.
  unfold draw_at. now rewrite advance_add.
Qed.

Hypothesis eigh_shape :
  forall C, nrows C = ncols C ->
    length (fst (eigh C)) = nrows C
    /\ nrows (snd (eigh C)) = nrows C
    /\ ncols (snd (eigh C)) = nrows C.
Hypothesis argsort_perm :
  forall w, Permutation (argsort w) (seq 0 (length w)).

(** A generator that is passed to two calls in a row is drawn from
    without gap or overlap: the second call uses the draws number
    [K1], ..., [K1 + K2 - 1] and leaves the generator [K1 + K2] draws
    further. *)
Theorem generator_shared_by_two_calls (H1 T1 : R) (K1 n1 : Z)
    (H2 T2 : R) (K2 n2 : Z) (g : bitgen) (e1 e2 : N) :
  0 < H1 < 1 -> 0 < T1 -> (1 <= n1)%Z -> (1 <= K1 <= n1 + 1)%Z ->
  0 < H2 < 1 -> 0 < T2 -> (1 <= n2)%Z -> (1 <= K2 <= n2 + 1)%Z ->
  (n1 + 1 <= max_size)%Z -> (n2 + 1 <= max_size)%Z ->
  exists o1 o2 C2 w2 V2,
    fbm_kl_truncated H1 T1 K1 n1 (RandomGenerator g) e1 = Ok o1
    /\ out_rng o1 = advance (Z.to_nat K1) g
    /\ fbm_kl_truncated H2 T2 K2 n2 (RandomGenerator (out_rng o1)) e2 = Ok o2
    /\ out_rng o2 = advance (Z.to_nat K1 + Z.to_nat K2) g
    /\ fbm_covariance_grid
         (array1d (linspace 0 T2 (Z.to_nat (n2 + 1)))) H2 = Ok C2
    /\ sorted_eigh C2 = Ok (w2, V2)
    /\ forall i, (i < Z.to_nat (n2 + 1))%nat ->
         nth i (out_path o2) 0
         = Rsum (map (fun k =>
                        mget V2 i k
                        * (sqrt (nth k w2 0)
                           * draw_at g (Z.to_nat K1 + k)))
                     (seq 0 (Z.to_nat K2))).
Proof.
  intros HH1 HT1 Hn1 HK1 HH2 HT2 Hn2 HK2 Hsize1 Hsize2.
  destruct (fbm_kl_truncated_run eigh_shape argsort_perm H1 T1 K1 n1
              (RandomGenerator g) e1 g HH1 Hn1 HT1 HK1 Hsize1 eq_refl)
    as (C1 & w1 & V1 & _ & _ & _ & _ & _ & _ & _ & Hrun1).
  destruct (fbm_kl_truncated_run eigh_shape argsort_perm H2 T2 K2 n2
              (RandomGenerator (advance (Z.to_nat K1) g)) e2
              (advance (Z.to_nat K1) g) HH2 Hn2 HT2 HK2 Hsize2 eq_refl)
    as (C2 & w2 & V2 & HC2 & _ & _ & Hs2 & _ & _ & _ & Hrun2).
  assert (Hlen : length (linspace 0 T2 (Z.to_nat (n2 + 1)))
                 = Z.to_nat (n2 + 1)).
  { replace (Z.to_nat (n2 + 1)) with (S (Z.to_nat n2)) by lia.
    apply linspace_length. lia. }
  eexists _, _, C2, w2, V2.
  split; [exact Hrun1|]. cbn [out_rng].
  split; [reflexivity|].
  split; [exact Hrun2|]. cbn [out_rng out_path].
  split; [now rewrite advance_add|].
  split; [exact HC2|]. split; [exact Hs2|].
  intros i Hi. rewrite Hlen.
  rewrite nth_tabulate_row by assumption.
  f_equal. apply map_ext. intros k.
  now rewrite draw_at_advance.
Qed.

(** Keeping one more term adds one mode and changes nothing else: from
    the same generator state [rng], the path with [K + 1] terms is the
    path with [K] terms plus [sqrt(w[K]) * z[K]] times the eigenvector
    number [K]. *)
Theorem one_more_term (H T : R) (K n_steps : Z)
    (random_state : random_state_t) (os_entropy : N) (rng : bitgen) :
  0 < H < 1 -> 0 < T -> (1 <= n_steps)%Z -> (1 <= K < n_steps + 1)%Z ->
  (n_steps + 1 <= max_size)%Z ->
  init_rng random_state os_entropy = Ok rng ->
  exists o o' C w V,
    fbm_kl_truncated H T K n_steps random_state os_entropy = Ok o
    /\ fbm_kl_truncated H T (K + 1) n_steps random_state os_entropy = Ok o'
    /\ fbm_covariance_grid
         (array1d (linspace 0 T (Z.to_nat (n_steps + 1)))) H = Ok C
    /\ sorted_eigh C = Ok (w, V)
    /\ out_t o' = out_t o
    /\ forall i, (i < Z.to_nat (n_steps + 1))%nat ->
         nth i (out_path o') 0
         = nth i (out_path o) 0
           + mget V i (Z.to_nat K)
             * (sqrt (nth (Z.to_nat K) w 0)
                * draw_at rng (Z.to_nat K)).
Proof.
  intros HH HT Hn HK Hsize Hrng.
  destruct (fbm_kl_truncated_run eigh_shape argsort_perm H T K n_steps
              random_state os_entropy rng HH Hn HT ltac:(lia) Hsize Hrng)
    as (C & w & V & HC & _ & _ & Hs & _ & _ & _ & Hrun).
  destruct (fbm_kl_truncated_run eigh_shape argsort_perm H T (K + 1) n_steps
              random_state os_entropy rng HH Hn HT ltac:(lia) Hsize Hrng)
    as (C' & w' & V' & HC' & _ & _ & Hs' & _ & _ & _ & Hrun').
  rewrite HC in HC'. injection HC' as <-.
  rewrite Hs in Hs'. injection Hs' as <- <-.
  assert (Hlen : length (linspace 0 T (Z.to_nat (n_steps + 1)))
                 = Z.to_nat (n_steps + 1)).
  { replace (Z.to_nat (n_steps + 1)) with (S (Z.to_nat n_steps)) by lia.
    apply linspace_length. lia. }
  eexists _, _, C, w, V.
  split; [exact Hrun|]. split; [exact Hrun'|].
  split; [exact HC|]. split; [exact Hs|].
  cbn [out_t out_path]. split; [reflexivity|].
  intros i Hi. rewrite Hlen.
  rewrite !nth_tabulate_row by assumption.
  replace (Z.to_nat (K + 1)) with (S (Z.to_nat K)) by lia.
  rewrite seq_S, map_app, Rsum_app. cbn [map Rsum fold_right Nat.add]. lra.
Qed.

End SamplerExtras.

(** ** Further properties of the sorted eigenpairs *)

Section ExactExtras.

Context {np : Numpy}.

Hypothesis argsort_perm :
  forall w, Permutation (argsort w) (seq 0 (length w)).

(** The sorted columns are eigenvectors for the sorted eigenvalues. *)
Lemma sorted_eigen_equation (C : matrix) (i k : nat) :
  ncols C = nrows C ->
  exact_eigh C (fst (eigh C)) (snd (eigh C)) ->
  (i < nrows C)%nat -> (k < nrows C)%nat ->
  big_sum (nrows C)
    (fun j => mget C i j * mget (snd (eigh C)) j (nth k (raw_order C) 0%nat))
  = nth k (raw_sorted C) 0
    * mget (snd (eigh C)) i (nth k (raw_order C) 0%nat).
Proof.
  intros Hsq Hex Hi Hk.
  pose proof (exact_eigh_well_shaped C Hex) as Hshape.
  rewrite (raw_sorted_nth argsort_perm C Hshape k Hk).
  apply (eigen_equation (nrows C)
           (fun i k => mget (snd (eigh C)) i (nth k (raw_order C) 0%nat))
           (sorted_orthonormal argsort_perm C Hshape Hex)
           (fun k => nth (nth k (raw_order C) 0%nat) (fst (eigh C)) 0)
           (mget C)
           (sorted_decomposed argsort_perm C Hshape Hex)); assumption.
Qed.

(** Reordering keeps each eigenvalue with its eigenvector: column [k] of
    the sorted [V] is an eigenvector of [C] for the sorted [w[k]], and the
    columns stay orthonormal. *)
Theorem eigenpairs_stay_paired (H T : R) (n_steps : Z) :
  0 < H < 1 -> 0 < T -> (1 <= n_steps)%Z ->
  exists C,
    fbm_covariance_grid
      (array1d (linspace 0 T (Z.to_nat (n_steps + 1)))) H = Ok C
    /\ (exact_eigh C (fst (eigh C)) (snd (eigh C)) ->
        exists w V,
          sorted_eigh C = Ok (w, V)
          /\ orthonormal_columns V
          /\ forall i k, (i < nrows C)%nat -> (k < nrows C)%nat ->
               big_sum (nrows C) (fun j => mget C i j * mget V j k)
               = nth k w 0 * mget V i k).
Proof.
  intros HH HT Hn.
  destruct (sampler_covariance H T n_steps HH HT Hn)
    as (C & HC & Hr & Hsq & Hpsd).
  exists C. split; [exact HC|]. intros Hex.
  pose proof (exact_eigh_well_shaped C Hex) as Hshape.
  assert (Hs : sorted_eigh C = Ok (_, _))
    by (apply sorted_eigh_exact; assumption).
  eexists _, _. split; [exact Hs|]. split.
  - intros k l Hk Hl. cbn [nrows ncols tabulate] in *.
    rewrite (big_sum_ext (nrows C) _
               (fun i => mget (snd (eigh C)) i (nth k (raw_order C) 0%nat)
                         * mget (snd (eigh C)) i (nth l (raw_order C) 0%nat)))
      by (intros i Hi; now rewrite !mget_tabulate).
    now apply sorted_orthonormal.
  - intros i k Hi Hk.
    rewrite (big_sum_ext (nrows C) _
               (fun j => mget C i j
                         * mget (snd (eigh C)) j (nth k (raw_order C) 0%nat)))
      by (intros j Hj; now rewrite mget_tabulate).
    rewrite mget_tabulate by assumption.
    now apply sorted_eigen_equation.
Qed.

(** The eigenvalues add up to the trace of [C], the sum of the variances
    [|t_i|^(2H)] over the grid. *)
Theorem eigenvalues_sum_to_trace (H T : R) (n_steps : Z) :
  0 < H < 1 -> 0 < T -> (1 <= n_steps)%Z ->
  let t := linspace 0 T (Z.to_nat (n_steps + 1)) in
  exists C,
    fbm_covariance_grid (array1d t) H = Ok C
    /\ (exact_eigh C (fst (eigh C)) (snd (eigh C)) ->
        exists w V,
          sorted_eigh C = Ok (w, V)
          /\ Rsum w = big_sum (length t) (fun i => mget C i i)
          /\ Rsum w
             = big_sum (length t)
                 (fun i => np_power (Rabs (nth i t 0)) (2 * H))).
Proof.
  intros HH HT Hn t.
  destruct (sampler_covariance H T n_steps HH HT Hn)
    as (C & HC & Hr & Hsq & Hpsd).
  fold t in HC.
  assert (Hlt : length t = nrows C).
  { unfold t. rewrite Hr.
    replace (Z.to_nat (n_steps + 1)) with (S (Z.to_nat n_steps)) by lia.
    apply linspace_length. lia. }
  exists C. split; [exact HC|]. intros Hex.
  pose proof (exact_eigh_well_shaped C Hex) as Hshape.
  assert (Hs : sorted_eigh C = Ok (_, _))
    by (apply sorted_eigh_exact; assumption).
  eexists _, _. split; [exact Hs|].
  assert (Htrace : Rsum (raw_sorted C)
                   = big_sum (length t) (fun i => mget C i i)).
  { rewrite Hlt.
    rewrite <- (map_nth_seq 0 (raw_sorted C)).
    rewrite (raw_sorted_length argsort_perm C Hshape).
    fold (big_sum (nrows C) (fun k => nth k (raw_sorted C) 0)).
    rewrite (big_sum_ext (nrows C) (fun i => mget C i i)
               (fun i => big_sum (nrows C) (fun k =>
                  nth k (raw_sorted C) 0
                  * (mget (snd (eigh C)) i (nth k (raw_order C) 0%nat)
                     * mget (snd (eigh C)) i (nth k (raw_order C) 0%nat))))).
    - rewrite big_sum_swap. apply big_sum_ext. intros k Hk.
      rewrite big_sum_scal_l.
      rewrite (sorted_orthonormal argsort_perm C Hshape Hex k k Hk Hk).
      rewrite Nat.eqb_refl. ring.
    - intros i Hi.
      rewrite (sorted_decomposed argsort_perm C Hshape Hex i i Hi Hi).
      apply big_sum_ext. intros k Hk.
      rewrite (raw_sorted_nth argsort_perm C Hshape k Hk). ring. }
  split; [exact Htrace|].
  rewrite Htrace.
  destruct (fbm_covariance_grid_entries t H HH)
    as (C' & HC' & _ & _ & _ & Hent).
  rewrite HC in HC'. injection HC' as <-.
  apply big_sum_ext. intros i Hi.
  rewrite Hent by assumption. apply R_H_diag. lra.
Qed.

(** The truncation error in closed form: the root of the sum of the
    squares of the eigenvalues that are left out. *)
Theorem truncation_error_value (H T : R) (K n_steps : Z) :
  0 < H < 1 -> 0 < T -> (1 <= n_steps)%Z -> (0 <= K <= n_steps + 1)%Z ->
  exists C,
    fbm_covariance_grid
      (array1d (linspace 0 T (Z.to_nat (n_steps + 1)))) H = Ok C
    /\ (exact_eigh C (fst (eigh C)) (snd (eigh C)) ->
        exists w V,
          sorted_eigh C = Ok (w, V)
          /\ truncation_error C V w K
             = sqrt (big_sum (nrows C)
                       (fun k => if (k <? Z.to_nat K)%nat then 0
                                 else nth k w 0 * nth k w 0))).
Proof.
  intros HH HT Hn HK.
  destruct (sampler_covariance H T n_steps HH HT Hn)
    as (C & HC & Hr & Hsq & Hpsd).
  exists C. split; [exact HC|]. intros Hex.
  pose proof (exact_eigh_well_shaped C Hex) as Hshape.
  assert (Hs : sorted_eigh C = Ok (_, _))
    by (apply sorted_eigh_exact; assumption).
  eexists _, _. split; [exact Hs|].
  apply truncation_error_formula; try assumption. lia.
Qed.

(** The simulated path starts at 0: with an exact eigendecomposition its
    first entry is 0 whatever the draws are. *)
Theorem path_starts_at_zero (H T : R) (K n_steps : Z)
    (random_state : random_state_t) (os_entropy : N) (rng : bitgen) :
  0 < H < 1 -> 0 < T -> (1 <= n_steps)%Z -> (1 <= K <= n_steps + 1)%Z ->
  (n_steps + 1 <= max_size)%Z ->
  init_rng random_state os_entropy = Ok rng ->
  exists C,
    fbm_covariance_grid
      (array1d (linspace 0 T (Z.to_nat (n_steps + 1)))) H = Ok C
    /\ (exact_eigh C (fst (eigh C)) (snd (eigh C)) ->
        exists o,
          fbm_kl_truncated H T K n_steps random_state os_entropy = Ok o
          /\ nth 0 (out_t o) 0 = 0
          /\ nth 0 (out_path o) 0 = 0).
Proof.
  intros HH HT Hn HK Hsize Hrng.
  destruct (sampler_covariance H T n_steps HH HT Hn)
    as (C & HC & Hr & Hsq & Hpsd).
  set (t := linspace 0 T (Z.to_nat (n_steps + 1))) in *.
  assert (HtS : t = linspace 0 T (S (Z.to_nat n_steps))).
  { unfold t. f_equal. lia. }
  assert (Hlt : length t = nrows C).
  { rewrite Hr, HtS.
    replace (Z.to_nat (n_steps + 1)) with (S (Z.to_nat n_steps)) by lia.
    apply linspace_length. lia. }
  assert (Ht0 : nth 0 t 0 = 0).
  { rewrite HtS. apply linspace_origin. lia. }
  assert (HN : (0 < nrows C)%nat) by lia.
  exists C. split; [exact HC|]. intros Hex.
  pose proof (exact_eigh_well_shaped C Hex) as Hshape.
  assert (Hs : sorted_eigh C = Ok (_, _))
    by (apply sorted_eigh_exact; assumption).
  pose proof (fbm_kl_truncated_run_at H T K n_steps random_state os_entropy
                rng C _ _ HH Hn HT HK Hsize Hrng HC Hs) as Hrun.
  fold t in Hrun.
  rewrite (raw_sorted_length argsort_perm C Hshape) in Hrun.
  cbn [nrows ncols tabulate] in Hrun.
  specialize (Hrun (eq_sym Hlt) (eq_sym Hlt) (eq_sym Hlt)).
  eexists. split; [exact Hrun|]. cbn [out_t out_path].
  split; [exact Ht0|].
  rewrite nth_tabulate_row by lia.
  fold (big_sum (Z.to_nat K)
          (fun k =>
             mget (tabulate (nrows C) (nrows C)
                     (fun i k0 => mget (snd (eigh C)) i
                                    (nth k0 (raw_order C) 0%nat))) 0 k
             * (sqrt (nth k (raw_sorted C) 0) * draw_at rng k))).
  apply big_sum_zero. intros k Hk.
  assert (HkN : (k < nrows C)%nat) by lia.
  rewrite mget_tabulate by assumption.
  pose proof (sorted_eigen_equation C 0 k Hsq Hex HN HkN) as Heq.
  rewrite big_sum_zero in Heq.
  - destruct (Req_dec (nth k (raw_sorted C) 0) 0) as [E|Hne].
    + rewrite E, sqrt_0. ring.
    + assert (E : mget (snd (eigh C)) 0 (nth k (raw_order C) 0%nat) = 0).
      { symmetry in Heq. apply Rmult_integral in Heq. tauto. }
      rewrite E. ring.
  - intros j Hj.
    destruct (fbm_covariance_grid_entries t H HH)
      as (C' & HC' & _ & _ & _ & Hent).
    rewrite HC in HC'. injection HC' as <-.
    rewrite Hent, Ht0, R_H_origin_l by (try lia; lra). ring.
Qed.

End ExactExtras.

(** ** The path of one call *)

Section PathClaim.

Context {np : Numpy}.

Hypothesis eigh_shape :
  forall C, nrows C = ncols C ->
    length (fst (eigh C)) = nrows C
    /\ nrows (snd (eigh C)) = nrows C
    /\ ncols (snd (eigh C)) = nrows C.
Hypothesis argsort_perm :
  forall w, Permutation (argsort w) (seq 0 (length w)).
Hypothesis argsort_sorted :
  forall w, StronglySorted Rle (map (fun j => nth j w 0) (argsort w)).


End PathClaim.

(** The entries of a truncation, for any square [V]. *)
Lemma truncation_entry_any (V : matrix) (w : list R) (K : Z) (i j : nat) :
  (0 <= K)%Z -> (Z.to_nat K <= ncols V)%nat ->
  (i < nrows V)%nat -> (j < nrows V)%nat ->
  mget (truncation V w K) i j
  = big_sum (Z.to_nat K) (fun k => mget V i k * nth k w 0 * mget V j k).
Proof.
  intros HK HKV Hi Hj.
  destruct (cols_to_shape K V HK HKV) as (Hcr & Hcc).
  unfold truncation. rewrite mget_tabulate by assumption.
  rewrite Hcc. apply big_sum_ext. intros k Hk.
  rewrite !mget_cols_to by assumption.
  rewrite slice_to_firstn, nth_firstn by assumption.
  destruct (Nat.ltb_spec k (Z.to_nat K)); [reflexivity|lia].
Qed.

Section MoreSamplerExtras.

Context {np : Numpy}.

(** In exact arithmetic, the grid that the sampler returns, and hands to
    [fbm_covariance_grid], is what the docstring of the latter expects:
    inside [[0, T]], strictly increasing, with the constant step
    [T / n_steps]. *)
Theorem grid_sorted_equidistant (H T : R) (K n_steps : Z)
    (random_state : random_state_t) (os_entropy : N) (o : outcome) :
  fbm_kl_truncated H T K n_steps random_state os_entropy = Ok o ->
  (forall i, (i < Z.to_nat n_steps)%nat ->
     nth (S i) (out_t o) 0 - nth i (out_t o) 0 = T / IZR n_steps
     /\ nth i (out_t o) 0 < nth (S i) (out_t o) 0)
  /\ (forall i, (i <= Z.to_nat n_steps)%nat -> 0 <= nth i (out_t o) 0 <= T).
Proof.
  intros Ho.
  destruct (fbm_kl_truncated_out_t H T K n_steps random_state os_entropy o Ho)
    as (_ & Hn & HT & _ & _ & _ & ->).
  replace (Z.to_nat (n_steps + 1)) with (S (Z.to_nat n_steps)) by lia.
  assert (Hn' : (1 <= Z.to_nat n_steps)%nat) by lia.
  assert (HIn : IZR n_steps = INR (Z.to_nat n_steps))
    by (rewrite INR_IZR_INZ, Z2Nat.id by lia; reflexivity).
  assert (Hpos : 0 < INR (Z.to_nat n_steps)) by (apply lt_0_INR; lia).
  assert (Hstep : 0 < T / INR (Z.to_nat n_steps))
    by now apply Rdiv_lt_0_compat.
  split.
  - intros i Hi. rewrite !linspace_nth by lia. rewrite HIn, S_INR.
    split; [field; lra|].
    unfold Rdiv in *. nra.
  - intros i Hi. rewrite linspace_nth by lia.
    assert (0 <= INR i <= INR (Z.to_nat n_steps)).
    { split; [apply pos_INR|]. apply le_INR. lia. }
    split.
    + unfold Rdiv in *. rewrite Rmult_assoc. apply Rmult_le_pos; lra.
    + apply (Rmult_le_reg_r (INR (Z.to_nat n_steps))); [assumption|].
      unfold Rdiv. rewrite Rmult_assoc, Rinv_l, Rmult_1_r by lra. nra.
Qed.

Hypothesis eigh_shape :
  forall C, nrows C = ncols C ->
    length (fst (eigh C)) = nrows C
    /\ nrows (snd (eigh C)) = nrows C
    /\ ncols (snd (eigh C)) = nrows C.
Hypothesis argsort_perm :
  forall w, Permutation (argsort w) (seq 0 (length w)).

(** Why the eigenvalues are clipped: the path is [A z] for the matrix
    [A[i, k] = V[i, k] * sqrt(w[k])], and since no retained [w[k]] is
    negative, [A A^T] is [V[:, :K] diag(w[:K]) V[:, :K]^T], whatever
    [eigh] returned. *)
Theorem mixing_matrix_gram (H T : R) (K n_steps : Z)
    (random_state : random_state_t) (os_entropy : N) (rng : bitgen) :
  0 < H < 1 -> 0 < T -> (1 <= n_steps)%Z -> (1 <= K <= n_steps + 1)%Z ->
  (n_steps + 1 <= max_size)%Z ->
  init_rng random_state os_entropy = Ok rng ->
  exists C w V o,
    fbm_covariance_grid
      (array1d (linspace 0 T (Z.to_nat (n_steps + 1)))) H = Ok C
    /\ sorted_eigh C = Ok (w, V)
    /\ fbm_kl_truncated H T K n_steps random_state os_entropy = Ok o
    /\ (forall i, (i < Z.to_nat (n_steps + 1))%nat ->
          nth i (out_path o) 0
          = big_sum (Z.to_nat K)
              (fun k => (mget V i k * sqrt (nth k w 0)) * draw_at rng k))
    /\ (forall i j,
          (i < Z.to_nat (n_steps + 1))%nat ->
          (j < Z.to_nat (n_steps + 1))%nat ->
          big_sum (Z.to_nat K)
            (fun k => (mget V i k * sqrt (nth k w 0))
                      * (mget V j k * sqrt (nth k w 0)))
          = mget (truncation V w K) i j).
Proof.
  intros HH HT Hn HK Hsize Hrng.
  destruct (fbm_kl_truncated_run eigh_shape argsort_perm H T K n_steps
              random_state os_entropy rng HH Hn HT HK Hsize Hrng)
    as (C & w & V & HC & Hr & Hc & Hs & Hw & HVr & HVc & Hrun).
  assert (Hlen : length (linspace 0 T (Z.to_nat (n_steps + 1)))
                 = Z.to_nat (n_steps + 1)).
  { replace (Z.to_nat (n_steps + 1)) with (S (Z.to_nat n_steps)) by lia.
    apply linspace_length. lia. }
  rewrite Hlen in *.
  assert (Hwpos : forall k, (k < Z.to_nat K)%nat -> 0 <= nth k w 0).
  { intros k Hk.
    assert (Hsq : nrows C = ncols C) by congruence.
    rewrite (sorted_eigh_ok eigh_shape argsort_perm C Hsq) in Hs.
    injection Hs as <- _.
    apply (clip_lo_result_nonneg
             (map (fun j => nth j (fst (eigh C)) 0)
                  (rev (argsort (fst (eigh C)))))).
    apply nth_In. rewrite Hw. lia. }
  exists C, w, V. eexists.
  split; [exact HC|]. split; [exact Hs|]. split; [exact Hrun|].
  cbn [out_path]. split.
  - intros i Hi. rewrite nth_tabulate_row by assumption.
    unfold big_sum. f_equal. apply map_ext. intros k. ring.
  - intros i j Hi Hj.
    rewrite truncation_entry_any by lia.
    apply big_sum_ext. intros k Hk.
    pose proof (sqrt_sqrt (nth k w 0) (Hwpos k Hk)) as Hsq.
    rewrite <- Hsq at 3. ring.
Qed.

End MoreSamplerExtras.

(** ** The further properties on concrete arguments *)



Lemma validation_order_witness :
  @fbm_kl_truncated simple_numpy 0 (-1) 0 0 RandomNone 0
  = Raise (ValueError "H must be in (0, 1).")
  /\ @fbm_kl_truncated simple_numpy (1 / 2) (-1) 0 0 RandomNone 0
     = Raise (ValueError "n_steps must be at least 1.")
  /\ @fbm_kl_truncated simple_numpy (1 / 2) (-1) 0 5 RandomNone 0
     = Raise (ValueError "T must be positive.")
  /\ fbm_covariance_grid {| shape := [2; 2]%nat; data := [0; 1; 2; 3] |} 7
     = Raise (ValueError "t must be a 1D array of time points.").
Proof.
  destruct (@validation_order simple_numpy) as (Hd & _ & HH & Hn & HT).
  split; [|split; [|split]].
  - apply HH. lra.
  - apply Hn; [lra|lia].
  - apply HT; [lra|lia|lra].
  - apply Hd. cbn. lia.
Defined.

Lemma grid_sorted_equidistant_witness :
  exists o,
    @fbm_kl_truncated simple_numpy (1 / 2) 3 2 4 (RandomSeed 1) 0 = Ok o
    /\ nth 1 (out_t o) 0 - nth 0 (out_t o) 0 = 3 / 4
    /\ 0 <= nth 4 (out_t o) 0 <= 3.
Proof.
  destruct (@fbm_kl_truncated_run simple_numpy eigh_diagonal_shape
              insertion_argsort_perm (1 / 2) 3 2 4 (RandomSeed 1) 0%N
              (counter_seed 1))
    as (C & w & V & _ & _ & _ & _ & _ & _ & _ & Hrun);
    try lra; try lia; try reflexivity; try (cbn; lia).
  eexists. split; [exact Hrun|].
  destruct (@grid_sorted_equidistant simple_numpy (1 / 2) 3 2 4
              (RandomSeed 1) 0%N _ Hrun) as (Hstep & Hin).
  split.
  - apply (Hstep 0%nat). simpl. lia.
  - apply (Hin 4%nat). simpl. lia.
Defined.

Lemma generator_shared_by_two_calls_witness :
  exists o1 o2,
    @fbm_kl_truncated simple_numpy (1 / 2) 1 2 2
      (@RandomGenerator simple_numpy 5%nat) 0 = Ok o1
    /\ @fbm_kl_truncated simple_numpy (1 / 3) 2 3 4
         (RandomGenerator (out_rng o1)) 0 = Ok o2
    /\ out_rng o2 = 10%nat.
Proof.
  destruct (@generator_shared_by_two_calls simple_numpy eigh_diagonal_shape
              insertion_argsort_perm (1 / 2) 1 2 2 (1 / 3) 2 3 4
              (5%nat : @bitgen simple_numpy) 0%N 0%N)
    as (o1 & o2 & C2 & w2 & V2 & H1 & _ & H2 & Hrng & _);
    try lra; try lia; try (cbn; lia).
  exists o1, o2. repeat split; assumption.
Defined.

Lemma one_more_term_witness :
  exists o o',
    @fbm_kl_truncated simple_numpy (1 / 2) 1 1 2 (RandomSeed 3) 0 = Ok o
    /\ @fbm_kl_truncated simple_numpy (1 / 2) 1 2 2 (RandomSeed 3) 0 = Ok o'
    /\ out_t o' = out_t o.
Proof.
  destruct (@one_more_term simple_numpy eigh_diagonal_shape
              insertion_argsort_perm (1 / 2) 1 1 2 (RandomSeed 3) 0%N
              (counter_seed 3))
    as (o & o' & C & w & V & Ho & Ho' & _ & _ & Ht & _);
    try lra; try lia; try reflexivity; try (cbn; lia).
  exists o, o'. repeat split; assumption.
Defined.

Lemma mixing_matrix_gram_witness :
  exists C w V,
    fbm_covariance_grid (array1d (linspace 0 1 3)) (1 / 2) = Ok C
    /\ @sorted_eigh simple_numpy C = Ok (w, V)
    /\ big_sum 2 (fun k => (mget V 1 k * sqrt (nth k w 0))
                           * (mget V 2 k * sqrt (nth k w 0)))
       = mget (truncation V w 2) 1 2.
Proof.
  destruct (@mixing_matrix_gram simple_numpy eigh_diagonal_shape
              insertion_argsort_perm (1 / 2) 1 2 2 (RandomSeed 3) 0%N
              (counter_seed 3))
    as (C & w & V & o & HC & Hs & _ & _ & Hgram);
    try lra; try lia; try reflexivity; try (cbn; lia).
  exists C, w, V. repeat split; try assumption.
  apply (Hgram 1%nat 2%nat); simpl; lia.
Defined.

Lemma eigenpairs_stay_paired_witness :
  exists C w V,
    fbm_covariance_grid (array1d (linspace 0 1 2)) (1 / 2) = Ok C
    /\ @sorted_eigh simple_numpy C = Ok (w, V)
    /\ orthonormal_columns V.
Proof.
  destruct (@eigenpairs_stay_paired simple_numpy insertion_argsort_perm
              (1 / 2) 1 1)
    as (C & HC & Hex); try lra; try lia.
  destruct (Hex (one_step_covariance_exact C HC)) as (w & V & Hs & Ho & _).
  exists C, w, V. auto.
Defined.

Lemma eigenvalues_sum_to_trace_witness :
  exists C w V,
    fbm_covariance_grid (array1d (linspace 0 1 2)) (1 / 2) = Ok C
    /\ @sorted_eigh simple_numpy C = Ok (w, V)
    /\ Rsum w = big_sum (length (linspace 0 1 2)) (fun i => mget C i i).
Proof.
  destruct (@eigenvalues_sum_to_trace simple_numpy insertion_argsort_perm
              (1 / 2) 1 1)
    as (C & HC & Hex); try lra; try lia.
  destruct (Hex (one_step_covariance_exact C HC)) as (w & V & Hs & Ht & _).
  exists C, w, V. auto.
Defined.

Lemma truncation_error_value_witness :
  exists C w V,
    fbm_covariance_grid (array1d (linspace 0 1 2)) (1 / 2) = Ok C
    /\ @sorted_eigh simple_numpy C = Ok (w, V)
    /\ truncation_error C V w 1
       = sqrt (big_sum (nrows C)
                 (fun k => if (k <? 1)%nat then 0
                           else nth k w 0 * nth k w 0)).
Proof.
  destruct (@truncation_error_value simple_numpy insertion_argsort_perm
              (1 / 2) 1 1 1)
    as (C & HC & Hex); try lra; try lia.
  destruct (Hex (one_step_covariance_exact C HC)) as (w & V & Hs & He).
  exists C, w, V. auto.
Defined.

Lemma path_starts_at_zero_witness :
  exists o,
    @fbm_kl_truncated simple_numpy (1 / 2) 1 2 1 (RandomSeed 9) 0 = Ok o
    /\ nth 0 (out_path o) 0 = 0.
Proof.
  destruct (@path_starts_at_zero simple_numpy insertion_argsort_perm
              (1 / 2) 1 2 1 (RandomSeed 9) 0%N (counter_seed 9))
    as (C & HC & Hex);
    try lra; try lia; try reflexivity; try (cbn; lia).
  destruct (Hex (one_step_covariance_exact C HC)) as (o & Ho & _ & Hp).
  exists o. auto.
Defined.
